(** * ParalegalAI: hybrid retrieval and parallel ingestion core

    A shallow embedding of the JavaScript sources
      - [ApiKeyRotator]            (server/utils/ApiKeyRotator.js)
      - [ParallelGeminiEmbedder]   (EmbeddingEngines/gemini/ParallelGeminiEmbedder.js)
      - [ParallelQdrant]           (vectorDbProviders/qdrant/ParallelQdrantProvider.js)
      - [ParallelDocumentProcessor]
      - [BM25] and [HybridSearchManager]
    followed by the properties checked against them.

    Conventions.  JavaScript strings are restricted to ASCII and carried by
    [string]; [undefined]/[null] are [None]; a [TypeError] raised by a member
    access on [undefined] makes the modelled function return [None];
    [Date.now()] is an explicit argument [now : Z] (milliseconds); counters
    and sizes are [nat].  Scores are exact rationals [Q]: rounding is not
    modelled, [Math.log] is a parameter [log : Q -> Q], and a division is
    only relied upon where its divisor is not zero (in JavaScript [x / 0]
    is [Infinity] or [NaN], in [Q] it is [0]).  External services (the
    embedding provider, the splitter, Qdrant, the file loader) are
    functions or fields of an environment record. *)

From Stdlib Require Import ZArith QArith Lia Lqa Ascii String.
From stdpp Require Import base option list gmap sets strings pretty.

(* ===================================================================== *)
(** ** JavaScript strings and values (ASCII)                              *)
(* ===================================================================== *)

Module JS.

Definition code (c : ascii) : nat := nat_of_ascii c.

(** [\s], restricted to ASCII: tab, line feed, vertical tab, form feed,
    carriage return, space. *)
Definition isSpace (c : ascii) : bool :=
  ((9 <=? code c) && (code c <=? 13)) || (code c =? 32).
(** [\d] *)
Definition isDigit (c : ascii) : bool := (48 <=? code c) && (code c <=? 57).
(** [[A-Z]] *)
Definition isUpper (c : ascii) : bool := (65 <=? code c) && (code c <=? 90).
(** [[a-z]] *)
Definition isLower (c : ascii) : bool := (97 <=? code c) && (code c <=? 122).
(** [\w] *)
Definition isWord (c : ascii) : bool :=
  isDigit c || isUpper c || isLower c || (code c =? 95).

Definition lowerChar (c : ascii) : ascii :=
  if isUpper c then ascii_of_nat (code c + 32) else c.

(** [s.toLowerCase()] *)
Fixpoint toLowerCase (s : string) : string :=
  match s with
  | EmptyString => EmptyString
  | String c s' => String (lowerChar c) (toLowerCase s')
  end.

Fixpoint trimStart (s : string) : string :=
  match s with
  | String c s' => if isSpace c then trimStart s' else s
  | EmptyString => EmptyString
  end.

Fixpoint trimEnd (s : string) : string :=
  match s with
  | EmptyString => EmptyString
  | String c s' =>
      match trimEnd s' with
      | EmptyString => if isSpace c then EmptyString else String c EmptyString
      | rest => String c rest
      end
  end.

(** [s.trim()] *)
Definition trim (s : string) : string := trimEnd (trimStart s).

(** [s.substring(0, n)] *)
Fixpoint substring0 (n : nat) (s : string) : string :=
  match n, s with
  | S n', String c s' => String c (substring0 n' s')
  | _, _ => EmptyString
  end.

(** A property value as the code meets it in [doc.id], [doc.docId]. *)
Inductive value :=
| Undefined
| Number (z : Z)
| Str (s : string).

(** Truthiness: [undefined], [0] and [""] are falsy. *)
Definition truthy (v : value) : bool :=
  match v with
  | Undefined => false
  | Number z => negb (z =? 0)%Z
  | Str s => negb (String.length s =? 0)
  end.

(** [a || b] *)
Definition or (a b : value) : value := if truthy a then a else b.

(** The string a template literal puts for [${v}]. *)
Definition toString (v : value) : string :=
  match v with
  | Undefined => "undefined"
  | Number z => pretty z
  | Str s => s
  end.

(** [a || b] on optional strings. *)
Definition orString (a b : option string) : option string :=
  match a with
  | Some (String _ _) => a
  | _ => b
  end.

(** [a || d] on optional numbers with a numeric default. *)
Definition orQ (a : option Q) (d : Q) : Q :=
  match a with
  | Some q => if Qeq_bool q 0 then d else q
  | None => d
  end.
(** [s.includes(sub)] *)
Fixpoint includes (s sub : string) : bool :=
  String.prefix sub s
  || match s with
     | EmptyString => false
     | String _ s' => includes s' sub
     end.

End JS.

(* ===================================================================== *)
(** ** Key rotation: [class ApiKeyRotator]                                *)
(* ===================================================================== *)

Module ApiKeyRotator.

Abbreviation Key := string (only parsing).

(** The per-key object stored in [this.keyStats]. *)
Record KeyStats := mkStats {
  requests : nat;
  failures : nat;
  lastUsed : option Z;
  rateLimitUntil : option Z;
}.

Record t := mkRotator {
  apiKeys : list Key;
  currentIndex : nat;
  keyStats : gmap nat KeyStats;
  failedKeys : gset nat;
}.

Definition freshStats : KeyStats :=
  {| requests := 0; failures := 0; lastUsed := None; rateLimitUntil := None |}.

(** [this.keyStats.set(index, {...})] for every index of [keys],
    starting at [index]. *)
Fixpoint initStats (keys : list Key) (index : nat) (m : gmap nat KeyStats)
  : gmap nat KeyStats :=
  match keys with
  | [] => m
  | _ :: keys' => initStats keys' (S index) (<[index := freshStats]> m)
  end.

(** [key => key && key.trim().length > 0] *)
Definition nonBlank (key : Key) : bool :=
  negb (String.length key =? 0) && (0 <? String.length (JS.trim key)).

(** [constructor(apiKeys)]; [envKey] is [process.env.GEMINI_API_KEY].
    The statistics are initialised before the fallback key is pushed, so
    the fallback key has no entry in [keyStats]. *)
Definition constructor (keys : list Key) (envKey : Key) : t :=
  let filtered := List.filter nonBlank keys in
  let stats := initStats filtered 0 ∅ in
  {| apiKeys := if (length filtered =? 0) then [envKey] else filtered;
     currentIndex := 0;
     keyStats := stats;
     failedKeys := ∅ |}.

(** [stats.rateLimitUntil && Date.now() < stats.rateLimitUntil]:
    [null] and [0] are falsy. *)
Definition isRateLimited (now : Z) (stats : KeyStats) : bool :=
  match rateLimitUntil stats with
  | Some u => negb (u =? 0)%Z && (now <? u)%Z
  | None => false
  end.

Definition advance (self : t) : nat :=
  ((currentIndex self + 1) `mod` length (apiKeys self)).

Definition setIndex (self : t) (i : nat) : t :=
  {| apiKeys := apiKeys self; currentIndex := i;
     keyStats := keyStats self; failedKeys := failedKeys self |}.

Definition setStats (self : t) (i : nat) (st : KeyStats) : t :=
  {| apiKeys := apiKeys self; currentIndex := currentIndex self;
     keyStats := <[i := st]> (keyStats self); failedKeys := failedKeys self |}.

Definition setFailed (self : t) (f : gset nat) : t :=
  {| apiKeys := apiKeys self; currentIndex := currentIndex self;
     keyStats := keyStats self; failedKeys := f |}.

(** The [while (attempts < this.apiKeys.length)] loop; [remaining] is
    [this.apiKeys.length - attempts].  [Some (Some i, self')]: the loop
    returned from inside, having chosen index [i]; [Some (None, self')]:
    the loop ran to its end; [None]: [stats] was [undefined]. *)
Fixpoint getNextKey_loop (remaining : nat) (now : Z) (self : t)
  : option (option nat * t) :=
  match remaining with
  | O => Some (None, self)
  | S remaining' =>
      let keyIndex := currentIndex self in
      stats ← keyStats self !! keyIndex;
      if isRateLimited now stats then
        getNextKey_loop remaining' now (setIndex self (advance self))
      else if bool_decide (keyIndex ∈ failedKeys self) then
        getNextKey_loop remaining' now (setIndex self (advance self))
      else
        let stats' := {| requests := S (requests stats);
                         failures := failures stats;
                         lastUsed := Some now;
                         rateLimitUntil := rateLimitUntil stats |} in
        let self' := setStats self keyIndex stats' in
        Some (Some keyIndex, setIndex self' (advance self'))
  end.

(** The index whose key [getNextKey] hands out, with the new state. *)
Definition getNextKey_index (now : Z) (self : t) : option (nat * t) :=
  if (length (apiKeys self) =? 1) then Some (0, self)
  else
    let startIndex := currentIndex self in
    '(found, self') ← getNextKey_loop (length (apiKeys self)) now self;
    match found with
    | Some keyIndex => Some (keyIndex, self')
    | None => Some (startIndex, self')
    end.

(** [getNextKey()]: the returned value is [this.apiKeys[index]]
    ([None] inside is [undefined]). *)
Definition getNextKey (now : Z) (self : t) : option (option Key * t) :=
  '(i, self') ← getNextKey_index now self;
  Some (apiKeys self !! i, self').

(** [this.apiKeys.indexOf(apiKey)]; [None] is [-1]. *)
Fixpoint indexOf_from (keys : list Key) (apiKey : Key) (i : nat) : option nat :=
  match keys with
  | [] => None
  | k :: keys' => if String.eqb k apiKey then Some i
                  else indexOf_from keys' apiKey (S i)
  end.

Definition indexOf (self : t) (apiKey : Key) : option nat :=
  indexOf_from (apiKeys self) apiKey 0.

(** [markRateLimited(apiKey, durationMs = 60000)]. *)
Definition markRateLimited (now : Z) (apiKey : Key) (durationMs : Z) (self : t)
  : option t :=
  match indexOf self apiKey with
  | None => Some self
  | Some keyIndex =>
      stats ← keyStats self !! keyIndex;
      Some (setStats self keyIndex
              {| requests := requests stats; failures := failures stats;
                 lastUsed := lastUsed stats;
                 rateLimitUntil := Some (now + durationMs)%Z |})
  end.

(** [markFailed(apiKey)]. *)
Definition markFailed (apiKey : Key) (self : t) : option t :=
  match indexOf self apiKey with
  | None => Some self
  | Some keyIndex =>
      stats ← keyStats self !! keyIndex;
      let stats' := {| requests := requests stats;
                       failures := S (failures stats);
                       lastUsed := lastUsed stats;
                       rateLimitUntil := rateLimitUntil stats |} in
      let self' := setStats self keyIndex stats' in
      Some (if (5 <=? failures stats')
            then setFailed self' ({[keyIndex]} ∪ failedKeys self')
            else self')
  end.

(** [markSuccess(apiKey)]. *)
Definition markSuccess (apiKey : Key) (self : t) : option t :=
  match indexOf self apiKey with
  | None => Some self
  | Some keyIndex =>
      stats ← keyStats self !! keyIndex;
      let self' := setStats self keyIndex
                     {| requests := requests stats; failures := 0;
                        lastUsed := lastUsed stats;
                        rateLimitUntil := rateLimitUntil stats |} in
      Some (setFailed self' (failedKeys self' ∖ {[keyIndex]}))
  end.

(** [resetRateLimits()]. *)
Definition resetRateLimits (self : t) : t :=
  {| apiKeys := apiKeys self; currentIndex := currentIndex self;
     keyStats := (fun st => {| requests := requests st; failures := failures st;
                               lastUsed := lastUsed st; rateLimitUntil := None |})
                 <$> keyStats self;
     failedKeys := failedKeys self |}.

(** The body of the [forEach] callback in [getAvailableKeyCount]:
    [!isRateLimited && !isFailed] for one index. *)
Definition isAvailable (now : Z) (self : t) (index : nat) : option bool :=
  stats ← keyStats self !! index;
  Some (negb (isRateLimited now stats)
        && negb (bool_decide (index ∈ failedKeys self))).

(** [getAvailableKeyCount()]. *)
Definition getAvailableKeyCount (now : Z) (self : t) : option nat :=
  foldr (fun index acc =>
           n ← acc; a ← isAvailable now self index;
           Some (if a : bool then S n else n))
        (Some 0) (seq 0 (length (apiKeys self))).

(** A pool index that is neither cooling down nor disabled at [now]. *)
Definition usable (now : Z) (self : t) (i : nat) : Prop :=
  i < length (apiKeys self) /\ isAvailable now self i = Some true.

(** Every pool index carries statistics (what [constructor] sets up for a
    non-empty key list). *)
Definition hasStats (self : t) : Prop :=
  forall i, (i < length (apiKeys self)) -> is_Some (keyStats self !! i).

(** The rotator invariant set up by [constructor] on a non-empty key
    list: the cursor is inside the pool and every index has statistics. *)
Definition wf (self : t) : Prop :=
  currentIndex self < length (apiKeys self) /\ hasStats self.

End ApiKeyRotator.

(** ** Call sequences on a rotator *)

Module RotatorTrace.
Import ApiKeyRotator.

(** One call on the rotator's public interface. *)
Inductive call :=
| GetNextKey (now : Z)
| MarkRateLimited (now : Z) (apiKey : Key) (durationMs : Z)
| MarkFailed (apiKey : Key)
| MarkSuccess (apiKey : Key).

Definition step (c : call) (self : t) : option t :=
  match c with
  | GetNextKey now => snd <$> getNextKey now self
  | MarkRateLimited now k d => markRateLimited now k d self
  | MarkFailed k => markFailed k self
  | MarkSuccess k => markSuccess k self
  end.

Fixpoint run (cs : list call) (self : t) : option t :=
  match cs with
  | [] => Some self
  | c :: cs' => self' ← step c self; run cs' self'
  end.

(** The call does not end the cooldown of [apiKey] before [deadline]: if
    it marks [apiKey] rate limited again, the new cooldown runs at least
    as long.  (The embedder always marks for 60000 ms, so every later
    mark of a key qualifies.) *)
Definition keepsDeadline (apiKey : Key) (deadline : Z) (c : call) : Prop :=
  match c with
  | MarkRateLimited now k durationMs => k = apiKey -> (deadline <= now + durationMs)%Z
  | _ => True
  end.

(** The key at index [i] is cooling down until [deadline] or later. *)
Definition coolingUntil (self : t) (i : nat) (deadline : Z) : Prop :=
  exists stats u, keyStats self !! i = Some stats /\
                  rateLimitUntil stats = Some u /\ (deadline <= u)%Z.
(** Successive [getNextKey()] calls, one at each of [times]; the values
    they return, in call order, and the rotator they leave. *)
Fixpoint acquireAll (times : list Z) (self : t) : option (list (option Key) * t) :=
  match times with
  | [] => Some ([], self)
  | now :: times' =>
      '(key, self1) ← getNextKey now self;
      '(keys, self2) ← acquireAll times' self1;
      Some (key :: keys, self2)
  end.

(** The pool positions visited by [count] round-robin steps from
    [start]. *)
Definition rotation (start poolSize count : nat) : list nat :=
  map (fun k => (start + k) `mod` poolSize) (seq 0 count).

End RotatorTrace.

(* ===================================================================== *)
(** ** Shared helper: [chunkArray]                                        *)
(* ===================================================================== *)

(** [chunkArray(array, size)] is defined, with the same body, by
    [ParallelGeminiEmbedder] and by [ParallelDocumentProcessor]. *)
Module Util.
Section ChunkArray.
Context {A : Type}.

(** [array.slice(start, end)] for [0 <= start <= end]. *)
Definition slice (array : list A) (start stop : nat) : list A :=
  take (stop - start) (drop start array).

(** [for (let i = ...; i < array.length; i += size) chunks.push(...)].
    One unit of [fuel] is spent per iteration; [None] means that the
    fuel ran out with the loop condition still true. *)
Fixpoint chunkArray_loop (fuel : nat) (array : list A) (size i : nat)
  : option (list (list A)) :=
  if i <? length array then
    match fuel with
    | O => None
    | S fuel' =>
        chunks ← chunkArray_loop fuel' array size (i + size);
        Some (slice array i (i + size) :: chunks)
    end
  else Some [].

(** With [size >= 1] the loop runs at most [array.length] times; with
    [size = 0] and a non-empty array it never ends, and the result is
    [None]. *)
Definition chunkArray (array : list A) (size : nat) : option (list (list A)) :=
  chunkArray_loop (length array) array size 0.
End ChunkArray.

(** [a || b] on numbers: [undefined] and [0] are falsy. *)
Definition orDefault (o : option nat) (d : nat) : nat :=
  match o with
  | Some (S n) => S n
  | _ => d
  end.

(** [Math.ceil(n / b)] for natural numbers, [b >= 1]. *)
Definition ceilDiv (n b : nat) : nat := (n + b - 1) / b.

(** The sizes of the chunks of an [n]-element array cut with chunk size
    [b]: [n / b] full chunks and, unless [b] divides [n], one shorter
    last chunk. *)
Definition batchSizes (n b : nat) : list nat :=
  replicate (n / b) b ++ (if n `mod` b =? 0 then [] else [n `mod` b]).
End Util.

(* ===================================================================== *)
(** ** Embedding stage: [class ParallelGeminiEmbedder]                    *)
(* ===================================================================== *)

Module ParallelGeminiEmbedder.

(** An embedding, [number[]]. *)
Abbreviation Vector := (list Q) (only parsing).

(** The outcome of an awaited provider call. *)
Inductive response (A : Type) :=
| Resolved (value : A)
| Rejected (message : string).
Arguments Resolved {A} _.
Arguments Rejected {A} _.

(** The Gemini client as seen by the embedder.  The calls are told apart
    by the batch index and the attempt number (batch requests) or the
    position inside the batch (single requests), so that a provider may
    answer the same text differently at different calls.

    Not modelled: the key handed to the client ([keyRotator.getNextKey],
    [markSuccess], [markRateLimited], [markFailed], taken not to throw:
    the rotator was built from at least one configured key), the counters
    in [this.stats], the delays and the concurrency limiter; none of them
    enters the returned array.  [RotatingEmbedder] below models the same
    functions with their rotator calls; the two agree when the rotator
    has statistics for every key of its pool. *)
Record Provider := {
  batchEmbedContents : nat -> nat -> list string -> response (list Vector);
  embedContent : nat -> nat -> string -> response Vector;
}.

Definition maxBatchSize : nat := 100.
Definition maxRetries : nat := 3.

(** [embedIndividually(textBatch)]: [null] is pushed for a text whose
    request failed, and the final [filter] drops every [null]. *)
Definition embedIndividually (single : nat -> string -> response Vector)
    (textBatch : list string) : list (option Vector) :=
  let embeddings :=
    imap (fun i text => match single i text with
                        | Resolved values => Some values
                        | Rejected _ => None
                        end) textBatch in
  List.filter (fun e => match e with Some _ => true | None => false end)
              embeddings.

(** [embedBatch(textBatch, batchIndex, attempt)]; [remaining] is
    [this.maxRetries - attempt], so [attempt < this.maxRetries] reads
    [remaining <> 0]. *)
Fixpoint embedBatch_from (remaining : nat) (p : Provider)
    (textBatch : list string) (batchIndex attempt : nat)
  : list (option Vector) :=
  match batchEmbedContents p batchIndex attempt textBatch with
  | Resolved embeddings => Some <$> embeddings
  | Rejected _ =>
      match remaining with
      | S remaining' =>
          embedBatch_from remaining' p textBatch batchIndex (S attempt)
      | O => embedIndividually (embedContent p batchIndex) textBatch
      end
  end.

Definition embedBatch (p : Provider) (textBatch : list string)
    (batchIndex : nat) : list (option Vector) :=
  embedBatch_from (maxRetries - 1) p textBatch batchIndex 1.

(** [embedChunks(textChunks)]: [batchResults.flat()].  [None] stands for
    a [chunkArray] that does not end, which [maxBatchSize = 100] rules
    out. *)
Definition embedChunks (p : Provider) (textChunks : list string)
  : option (list (option Vector)) :=
  if length textChunks =? 0 then Some []
  else
    batches ← Util.chunkArray textChunks maxBatchSize;
    Some (concat (imap (fun index batch => embedBatch p batch index) batches)).

(** *** Providers that embed every text *)

(** The batch request for [texts] as batch [batchIndex] gets through to
    the provider: either one of the [maxRetries] batch attempts resolves
    with the embeddings [f text] in the order of the texts, after
    rejected attempts only, or every batch attempt is rejected and every
    single request of the fallback resolves with [f text]. *)
Definition answersBatch (p : Provider) (f : string -> Vector)
    (batchIndex : nat) (texts : list string) : Prop :=
  (exists attempt, 1 <= attempt <= maxRetries /\
     batchEmbedContents p batchIndex attempt texts = Resolved (map f texts) /\
     forall earlier, 1 <= earlier < attempt ->
       exists message, batchEmbedContents p batchIndex earlier texts = Rejected message)
  \/
  ((forall attempt, 1 <= attempt <= maxRetries ->
      exists message, batchEmbedContents p batchIndex attempt texts = Rejected message) /\
   (forall i text, texts !! i = Some text ->
      embedContent p batchIndex i text = Resolved (f text))).

(** A provider whose batch responses hold one embedding per text. *)
Definition answersInFull (p : Provider) : Prop :=
  forall batchIndex attempt texts embeddings,
    batchEmbedContents p batchIndex attempt texts = Resolved embeddings ->
    length embeddings = length texts.

End ParallelGeminiEmbedder.

(* ===================================================================== *)
(** ** Vector persistence: [ParallelQdrant.addDocumentToNamespace]        *)
(* ===================================================================== *)

Module ParallelQdrant.
Import ParallelGeminiEmbedder.

(** [documentData]: [pageContent], [docId] and the remaining fields. *)
Record DocumentData := {
  pageContent : option string;
  docId : string;
  metadata : list (string * string);
}.

(** One point of the [submission] passed to [client.upsert]:
    [ids[i]], [vectors[i]] and [payloads[i]]. *)
Record VectorRecord := {
  id : string;
  vector : option Vector;
  payload_text : option string;      (* [textChunks[i]] *)
  payload_meta : list (string * string);
}.

(** What the function consults outside itself. *)
Record World := {
  cacheExists : bool;                       (* [cacheResult.exists] *)
  cachedOutcome : bool * option string;     (* [processCachedVectors] *)
  splitText : string -> list string;        (* [textSplitter.splitText] *)
  provider : Provider;
  uuidv4 : nat -> string;                   (* the i-th generated id *)
  collectionCreated : bool;                 (* [getOrCreateCollection] *)
  upsertCompleted : bool;                   (* [status === "completed"] *)
}.

Record Outcome := {
  vectorized : bool;
  error : option string;
  upserted : option (list VectorRecord);    (* the batch given to Qdrant *)
}.

Definition failure (message : string) : Outcome :=
  {| vectorized := false; error := Some message; upserted := None |}.

(** The [for (const [i, vector] of vectorValues.entries())] loop.
    [None]: [vector.length] was read on [null]. *)
Fixpoint prepare (w : World) (meta : list (string * string))
    (textChunks : list string) (vectorValues : list (option Vector))
    (i : nat) (vectorDimension : option nat)
  : option (list VectorRecord * option nat) :=
  match vectorValues with
  | [] => Some ([], vectorDimension)
  | vector :: rest =>
      dim ← match vectorDimension with
            | Some (S d) => Some (Some (S d))
            | _ => (fun v : Vector => Some (length v)) <$> vector
            end;
      let vectorRecord :=
        {| id := uuidv4 w i; vector := vector;
           payload_text := textChunks !! i; payload_meta := meta |} in
      '(records, dim') ← prepare w meta textChunks rest (S i) dim;
      Some (vectorRecord :: records, dim')
  end.

(** [addDocumentToNamespace(namespace, documentData, fullFilePath,
    skipCache)].  Every [throw] ends in the [catch] that returns
    [{ vectorized: false, error: e.message }]; the cached path
    ([processCachedVectors]) is an outcome of the environment.
    [connect], [storeVectorResult] and [DocumentVectors.bulkInsert] are
    taken to succeed here; [ParallelQdrantProvider] below models the
    function with every call it awaits. *)
Definition addDocumentToNamespace (w : World) (documentData : DocumentData)
    (skipCache : bool) : Outcome :=
  match pageContent documentData with
  | None | Some EmptyString => failure "No content"
  | Some content =>
      if negb skipCache && cacheExists w then
        {| vectorized := fst (cachedOutcome w);
           error := snd (cachedOutcome w); upserted := None |}
      else
        let textChunks := splitText w content in
        match embedChunks (provider w) textChunks with
        | None => failure "embedChunks did not return"
        | Some [] => failure "Could not embed document chunks!"
        | Some vectorValues =>
            match prepare w (metadata documentData) textChunks
                          vectorValues 0 None with
            | None => failure "Cannot read properties of null (reading 'length')"
            | Some (submission, _) =>
                if negb (collectionCreated w) then
                  failure "Failed to create Qdrant collection!"
                else if negb (upsertCompleted w) then
                  {| vectorized := false;
                     error := Some "Error embedding into Qdrant";
                     upserted := Some submission |}
                else
                  {| vectorized := true; error := None;
                     upserted := Some submission |}
            end
        end
  end.

End ParallelQdrant.

(* ===================================================================== *)
(** ** Ingestion: [class ParallelDocumentProcessor]                       *)
(* ===================================================================== *)

Module ParallelDocumentProcessor.

(** [options] of the constructor; [None] is an absent field. *)
Record Options := {
  opt_concurrency : option nat;
  opt_batchSize : option nat;
  opt_dbBatchSize : option nat;
  opt_retryAttempts : option nat;
  opt_retryDelay : option nat;
}.

Record t := {
  concurrency : nat;
  batchSize : nat;
  dbBatchSize : nat;
  retryAttempts : nat;
  retryDelay : nat;
}.

(** [constructor(options = {})]: every field is [options.x || default]. *)
Definition constructor (options : Options) : t :=
  {| concurrency := Util.orDefault (opt_concurrency options) 8;
     batchSize := Util.orDefault (opt_batchSize options) 100;
     dbBatchSize := Util.orDefault (opt_dbBatchSize options) 50;
     retryAttempts := Util.orDefault (opt_retryAttempts options) 3;
     retryDelay := Util.orDefault (opt_retryDelay options) 1000 |}.

(** [str.split("/")]. *)
Fixpoint splitSlash (s : string) (cur : string) : list string :=
  match s with
  | EmptyString => [cur]
  | String c s' =>
      if Ascii.eqb c "/" then cur :: splitSlash s' EmptyString
      else splitSlash s' (cur +:+ String c EmptyString)
  end.

(** [path.split("/")[1]]. *)
Definition secondSegment (path : string) : option string :=
  splitSlash path EmptyString !! 1.

(** What one attempt on a document meets. *)
Inductive attempt_outcome :=
| NoData                                        (* [fileData] gave a falsy value *)
| NotVectorized (title : option string) (error : option string)
| Vectorized (docId : string) (metadata : string)
| Threw (message : string).                     (* an exception in the [try] *)

(** The environment of one document: the outcome of its [attempt]-th
    attempt (1-based). *)
Definition DocumentWorld := nat -> attempt_outcome.

(** The object returned by [processSingleDocument]. *)
Record DocResult := {
  success : bool;
  filename : option string;
  error : option string;
  result_docId : option string;
  docpath : option string;
  result_metadata : option string;
}.

Definition failed (filename error : option string) : DocResult :=
  {| success := false; filename := filename; error := error;
     result_docId := None; docpath := None; result_metadata := None |}.

(** [processSingleDocument(workspace, path, VectorDb, attempt)];
    [remaining] is [this.retryAttempts - attempt], so the test
    [attempt < this.retryAttempts] reads [remaining <> 0]. *)
Fixpoint processSingleDocument_from (remaining : nat) (w : DocumentWorld)
    (path : string) (attempt : nat) : DocResult :=
  match w attempt with
  | NoData => failed (Some path) (Some "Failed to load document data")
  | NotVectorized title error =>
      match remaining with
      | S remaining' => processSingleDocument_from remaining' w path (S attempt)
      | O => failed (JS.orString title (secondSegment path))
                    (JS.orString error (Some "Vectorization failed"))
      end
  | Vectorized docId metadata =>
      {| success := true; filename := secondSegment path; error := None;
         result_docId := Some docId; docpath := Some path;
         result_metadata := Some metadata |}
  | Threw message =>
      match remaining with
      | S remaining' => processSingleDocument_from remaining' w path (S attempt)
      | O => failed (Some path) (Some message)
      end
  end.

Definition processSingleDocument (self : t) (w : DocumentWorld)
    (path : string) : DocResult :=
  processSingleDocument_from (retryAttempts self - 1) w path 1.

(** [results] and the two counters of [this.stats] it is mirrored by. *)
Record Results := {
  embedded : list string;
  failedToEmbed : list (option string);
  errors : gset string;
  processed : nat;
  stats_failed : nat;
}.

Definition emptyResults : Results :=
  {| embedded := []; failedToEmbed := []; errors := ∅;
     processed := 0; stats_failed := 0 |}.

(** The body of [batchResults.forEach((result, index) => ...)], with
    [path = batch[index]]. *)
Definition record (results : Results) (path : string) (result : DocResult)
  : Results :=
  if success result then
    {| embedded := embedded results ++ [path];
       failedToEmbed := failedToEmbed results;
       errors := errors results;
       processed := S (processed results);
       stats_failed := stats_failed results |}
  else
    {| embedded := embedded results;
       failedToEmbed := failedToEmbed results ++ [filename result];
       errors := match error result with
                 | Some e => {[ e ]} ∪ errors results
                 | None => errors results
                 end;
       processed := processed results;
       stats_failed := S (stats_failed results) |}.

(** One round of the [for (batchIndex ...)] loop.  [world batchIndex
    index] is the environment of the document at [batch[index]].
    [processSingleDocument] returns an object on every path and
    [bulkInsertDocuments] catches its own errors and leaves [results]
    alone, so the [catch (batchError)] branch is not entered and the
    database writes are not modelled. *)
Definition processBatch (self : t) (world : nat -> nat -> DocumentWorld)
    (batchIndex : nat) (batch : list string) (results : Results) : Results :=
  let batchResults :=
    imap (fun index path =>
            (path, processSingleDocument self (world batchIndex index) path))
         batch in
  foldl (fun acc pr => record acc (fst pr) (snd pr)) results batchResults.

Fixpoint processBatches (self : t) (world : nat -> nat -> DocumentWorld)
    (batchIndex : nat) (batches : list (list string)) (results : Results)
  : Results :=
  match batches with
  | [] => results
  | batch :: batches' =>
      processBatches self world (S batchIndex) batches'
                     (processBatch self world batchIndex batch results)
  end.

(** [processDocuments(workspace, documentPaths, userId)]. *)
Definition processDocuments (self : t) (world : nat -> nat -> DocumentWorld)
    (documentPaths : list string) : option Results :=
  batches ← Util.chunkArray documentPaths (batchSize self);
  Some (processBatches self world 0 batches emptyResults).

(** *** Outcomes, document by document *)

(** A path with the result of processing it. *)
Definition succeeded (pr : string * DocResult) : bool := success (snd pr).
Definition notSucceeded (pr : string * DocResult) : bool := negb (success (snd pr)).
Definition reportedName (pr : string * DocResult) : option string := filename (snd pr).

(** The results of one batch, paired with their paths ([batchResults]). *)
Definition batchOutcomes (self : t) (world : nat -> nat -> DocumentWorld)
    (batchIndex : nat) (batch : list string) : list (string * DocResult) :=
  imap (fun index path =>
          (path, processSingleDocument self (world batchIndex index) path)) batch.

(** The results of all batches from [batchIndex] on, in document order. *)
Fixpoint allOutcomes (self : t) (world : nat -> nat -> DocumentWorld)
    (batchIndex : nat) (batches : list (list string))
  : list (string * DocResult) :=
  match batches with
  | [] => []
  | batch :: batches' =>
      batchOutcomes self world batchIndex batch
      ++ allOutcomes self world (S batchIndex) batches'
  end.

(** *** Attempts *)

(** An attempt after which [processSingleDocument] tries again, as long
    as attempts are left: the vector store said no, or something threw. *)
Definition retryable (o : attempt_outcome) : bool :=
  match o with
  | NotVectorized _ _ | Threw _ => true
  | NoData | Vectorized _ _ => false
  end.

Definition vectorizedOutcome (o : attempt_outcome) : bool :=
  match o with
  | Vectorized _ _ => true
  | _ => false
  end.

(** *** Documents by position *)

(** What the run holds for the document at position [p] of
    [documentPaths]: it is element [p mod batchSize] of batch
    [p / batchSize]. *)
Definition outcomeAt (self : t) (world : nat -> nat -> DocumentWorld)
    (p : nat) (path : string) : string * DocResult :=
  (path, processSingleDocument self
           (world (p / batchSize self) (p `mod` batchSize self)) path).

(** *** Database writes: [bulkInsertDocuments] *)

(** A call to [prisma.workspace_documents]. *)
Inductive dbCall :=
| CreateMany (data : list DocResult)
| Create (data : DocResult).

(** [for (const chunk of chunks) await createMany(...)], inside the
    [try]: the calls made and whether the last one threw.
    [createManyThrows i] tells whether the [i]-th call throws. *)
Fixpoint insertChunks (createManyThrows : nat -> bool) (i : nat)
    (chunks : list (list DocResult)) : list dbCall * bool :=
  match chunks with
  | [] => ([], false)
  | chunk :: chunks' =>
      if createManyThrows i then ([CreateMany chunk], true)
      else
        let '(calls, threw) := insertChunks createManyThrows (S i) chunks' in
        (CreateMany chunk :: calls, threw)
  end.

(** [bulkInsertDocuments(documents)] as the sequence of database calls
    it makes.  An exception of a single [create] is caught inside the
    fallback loop and does not change the sequence. *)
Definition bulkInsertDocuments (self : t) (createManyThrows : nat -> bool)
    (documents : list DocResult) : option (list dbCall) :=
  chunks ← Util.chunkArray documents (dbBatchSize self);
  let '(calls, threw) := insertChunks createManyThrows 0 chunks in
  Some (if threw then calls ++ map Create documents else calls).

End ParallelDocumentProcessor.

(* ===================================================================== *)
(** ** Keyword index: [class BM25]                                        *)
(* ===================================================================== *)

Module BM25.

(** *** Tokenisation *)

(** The longest prefix of [s] made of characters in class [p], and the
    rest: what a greedy [p+] or [p*] takes. *)
Fixpoint span (p : ascii -> bool) (s : list ascii) : list ascii * list ascii :=
  match s with
  | c :: s' =>
      if p c then let '(taken, rest) := span p s' in (c :: taken, rest)
      else ([], s)
  | [] => ([], [])
  end.

Definition isEmpty {A} (l : list A) : bool :=
  match l with [] => true | _ => false end.

(** A match of [/(\d+)\s+([A-Z][a-z]+\.?)\s+(\d+)/] at the head of [s]:
    the text [$1_$2_$3] and the number of characters matched.  In this
    pattern each class is followed by a character outside it, so the
    greedy choice is the only one that can succeed. *)
Definition matchCitation (s : list ascii) : option (list ascii * nat) :=
  let '(d1, r1) := span JS.isDigit s in
  if isEmpty d1 then None else
  let '(w1, r2) := span JS.isSpace r1 in
  if isEmpty w1 then None else
  match r2 with
  | c :: r3 =>
      if JS.isUpper c then
        let '(lo, r4) := span JS.isLower r3 in
        if isEmpty lo then None else
        let '(dot, r5) := match r4 with
                          | "."%char :: r => (["."%char], r)
                          | _ => ([], r4)
                          end in
        let '(w2, r6) := span JS.isSpace r5 in
        if isEmpty w2 then None else
        let '(d2, r7) := span JS.isDigit r6 in
        if isEmpty d2 then None else
        Some (d1 ++ "_"%char :: (c :: lo ++ dot) ++ "_"%char :: d2,
              length s - length r7)
      else None
  | [] => None
  end.

(** [s] starts with [lit], letters compared without case ([i] flag). *)
Fixpoint stripPrefixCI (lit s : list ascii) : option (list ascii) :=
  match lit, s with
  | [], _ => Some s
  | l :: lit', c :: s' =>
      if Ascii.eqb (JS.lowerChar c) l then stripPrefixCI lit' s' else None
  | _ :: _, [] => None
  end.

(** [[a-z]] and [[a-z0-9]] under the [i] flag. *)
Definition isLetter (c : ascii) : bool := JS.isLower c || JS.isUpper c.
Definition isAlnum (c : ascii) : bool := isLetter c || JS.isDigit c.

(** A match of [/section\s+(\d+[a-z]?)\s*\(([a-z0-9]+)\)/gi] at the head
    of [s]: the text [section_$1_$2] and the number of characters
    matched. *)
Definition matchSection (s : list ascii) : option (list ascii * nat) :=
  match stripPrefixCI (list_ascii_of_string "section") s with
  | None => None
  | Some r0 =>
      let '(w1, r1) := span JS.isSpace r0 in
      if isEmpty w1 then None else
      let '(d, r2) := span JS.isDigit r1 in
      if isEmpty d then None else
      let '(letter, r3) := match r2 with
                           | c :: r => if isLetter c then ([c], r) else ([], r2)
                           | [] => ([], r2)
                           end in
      let '(_, r4) := span JS.isSpace r3 in
      match r4 with
      | "("%char :: r5 =>
          let '(inner, r6) := span isAlnum r5 in
          if isEmpty inner then None else
          match r6 with
          | ")"%char :: r7 =>
              Some (list_ascii_of_string "section_" ++ (d ++ letter)
                      ++ "_"%char :: inner,
                    length s - length r7)
          | _ => None
          end
      | _ => None
      end
  end.

(** [s.replace(/re/g, ...)] for a pattern that never matches the empty
    string: scan from the left; a match is replaced and the scan resumes
    after it ([skip] counts the matched characters still to pass). *)
Fixpoint replaceAll (m : list ascii -> option (list ascii * nat))
    (s : list ascii) (skip : nat) : list ascii :=
  match s with
  | [] => []
  | c :: s' =>
      match skip with
      | S k => replaceAll m s' k
      | O =>
          match m s with
          | Some (replacement, n) => replacement ++ replaceAll m s' (n - 1)
          | None => c :: replaceAll m s' 0
          end
      end
  end.

(** [.replace(/[^\w\s_]/g, ' ')] *)
Definition blankSpecial (c : ascii) : ascii :=
  if JS.isWord c || JS.isSpace c || Ascii.eqb c "_" then c else " "%char.

(** [s.split(/\s+/)]; [cur] is the piece being read, [inGap] tells that
    the previous character was white space. *)
Fixpoint splitSpaces (s : list ascii) (cur : list ascii) (inGap : bool)
  : list (list ascii) :=
  match s with
  | [] => [cur]
  | c :: s' =>
      if JS.isSpace c then
        if inGap then splitSpaces s' [] true
        else cur :: splitSpaces s' [] true
      else splitSpaces s' (cur ++ [c]) false
  end.

(** [isLegalAbbreviation(term)] *)
Definition isLegalAbbreviation (term : string) : bool :=
  existsb (String.eqb (JS.toLowerCase term))
    ["v"; "vs"; "sc"; "hc"; "us"; "uk"; "eu"; "ca"; "ny"; "dc";
     "j"; "cj"; "jj"; "llp"; "llc"; "inc"; "ltd"; "plc"]%string.

(** [isStopWord(term)] *)
Definition isStopWord (term : string) : bool :=
  existsb (String.eqb (JS.toLowerCase term))
    ["the"; "a"; "an"; "and"; "or"; "but"; "in"; "on"; "at"; "to"; "for";
     "of"; "with"; "by"; "from"; "as"; "is"; "was"; "are"; "were"; "been";
     "be"; "have"; "has"; "had"; "do"; "does"; "did"; "will"; "would";
     "should"; "could"; "may"; "might"; "must"; "can"; "this"; "that";
     "these"; "those"; "i"; "you"; "he"; "she"; "it"; "we"; "they"]%string.

(** The callback of [.filter(term => ...)]. *)
Definition keepTerm (term : string) : bool :=
  if (String.length term <=? 2) && negb (isLegalAbbreviation term) then false
  else negb (isStopWord term).

(** The text after the two reference-preserving replacements. *)
Definition preserveReferences (text : string) : list ascii :=
  let lowered := list_ascii_of_string (JS.toLowerCase text) in
  let cited := replaceAll matchCitation lowered 0 in
  replaceAll matchSection cited 0.

(** [tokenize(text)] *)
Definition tokenize (text : string) : list string :=
  match text with
  | EmptyString => []
  | _ =>
      let cleaned := map blankSpecial (preserveReferences text) in
      List.filter keepTerm
        (map string_of_list_ascii (splitSpaces cleaned [] false))
  end.

(** *** The index *)

(** A document handed to the index (and returned by a search). *)
Record Document := {
  id : JS.value;
  docId : JS.value;
  text : option string;
  pageContent : option string;
  content : option string;
  title : option string;
  bm25Score : option Q;
  source : option string;
}.

(** [getDocumentText(doc)] *)
Definition getDocumentText (doc : Document) : string :=
  default EmptyString
    (JS.orString (text doc)
       (JS.orString (pageContent doc)
          (JS.orString (content doc)
             (JS.orString (title doc) (Some EmptyString))))).

Record Options := { opt_k1 : option Q; opt_b : option Q }.

Record t := {
  k1 : Q;
  b : Q;
  documents : list Document;
  documentCount : nat;
  avgDocLength : Q;
  documentLengths : list nat;
  idf : gmap string Q;
  termFrequencies : list (gmap string nat);
}.

Definition ofNat (n : nat) : Q := inject_Z (Z.of_nat n).

(** [m.set(key, (m.get(key) || 0) + 1)] *)
Definition increment (key : string) (m : gmap string nat) : gmap string nat :=
  <[key := default 0 (m !! key) + 1]> m.

(** [for (const token of tokens) termFreq.set(...)] *)
Definition countTerms (tokens : list string) : gmap string nat :=
  foldl (fun termFreq token => increment token termFreq) ∅ tokens.

(** [for (const term of termFreq.keys()) termDocumentFrequency.set(...)] *)
Definition countDocument (termFreq : gmap string nat)
    (termDocumentFrequency : gmap string nat) : gmap string nat :=
  map_fold (fun term _ tdf => increment term tdf) termDocumentFrequency termFreq.

(** The first pass of [buildIndex]: document lengths, term frequencies
    and the number of documents holding each term. *)
Fixpoint firstPass (docs : list Document) (tdf : gmap string nat)
  : list nat * list (gmap string nat) * gmap string nat :=
  match docs with
  | [] => ([], [], tdf)
  | doc :: docs' =>
      let tokens := tokenize (getDocumentText doc) in
      let termFreq := countTerms tokens in
      let '(lengths, freqs, tdf') := firstPass docs' (countDocument termFreq tdf) in
      (length tokens :: lengths, termFreq :: freqs, tdf')
  end.

Section WithLog.
(** [Math.log] *)
Variable log : Q -> Q.

(** [Math.log((N - df + 0.5) / (df + 0.5) + 1)] *)
Definition idfOf (documentCount docFreq : nat) : Q :=
  log ((ofNat documentCount - ofNat docFreq + (1 # 2))
       / (ofNat docFreq + (1 # 2)) + 1)%Q.

(** [buildIndex()], run on the freshly initialised fields. *)
Definition buildIndex (k1 b : Q) (docs : list Document) : t :=
  let '(lengths, freqs, tdf) := firstPass docs ∅ in
  let totalLength := foldr Nat.add 0 lengths in
  {| k1 := k1; b := b; documents := docs; documentCount := length docs;
     avgDocLength := (ofNat totalLength / ofNat (length docs))%Q;
     documentLengths := lengths;
     idf := idfOf (length docs) <$> tdf;
     termFrequencies := freqs |}.

(** [constructor(documents = [], options = {})] *)
Definition constructor (docs : list Document) (options : Options) : t :=
  let k1 := JS.orQ (opt_k1 options) (3 # 2)%Q in
  let b := JS.orQ (opt_b options) (3 # 4)%Q in
  if 0 <? length docs then buildIndex k1 b docs
  else {| k1 := k1; b := b; documents := docs; documentCount := 0;
          avgDocLength := 0%Q; documentLengths := []; idf := ∅;
          termFrequencies := [] |}.
End WithLog.

(** The body of the [for (const term of queryTokens)] loop of
    [scoreDocument]. *)
Definition addTerm (self : t) (docLength : nat) (termFreq : gmap string nat)
    (score : Q) (term : string) : Q :=
  let tf := default 0 (termFreq !! term) in
  if tf =? 0 then score
  else
    let idf := default 0%Q (idf self !! term) in
    let numerator := (ofNat tf * (k1 self + 1))%Q in
    let denominator :=
      (ofNat tf
       + k1 self * (1 - b self + b self * (ofNat docLength / avgDocLength self)))%Q in
    (score + idf * (numerator / denominator))%Q.

(** [scoreDocument(docIndex, queryTokens)]; [None] when [docIndex] is
    outside the index. *)
Definition scoreDocument (self : t) (docIndex : nat) (queryTokens : list string)
  : option Q :=
  docLength ← documentLengths self !! docIndex;
  termFreq ← termFrequencies self !! docIndex;
  Some (foldl (addTerm self docLength termFreq) 0%Q queryTokens).

(** An element of the array built by [search]; [hit_bm25Score] is the
    [bm25Score] property, which [search] does not set. *)
Record Hit := {
  index : nat;
  score : Q;
  document : Document;
  hit_bm25Score : option Q;
}.

(** [scores.sort((a, b) => b.score - a.score)]: a stable sort by
    descending score; [x] goes before [y] when [y.score - x.score <= 0]. *)
Fixpoint insertHit (x : Hit) (sorted : list Hit) : list Hit :=
  match sorted with
  | [] => [x]
  | y :: rest =>
      if Qle_bool (score y - score x) 0 then x :: sorted
      else y :: insertHit x rest
  end.

Definition sortHits (hits : list Hit) : list Hit := foldr insertHit [] hits.

(** The [for] loop of [search]. *)
Definition scoreAll (self : t) (queryTokens : list string) : option (list Hit) :=
  mapM (fun i =>
          s ← scoreDocument self i queryTokens;
          d ← documents self !! i;
          Some {| index := i; score := s; document := d; hit_bm25Score := None |})
       (seq 0 (documentCount self)).

(** [search(query, topK)] *)
Definition search (self : t) (query : string) (topK : nat) : option (list Hit) :=
  hits ← scoreAll self (tokenize query);
  Some (take topK (sortHits hits)).

(** Objects carrying an optional [bm25Score] property. *)
Class Scored (A : Type) := {
  getScore : A -> option Q;
  setScore : Q -> A -> A;
}.

#[global] Instance hitScored : Scored Hit :=
  {| getScore := hit_bm25Score;
     setScore := fun q r => {| index := index r; score := score r;
                               document := document r; hit_bm25Score := Some q |} |}.

#[global] Instance documentScored : Scored Document :=
  {| getScore := bm25Score;
     setScore := fun q d => {| id := id d; docId := docId d; text := text d;
                               pageContent := pageContent d; content := content d;
                               title := title d; bm25Score := Some q;
                               source := source d |} |}.

Definition Qmax (x y : Q) : Q := if Qle_bool x y then y else x.

(** [Math.max(...xs)] on a non-empty array. *)
Definition maxOf (x : Q) (xs : list Q) : Q := foldl Qmax x xs.

(** [normalizeScores(results)] *)
Definition normalizeScores {A} `{Scored A} (results : list A) : list A :=
  match map (fun r => JS.orQ (getScore r) 0%Q) results with
  | [] => results
  | x :: xs =>
      let maxScore := maxOf x xs in
      if Qeq_bool maxScore 0 then results
      else map (fun r => setScore (JS.orQ (getScore r) 0 / maxScore)%Q r) results
  end.

(** *** Varying one term count *)

(** The index [self] with the count of [term] in document [docIndex] set
    to [k] ([k = 0]: the term is absent); the document's length, its
    other counts and every other field stay as they are. *)
Definition withTermCount (self : t) (docIndex : nat) (term : string) (k : nat) : t :=
  {| k1 := k1 self; b := b self; documents := documents self;
     documentCount := documentCount self; avgDocLength := avgDocLength self;
     documentLengths := documentLengths self; idf := idf self;
     termFrequencies :=
       alter (fun termFreq => if k =? 0 then delete term termFreq
                              else <[term := k]> termFreq)
             docIndex (termFrequencies self) |}.

(** *** Counting tokens *)

(** The tokens the index reads from a document. *)
Definition docTokens (doc : Document) : list string :=
  tokenize (getDocumentText doc).

(** How often [term] occurs among [tokens]. *)
Definition occurrences (term : string) (tokens : list string) : nat :=
  length (List.filter (String.eqb term) tokens).

(** Whether [term] is a token of [doc]. *)
Definition holds (term : string) (doc : Document) : bool :=
  existsb (String.eqb term) (docTokens doc).

(** In how many of [docs] the term occurs. *)
Definition docFrequency (term : string) (docs : list Document) : nat :=
  length (List.filter (holds term) docs).

(** *** Scoring a document that is not in the index *)

Section OnTheFly.
Variable log : Q -> Q.

(** The body of the scoring loop of [scoreDocumentOnTheFly]: a term
    without an [idf] entry gets [Math.log(this.documentCount + 1)]. *)
Definition addTermOnTheFly (self : t) (docLength : nat)
    (termFreq : gmap string nat) (score : Q) (term : string) : Q :=
  let tf := default 0 (termFreq !! term) in
  if tf =? 0 then score
  else
    let idf := match idf self !! term with
               | Some v => v
               | None => log (ofNat (documentCount self) + 1)%Q
               end in
    let numerator := (ofNat tf * (k1 self + 1))%Q in
    let denominator :=
      (ofNat tf
       + k1 self * (1 - b self + b self * (ofNat docLength / avgDocLength self)))%Q in
    (score + idf * (numerator / denominator))%Q.

(** [scoreDocumentOnTheFly(doc, queryTokens)] *)
Definition scoreDocumentOnTheFly (self : t) (doc : Document)
    (queryTokens : list string) : Q :=
  let tokens := tokenize (getDocumentText doc) in
  foldl (addTermOnTheFly self (length tokens) (countTerms tokens)) 0%Q queryTokens.

(** *** Adding documents *)

(** [array[i] = values[i]] for every [i] below [values.length], on an
    existing array. *)
Definition overwrite {A} (array values : list A) : list A :=
  values ++ drop (length values) array.

(** [buildIndex()], run on an index that has been built before: the
    arrays are written position by position and the [idf] map keeps the
    entries that are not set again. *)
Definition rebuildIndex (self : t) : t :=
  let '(lengths, freqs, tdf) := firstPass (documents self) ∅ in
  let totalLength := foldr Nat.add 0 lengths in
  {| k1 := k1 self; b := b self; documents := documents self;
     documentCount := documentCount self;
     avgDocLength := (ofNat totalLength / ofNat (documentCount self))%Q;
     documentLengths := overwrite (documentLengths self) lengths;
     idf := (idfOf log (documentCount self) <$> tdf) ∪ idf self;
     termFrequencies := overwrite (termFrequencies self) freqs |}.

(** [addDocuments(newDocuments)] *)
Definition addDocuments (self : t) (newDocuments : list Document) : t :=
  match newDocuments with
  | [] => self
  | _ =>
      rebuildIndex
        {| k1 := k1 self; b := b self;
           documents := documents self ++ newDocuments;
           documentCount := length (documents self ++ newDocuments);
           avgDocLength := avgDocLength self;
           documentLengths := documentLengths self;
           idf := idf self;
           termFrequencies := termFrequencies self |}
  end.
End OnTheFly.

(** *** Ranking *)

(** Scores that do not go up along the list. *)
Definition descending (hits : list Hit) : Prop :=
  forall i j hi hj, i < j -> hits !! i = Some hi -> hits !! j = Some hj ->
    (score hj <= score hi)%Q.

End BM25.

(* ===================================================================== *)
(** ** Fusion: [class HybridSearchManager]                                *)
(* ===================================================================== *)

Module HybridSearchManager.

(** A search result as [deduplicateResults] reads it. *)
Record Candidate := {
  docId : JS.value;
  id : JS.value;
  text : option string;
  title : option string;
  combinedScore : option Q;
}.

(** [ToInt32]: the signed 32-bit integer congruent to [z]. *)
Definition toInt32 (z : Z) : Z := ((z + 2 ^ 31) mod 2 ^ 32 - 2 ^ 31)%Z.

(** One round of the hashing loop:
    [hash = ((hash << 5) - hash) + char; hash = hash & hash]. *)
Definition hashStep (hash : Z) (c : ascii) : Z :=
  let char := Z.of_nat (nat_of_ascii c) in
  let hash' := (toInt32 (Z.shiftl (toInt32 hash) 5) - hash + char)%Z in
  Z.land (toInt32 hash') (toInt32 hash').

Definition digit36 (d : Z) : ascii :=
  if (d <? 10)%Z then ascii_of_nat (48 + Z.to_nat d)
  else ascii_of_nat (97 + (Z.to_nat d - 10)).

(** The base-36 digits of [n >= 0]; seven rounds cover every 32-bit
    magnitude ([2^31 < 36^7]). *)
Fixpoint digits36 (rounds : nat) (n : Z) : string :=
  match rounds with
  | O => EmptyString
  | S rounds' =>
      let last := String (digit36 (n mod 36)%Z) EmptyString in
      if (n <? 36)%Z then last
      else digits36 rounds' (n / 36)%Z +:+ last
  end.

(** [n.toString(36)] for a 32-bit integer. *)
Definition toString36 (n : Z) : string :=
  if (n <? 0)%Z then "-" +:+ digits36 7 (- n)%Z else digits36 7 n.

(** [hashText(text)] *)
Definition hashText (text : string) : string :=
  match text with
  | EmptyString => "0"
  | _ =>
      let normalized := JS.trim (JS.toLowerCase (JS.substring0 200 text)) in
      toString36 (foldl hashStep 0%Z (list_ascii_of_string normalized))
  end.

(** The deduplication key of a result: [`${docId}_${textHash}`]. *)
Definition dedupKey (result : Candidate) : string :=
  let docId := JS.or (docId result) (id result) in
  let textHash := hashText (default EmptyString (JS.orString (text result) (Some EmptyString))) in
  JS.toString docId +:+ "_" +:+ textHash.

(** The [for (const result of results)] loop of [deduplicateResults];
    the returned list is [deduped] from this point on. *)
Fixpoint deduplicate_loop (results : list Candidate) (seen : gmap string bool)
  : list Candidate :=
  match results with
  | [] => []
  | result :: results' =>
      let key := dedupKey result in
      match seen !! key with
      | None => result :: deduplicate_loop results' (<[key := true]> seen)
      | Some _ => deduplicate_loop results' seen
      end
  end.

(** [deduplicateResults(results)] *)
Definition deduplicateResults (results : list Candidate) : list Candidate :=
  deduplicate_loop results ∅.

(** [{ ...r.document, bm25Score: r.score, source: 'bm25' }] *)
Definition tagHit (r : BM25.Hit) : BM25.Document :=
  let d := BM25.document r in
  {| BM25.id := BM25.id d; BM25.docId := BM25.docId d; BM25.text := BM25.text d;
     BM25.pageContent := BM25.pageContent d; BM25.content := BM25.content d;
     BM25.title := BM25.title d;
     BM25.bm25Score := Some (BM25.score r);
     BM25.source := Some "bm25" |}.

(** [performBM25Search({ query, workspace, vectorDbInstance, topN })];
    [allDocs] is what [getAllWorkspaceDocuments] returned.  An exception
    inside the [try] gives [[]]. *)
Definition performBM25Search (log : Q -> Q) (allDocs : list BM25.Document)
    (query : string) (topN : nat) : list BM25.Document :=
  if length allDocs =? 0 then []
  else
    let bm25 := BM25.constructor log allDocs
                  {| BM25.opt_k1 := Some (3 # 2)%Q; BM25.opt_b := Some (3 # 4)%Q |} in
    match BM25.search bm25 query topN with
    | None => []
    | Some results => map tagHit (BM25.normalizeScores results)
    end.

End HybridSearchManager.

(** Concrete rotator runs used below. *)
Module RotatorScenarios.
Import ApiKeyRotator RotatorTrace.

(** Three configured keys. *)
Definition pool3 : t := constructor ["A"; "B"; "C"] "env".

(** Key A is marked at time 1000 for 60 s; then come a selection, a
    failure report on B and a second mark of A at time 1500. *)
Definition marked : t :=
  default pool3 (markRateLimited 1000 "A" 60000 pool3).
Definition later_calls : list call :=
  [GetNextKey 1001; MarkFailed "B"; MarkRateLimited 1500 "A" 60000].
Definition later : t := default marked (run later_calls marked).

(** Each key is used once (times 1, 2, 3); A is then marked, B serves a
    second request at time 4, and finally C and B are marked as well. *)
Definition exhausting_calls : list call :=
  [GetNextKey 1; GetNextKey 2; GetNextKey 3;
   MarkRateLimited 3 "A" 60000; GetNextKey 4;
   MarkRateLimited 4 "C" 60000; MarkRateLimited 5 "B" 60000].
Definition exhausted : t := default pool3 (run exhausting_calls pool3).

(** A single key that is both cooling down and disabled. *)
Definition lonely : t :=
  {| apiKeys := ["K"]; currentIndex := 0;
     keyStats := {[ 0 := {| requests := 7; failures := 5;
                             lastUsed := Some 10%Z;
                             rateLimitUntil := Some 100000%Z |} ]};
     failedKeys := {[ 0 ]} |}.
End RotatorScenarios.

(** A document of two chunks whose batch request is refused three times
    and whose first chunk cannot be embedded on its own. *)
Module EmbeddingScenarios.
Import ParallelGeminiEmbedder ParallelQdrant.

Definition chunk1 : string := "clause one".
Definition chunk2 : string := "clause two".
Definition vector2 : list Q := [1 # 2; 1 # 4].

Definition flaky : Provider :=
  {| batchEmbedContents := fun _ _ _ => Rejected "503 Service Unavailable";
     embedContent := fun _ _ text =>
       if String.eqb text chunk2 then Resolved vector2
       else Rejected "400 Invalid content" |}.

Definition world : World :=
  {| cacheExists := false;
     cachedOutcome := (false, None);
     splitText := fun _ => [chunk1; chunk2];
     provider := flaky;
     uuidv4 := fun i => "id-" +:+ pretty i;
     collectionCreated := true;
     upsertCompleted := true |}.

Definition document : DocumentData :=
  {| pageContent := Some "clause one clause two";
     docId := "doc-1";
     metadata := [("title", "Lease")] |}.
End EmbeddingScenarios.

(** A four-document corpus in which one document holds the query term. *)
Module SearchScenarios.
Import BM25.

Definition plain (text : string) : Document :=
  {| id := JS.Undefined; docId := JS.Undefined; text := Some text;
     pageContent := None; content := None; title := None;
     bm25Score := None; source := None |}.

Definition corpus : list Document :=
  [plain "bail"; plain "appeal"; plain "appeal"; plain "appeal"].

(** [2 (x - 1) / (x + 1)], a rational function that stays below the
    natural logarithm for [x >= 1]; it stands for [Math.log] where an
    example has to be run. *)
Definition logLowerBound (x : Q) : Q := (2 * (x - 1) / (x + 1))%Q.

(** The score [scoreDocument] gives the first document for the query
    token [bail]: one occurrence, document length 1, average length
    4 / 4, [k1 = 1.5], [b = 0.75], four documents of which one holds
    the term. *)
Definition bailScore (log : Q -> Q) : Q :=
  (0 + idfOf log 4 1
       * (ofNat 1 * ((3 # 2) + 1)
          / (ofNat 1
             + (3 # 2) * (1 - (3 # 4) + (3 # 4) * (ofNat 1 / (ofNat 4 / ofNat 4))))))%Q.

End SearchScenarios.

(* ===================================================================== *)
(** ** The embedder and its key rotator                                   *)
(* ===================================================================== *)

(** [embedBatch], [embedIndividually] and [embedChunks] of
    [class ParallelGeminiEmbedder] once more, this time with their calls
    on [this.keyRotator].  A rotator call throws when it reads the
    statistics of a pool index that has none, and where it throws decides
    between a retry, a [null] and a rejected promise.

    The rotator is one object shared by all batches in flight, and by
    whoever else embeds at the same time; the batches of one
    [embedChunks] call run interleaved at their [await]s.  What state a
    rotator call meets is therefore given from outside, call by call:
    [rotator shared site] is the rotator as the call at [site] finds it
    and [clock shared site] is [Date.now()] there.  The new state of a
    call is used where the code goes on without an [await] and dropped
    otherwise.  The requests to the provider are taken to settle, as
    resolved or as rejected with an [Error]. *)
Module RotatingEmbedder.
Import ParallelGeminiEmbedder.

(** The places where the embedder calls its rotator. *)
Inductive site :=
| BatchStart (batchIndex attempt : nat)     (* [getNextKey] of [embedBatch] *)
| BatchEnd (batchIndex attempt : nat)       (* the marks after the batch request *)
| SingleStart (batchIndex position : nat)   (* [getNextKey] of [embedIndividually] *)
| SingleEnd (batchIndex position : nat)     (* [markSuccess] of [embedIndividually] *)
| PrintStats.                               (* [getAvailableKeyCount] of [printStats] *)

Record Shared := {
  rotator : site -> ApiKeyRotator.t;
  clock : site -> Z;
  (** [Promise.all] rejects with the reason of the batch that is rejected
      first; [race] picks it among the reasons, listed by batch index. *)
  race : list string -> string;
}.

(** Every state the calls meet has the invariant of a rotator built from
    at least one configured key. *)
Definition wellFormed (shared : Shared) : Prop :=
  forall s, ApiKeyRotator.wf (rotator shared s).

(** A mark on the key [getNextKey] returned; [None] is [undefined], which
    [indexOf] does not find in a pool of strings. *)
Definition mark (f : string -> ApiKeyRotator.t -> option ApiKeyRotator.t)
    (apiKey : option string) (self : ApiKeyRotator.t) : option ApiKeyRotator.t :=
  match apiKey with
  | Some key => f key self
  | None => Some self
  end.

(** [error.message && (error.message.includes('429') || ...)] *)
Definition isRateLimitError (message : string) : bool :=
  negb (String.length message =? 0)
  && (JS.includes message "429" || JS.includes message "quota"
      || JS.includes message "rate limit").

(** [embedIndividually(textBatch)].  Each text is handled inside a
    [try]: when [getNextKey] or the request throws, [null] is pushed;
    when [markSuccess] throws, the embedding has been pushed already and
    [null] is pushed after it.  The final [filter] drops every [null]. *)
Definition embedIndividually (shared : Shared) (p : Provider) (batchIndex : nat)
    (textBatch : list string) : list (option Vector) :=
  let embeddings :=
    concat
      (imap (fun i text =>
               match ApiKeyRotator.getNextKey (clock shared (SingleStart batchIndex i))
                                              (rotator shared (SingleStart batchIndex i)) with
               | None => [None]
               | Some (apiKey, _) =>
                   match embedContent p batchIndex i text with
                   | Rejected _ => [None]
                   | Resolved values =>
                       match mark ApiKeyRotator.markSuccess apiKey
                                  (rotator shared (SingleEnd batchIndex i)) with
                       | Some _ => [Some values]
                       | None => [Some values; None]
                       end
                   end
               end) textBatch) in
  List.filter (fun e => match e with Some _ => true | None => false end)
              embeddings.

(** The [catch] block of [embedBatch], up to the retry: the key is marked
    rate limited (and the available keys are counted for the warning) or
    failed; an exception of the rotator leaves the block and rejects the
    promise of [embedBatch].  [next] is what the code goes on with. *)
Definition catchBatch (shared : Shared) (batchIndex attempt : nat)
    (apiKey : option string) (message : string)
    (next : response (list (option Vector))) : response (list (option Vector)) :=
  let self := rotator shared (BatchEnd batchIndex attempt) in
  let now := clock shared (BatchEnd batchIndex attempt) in
  if isRateLimitError message then
    match mark (fun key => ApiKeyRotator.markRateLimited now key 60000) apiKey self with
    | None => Rejected "Cannot set properties of undefined (setting 'rateLimitUntil')"
    | Some self' =>
        match ApiKeyRotator.getAvailableKeyCount now self' with
        | None => Rejected "Cannot read properties of undefined (reading 'rateLimitUntil')"
        | Some _ => next
        end
    end
  else
    match mark ApiKeyRotator.markFailed apiKey self with
    | None => Rejected "Cannot read properties of undefined (reading 'failures')"
    | Some _ => next
    end.

(** [embedBatch(textBatch, batchIndex, attempt)]; [remaining] is
    [this.maxRetries - attempt].  [getNextKey] is called before the
    [try]; [markSuccess] is called inside it, so that an exception of
    [markSuccess] is handled like a failed request. *)
Fixpoint embedBatch_from (remaining : nat) (shared : Shared) (p : Provider)
    (textBatch : list string) (batchIndex attempt : nat)
  : response (list (option Vector)) :=
  match ApiKeyRotator.getNextKey (clock shared (BatchStart batchIndex attempt))
                                 (rotator shared (BatchStart batchIndex attempt)) with
  | None => Rejected "Cannot read properties of undefined (reading 'rateLimitUntil')"
  | Some (apiKey, _) =>
      let next :=
        match remaining with
        | S remaining' =>
            embedBatch_from remaining' shared p textBatch batchIndex (S attempt)
        | O => Resolved (embedIndividually shared p batchIndex textBatch)
        end in
      match batchEmbedContents p batchIndex attempt textBatch with
      | Resolved embeddings =>
          match mark ApiKeyRotator.markSuccess apiKey
                     (rotator shared (BatchEnd batchIndex attempt)) with
          | Some _ => Resolved (Some <$> embeddings)
          | None =>
              catchBatch shared batchIndex attempt apiKey
                "Cannot set properties of undefined (setting 'failures')" next
          end
      | Rejected message => catchBatch shared batchIndex attempt apiKey message next
      end
  end.

Definition embedBatch (shared : Shared) (p : Provider) (textBatch : list string)
    (batchIndex : nat) : response (list (option Vector)) :=
  embedBatch_from (maxRetries - 1) shared p textBatch batchIndex 1.

(** The reasons of the rejected promises among [results]. *)
Definition rejections {A} (results : list (response A)) : list string :=
  omap (fun r => match r with Rejected message => Some message | Resolved _ => None end)
       results.

(** The values of the resolved promises among [results]. *)
Definition resolutions {A} (results : list (response A)) : list A :=
  omap (fun r => match r with Resolved value => Some value | Rejected _ => None end)
       results.

(** [(await Promise.all(promises)).flat()] *)
Definition allFlat {A} (race : list string -> string)
    (results : list (response (list A))) : response (list A) :=
  match rejections results with
  | [] => Resolved (concat (resolutions results))
  | [message] => Rejected message
  | messages => Rejected (race messages)
  end.

(** [embedChunks(textChunks)]; the [catch] logs and throws the error
    again.  [None] stands for a [chunkArray] that does not end. *)
Definition embedChunks (shared : Shared) (p : Provider) (textChunks : list string)
  : option (response (list (option Vector))) :=
  if length textChunks =? 0 then Some (Resolved [])
  else
    batches ← Util.chunkArray textChunks maxBatchSize;
    Some (allFlat (race shared)
            (imap (fun index batch => embedBatch shared p batch index) batches)).

End RotatingEmbedder.

(* ===================================================================== *)
(** ** Vector persistence with every awaited call                        *)
(* ===================================================================== *)

(** [addDocumentToNamespace] and [processCachedVectors] of
    [ParallelQdrantProvider.js] once more, with every call they await:
    the cache lookup, the text splitter, the embedder with its rotator,
    [connect], [getOrCreateCollection], [client.upsert],
    [storeVectorResult] and [DocumentVectors.bulkInsert].  Each of them
    may reject; inside the [try] of [addDocumentToNamespace] a rejection
    gives [{ vectorized: false, error: e.message }], while
    [processCachedVectors], whose promise is returned without [await],
    rejects the promise of [addDocumentToNamespace] itself. *)
Module ParallelQdrantProvider.
Import ParallelGeminiEmbedder.

(** One entry of a cached chunk group: [vector] and [payload]. *)
Record CachedPoint := {
  cached_vector : option Vector;
  cached_payload : option (list (string * string));
}.

(** One point of a cached submission. *)
Record CachedRecord := {
  cr_id : string;
  cr_vector : option Vector;
  cr_payload : list (string * string);
}.

(** What [client.upsert] resolves with: whether
    [additionResult?.status === "completed"], and
    [JSON.stringify(additionResult)]. *)
Record UpsertResult := {
  completed : bool;
  stringified : string;
}.

(** What the two functions consult outside themselves. *)
Record World := {
  cachedVectorInformation : response (option (list (list CachedPoint)));
      (* [Some chunks]: [cacheResult.exists], with [cacheResult.chunks] *)
  splitText : string -> response (list string);
      (* the settings, the [TextSplitter] and [splitText] *)
  shared : RotatingEmbedder.Shared;
  provider : Provider;
  uuidv4 : nat -> string;                   (* the i-th generated id *)
  connect : response unit;
  getOrCreateCollection : response bool;    (* is the collection truthy *)
  upsert : nat -> response UpsertResult;    (* the n-th call of [client.upsert] *)
  storeVectorResult : response unit;
  bulkInsert : response unit;
}.

(** A batch handed to [client.upsert]. *)
Inductive Submission :=
| Fresh (points : list ParallelQdrant.VectorRecord)
| Cached (points : list CachedRecord).

(** The object a call resolves with. *)
Record Result := {
  vectorized : bool;
  error : option string;
}.

(** What a call does and how its promise settles: [None] stands for a
    promise that never settles, [Rejected] for an exception that reaches
    the caller.  [upserts] are the batches handed to [client.upsert], in
    order, and [documentVectors] is the argument of
    [DocumentVectors.bulkInsert] when that call is reached: the pairs
    [{ docId, vectorId }]. *)
Record Outcome := {
  settled : option (response Result);
  upserts : list Submission;
  documentVectors : option (list (string * string));
}.

Definition resolves (result : Result) (upserts : list Submission)
    (documentVectors : option (list (string * string))) : Outcome :=
  {| settled := Some (Resolved result); upserts := upserts;
     documentVectors := documentVectors |}.

Definition rejects (message : string) (upserts : list Submission)
    (documentVectors : option (list (string * string))) : Outcome :=
  {| settled := Some (Rejected message); upserts := upserts;
     documentVectors := documentVectors |}.

(** [payload.hasOwnProperty("id")]. *)
Definition hasIdKey (payload : list (string * string)) : bool :=
  existsb (fun kv => String.eqb (fst kv) "id") payload.

(** [chunk?.payload?.hasOwnProperty("id")] as a condition. *)
Definition carriesId (c : CachedPoint) : bool :=
  match cached_payload c with
  | Some payload => hasIdKey payload
  | None => false
  end.

(** [const { id: _id, ...payload } = chunk.payload]. *)
Definition withoutId (payload : list (string * string)) : list (string * string) :=
  List.filter (fun kv => negb (String.eqb (fst kv) "id")) payload.

(** The body of [chunk.forEach]: [uuidv4()] is called for every entry,
    [n] counts the calls so far. *)
Fixpoint submissionOf (w : World) (n : nat) (group : list CachedPoint)
  : list CachedRecord :=
  match group with
  | [] => []
  | c :: rest =>
      match cached_payload c with
      | Some payload =>
          if hasIdKey payload then
            {| cr_id := uuidv4 w n; cr_vector := cached_vector c;
               cr_payload := withoutId payload |} :: submissionOf w (S n) rest
          else submissionOf w (S n) rest
      | None => submissionOf w (S n) rest
      end
  end.

(** [for (const chunk of chunks)] of [processCachedVectors]: the
    submissions handed to [client.upsert], the ids pushed to
    [documentVectors], and the message of the exception that ended the
    loop, if any.  [g] counts the upserts and [n] the ids. *)
Fixpoint upsertCached (w : World) (g n : nat) (chunks : list (list CachedPoint))
  : list (list CachedRecord) * list string * option string :=
  match chunks with
  | [] => ([], [], None)
  | group :: rest =>
      let submission := submissionOf w n group in
      match upsert w g with
      | Rejected message => ([submission], map cr_id submission, Some message)
      | Resolved additionResult =>
          if completed additionResult then
            let '(issued, ids, thrown) := upsertCached w (S g) (n + length group) rest in
            (submission :: issued, map cr_id submission ++ ids, thrown)
          else ([submission], map cr_id submission,
                Some "Error embedding cached vectors into Qdrant")
      end
  end.

(** [processCachedVectors(namespace, docId, cacheResult)] with
    [chunks = cacheResult.chunks].  Nothing is caught here.
    [chunks[0][0]] throws on an empty [chunks]. *)
Definition processCachedVectors (w : World) (docId : string)
    (chunks : list (list CachedPoint)) : Outcome :=
  match connect w with
  | Rejected message => rejects message [] None
  | Resolved _ =>
      match chunks with
      | [] => rejects "Cannot read properties of undefined (reading '0')" [] None
      | _ =>
          match getOrCreateCollection w with
          | Rejected message => rejects message [] None
          | Resolved false => rejects "Failed to create Qdrant collection!" [] None
          | Resolved true =>
              let '(issued, ids, thrown) := upsertCached w 0 0 chunks in
              match thrown with
              | Some message => rejects message (map Cached issued) None
              | None =>
                  let documentVectors := map (fun id => (docId, id)) ids in
                  match bulkInsert w with
                  | Rejected message =>
                      rejects message (map Cached issued) (Some documentVectors)
                  | Resolved _ =>
                      resolves {| vectorized := true; error := None |}
                               (map Cached issued) (Some documentVectors)
                  end
              end
          end
      end
  end.

(** The [for (const [i, vector] of vectorValues.entries())] loop.
    [None]: [vector.length] was read on [null]. *)
Fixpoint prepare (w : World) (meta : list (string * string))
    (textChunks : list string) (vectorValues : list (option Vector))
    (i : nat) (vectorDimension : option nat)
  : option (list ParallelQdrant.VectorRecord * option nat) :=
  match vectorValues with
  | [] => Some ([], vectorDimension)
  | vector :: rest =>
      dim ← match vectorDimension with
            | Some (S d) => Some (Some (S d))
            | _ => (fun v : Vector => Some (length v)) <$> vector
            end;
      let vectorRecord :=
        {| ParallelQdrant.id := uuidv4 w i; ParallelQdrant.vector := vector;
           ParallelQdrant.payload_text := textChunks !! i;
           ParallelQdrant.payload_meta := meta |} in
      '(records, dim') ← prepare w meta textChunks rest (S i) dim;
      Some (vectorRecord :: records, dim')
  end.

(** [addDocumentToNamespace(namespace, documentData, fullFilePath,
    skipCache)]. *)
Definition addDocumentToNamespace (w : World)
    (documentData : ParallelQdrant.DocumentData) (skipCache : bool) : Outcome :=
  let caught message upserts documentVectors :=
    resolves {| vectorized := false; error := Some message |}
             upserts documentVectors in
  match ParallelQdrant.pageContent documentData with
  | None | Some EmptyString =>
      resolves {| vectorized := false; error := Some "No content" |} [] None
  | Some content =>
      match (if skipCache then Resolved None else cachedVectorInformation w) with
      | Rejected message => caught message [] None
      | Resolved (Some chunks) =>
          processCachedVectors w (ParallelQdrant.docId documentData) chunks
      | Resolved None =>
          match splitText w content with
          | Rejected message => caught message [] None
          | Resolved textChunks =>
              match RotatingEmbedder.embedChunks (shared w) (provider w) textChunks with
              | None => {| settled := None; upserts := []; documentVectors := None |}
              | Some (Rejected message) => caught message [] None
              | Some (Resolved vectorValues) =>
                  (* [embedder.printStats()] *)
                  match ApiKeyRotator.getAvailableKeyCount
                          (RotatingEmbedder.clock (shared w) RotatingEmbedder.PrintStats)
                          (RotatingEmbedder.rotator (shared w) RotatingEmbedder.PrintStats) with
                  | None =>
                      caught "Cannot read properties of undefined (reading 'rateLimitUntil')"
                             [] None
                  | Some _ =>
                      match vectorValues with
                      | [] => caught "Could not embed document chunks!" [] None
                      | _ =>
                          match prepare w (ParallelQdrant.metadata documentData)
                                        textChunks vectorValues 0 None with
                          | None =>
                              caught "Cannot read properties of null (reading 'length')"
                                     [] None
                          | Some (submission, _) =>
                              let documentVectors :=
                                map (fun r => (ParallelQdrant.docId documentData,
                                               ParallelQdrant.id r)) submission in
                              match connect w with
                              | Rejected message => caught message [] None
                              | Resolved _ =>
                                  match getOrCreateCollection w with
                                  | Rejected message => caught message [] None
                                  | Resolved false =>
                                      caught "Failed to create Qdrant collection!" [] None
                                  | Resolved true =>
                                      match upsert w 0 with
                                      | Rejected message =>
                                          caught message [Fresh submission] None
                                      | Resolved additionResult =>
                                          if negb (completed additionResult) then
                                            caught ("Error embedding into Qdrant: "
                                                    +:+ stringified additionResult)
                                                   [Fresh submission] None
                                          else
                                            match storeVectorResult w with
                                            | Rejected message =>
                                                caught message [Fresh submission] None
                                            | Resolved _ =>
                                                match bulkInsert w with
                                                | Rejected message =>
                                                    caught message [Fresh submission]
                                                           (Some documentVectors)
                                                | Resolved _ =>
                                                    resolves
                                                      {| vectorized := true; error := None |}
                                                      [Fresh submission]
                                                      (Some documentVectors)
                                                end
                                            end
                                      end
                                  end
                              end
                          end
                      end
                  end
              end
          end
      end
  end.

(** What the loop of [processCachedVectors] submits for a group whose
    first entry gets the [offset]-th generated id: the entries with an
    [id] in the payload, each with the id generated at its position, its
    vector and its payload without the [id]. *)
Definition expectedSubmission (w : World) (offset : nat) (group : list CachedPoint)
  : list CachedRecord :=
  map (fun jc => {| cr_id := uuidv4 w (offset + fst jc);
                    cr_vector := cached_vector (snd jc);
                    cr_payload := withoutId (default [] (cached_payload (snd jc))) |})
      (List.filter (fun jc => carriesId (snd jc)) (imap pair group)).

End ParallelQdrantProvider.

(** Rotators used to run the further rotator properties. *)
Module RotatorCases.
Import ApiKeyRotator RotatorTrace.

(** Only blank keys were configured: the pool is the environment key. *)
Definition fallback : t := constructor [""; "   "] "env-key".

(** Key B of the three-key pool after three reported failures. *)
Definition shaky : t :=
  default RotatorScenarios.pool3
    (run [MarkFailed "B"; MarkFailed "B"; MarkFailed "B"] RotatorScenarios.pool3).
End RotatorCases.

(** Documents used to run the further ingestion properties. *)
Module IngestionCases.
Import ParallelDocumentProcessor.

Definition defaults : Options :=
  {| opt_concurrency := None; opt_batchSize := None; opt_dbBatchSize := None;
     opt_retryAttempts := None; opt_retryDelay := None |}.

Definition twoPerChunk : Options :=
  {| opt_concurrency := None; opt_batchSize := None; opt_dbBatchSize := Some 2;
     opt_retryAttempts := None; opt_retryDelay := None |}.

(** The vector store refuses twice, then accepts. *)
Definition thirdTimeLucky : DocumentWorld :=
  fun attempt =>
    if attempt <=? 2 then NotVectorized (Some "Lease") (Some "timeout")
    else Vectorized "doc-7" "{}".

(** The same, but attempts after the third throw. *)
Definition thirdTimeLuckyThenThrows : DocumentWorld :=
  fun attempt =>
    if attempt <=? 2 then NotVectorized (Some "Lease") (Some "timeout")
    else if attempt =? 3 then Vectorized "doc-7" "{}"
    else Threw "unreachable".

(** Every attempt throws. *)
Definition alwaysThrows : DocumentWorld := fun _ => Threw "ECONNRESET".

End IngestionCases.

(** Providers used to run the further embedding properties. *)
Module EmbeddingCases.
Import ParallelGeminiEmbedder.

(** A toy embedding: the length of the text, twice. *)
Definition measure (text : string) : list Q :=
  [inject_Z (Z.of_nat (String.length text)); inject_Z (Z.of_nat (String.length text))].

(** Batch requests fail at the first attempt and get through from the
    second one on; single requests always get through. *)
Definition slowStart : Provider :=
  {| batchEmbedContents := fun _ attempt texts =>
       if attempt <=? 1 then Rejected "503" else Resolved (map measure texts);
     embedContent := fun _ _ text => Resolved (measure text) |}.

(** The rotator during one batch that needs a second attempt, starting
    from three configured keys: the calls made before each site is
    reached. *)
Definition callsBefore (s : RotatingEmbedder.site) : list RotatorTrace.call :=
  match s with
  | RotatingEmbedder.BatchStart 0 1 => []
  | RotatingEmbedder.BatchEnd 0 1 => [RotatorTrace.GetNextKey 10]
  | RotatingEmbedder.BatchStart 0 2 =>
      [RotatorTrace.GetNextKey 10; RotatorTrace.MarkFailed "A"]
  | RotatingEmbedder.BatchEnd 0 2 =>
      [RotatorTrace.GetNextKey 10; RotatorTrace.MarkFailed "A";
       RotatorTrace.GetNextKey 1020]
  | _ =>
      [RotatorTrace.GetNextKey 10; RotatorTrace.MarkFailed "A";
       RotatorTrace.GetNextKey 1020; RotatorTrace.MarkSuccess "B"]
  end.

Definition oneRetry : RotatingEmbedder.Shared :=
  {| RotatingEmbedder.rotator := fun s =>
       default RotatorScenarios.pool3
               (RotatorTrace.run (callsBefore s) RotatorScenarios.pool3);
     RotatingEmbedder.clock := fun s =>
       match s with
       | RotatingEmbedder.BatchStart 0 1 | RotatingEmbedder.BatchEnd 0 1 => 10%Z
       | _ => 1020%Z
       end;
     RotatingEmbedder.race := fun messages => default EmptyString (head messages) |}.
(** No key configured: every call meets the pool that holds only the
    fallback key, which has no statistics. *)
Definition noKeys : RotatingEmbedder.Shared :=
  {| RotatingEmbedder.rotator := fun _ => ApiKeyRotator.constructor [] "env-key";
     RotatingEmbedder.clock := fun _ => 10%Z;
     RotatingEmbedder.race := fun messages => default EmptyString (head messages) |}.
End EmbeddingCases.

(** Worlds used to run the further persistence properties. *)
Module PersistenceCases.
Import ParallelGeminiEmbedder ParallelQdrantProvider.

(** A cache with one group of two entries, of which the second has no
    [id] in its payload. *)
Definition cache : list (list CachedPoint) :=
  [[ {| cached_vector := Some [1 # 2]; cached_payload := Some [("id", "old-1"); ("text", "clause one")] |};
     {| cached_vector := Some [1 # 4]; cached_payload := Some [("text", "clause two!")] |} ]].

(** Three configured keys, a provider that needs a second attempt, and a
    vector store, cache and database that take what they are given. *)
Definition steady : World :=
  {| cachedVectorInformation := Resolved None;
     splitText := fun _ => Resolved ["clause one"; "clause two!"];
     shared := EmbeddingCases.oneRetry;
     provider := EmbeddingCases.slowStart;
     uuidv4 := fun i => "id-" +:+ pretty i;
     connect := Resolved tt;
     getOrCreateCollection := Resolved true;
     upsert := fun _ => Resolved {| completed := true;
                                    stringified := "{status:completed}" |};
     storeVectorResult := Resolved tt;
     bulkInsert := Resolved tt |}.

Definition lease : ParallelQdrant.DocumentData :=
  {| ParallelQdrant.pageContent := Some "clause one clause two!";
     ParallelQdrant.docId := "doc-1";
     ParallelQdrant.metadata := [("title", "Lease")] |}.
End PersistenceCases.

(* ===================================================================== *)
(** * Properties                                                          *)
(* ===================================================================== *)

Section RotatorProps.
Import ApiKeyRotator RotatorTrace.

Lemma indexOf_from_lookup keys apiKey i0 i :
  indexOf_from keys apiKey i0 = Some i ->
  i0 <= i /\ keys !! (i - i0) = Some apiKey.
Proof.
  revert i0. induction keys as [|k keys IH]; intros i0 H; simpl in H.
  - discriminate.
  - destruct (String.eqb k apiKey) eqn:E.
    + apply String.eqb_eq in E. inversion H; subst.
      split; [lia|]. by rewrite Nat.sub_diag.
    + destruct (IH _ H) as [Hle Hl]. split; [lia|].
      replace (i - i0) with (S (i - S i0)) by lia. exact Hl.
Qed.

Lemma indexOf_lookup self apiKey i :
  indexOf self apiKey = Some i -> apiKeys self !! i = Some apiKey.
Proof.
  intros H. apply indexOf_from_lookup in H as [_ H].
  by rewrite Nat.sub_0_r in H.
Qed.

Lemma advance_lt self :
  0 < length (apiKeys self) -> advance self < length (apiKeys self).
Proof. intros H. unfold advance. apply Nat.mod_upper_bound. lia. Qed.

Lemma hasStats_insert self i st :
  hasStats self -> hasStats (setStats self i st).
Proof.
  intros H j Hj. simpl in *. destruct (decide (i = j)) as [->|Hne].
  - rewrite lookup_insert_eq. eauto.
  - rewrite lookup_insert_ne; auto.
Qed.

(** What the selection loop leaves untouched. *)
Lemma getNextKey_loop_frame n now self found self' :
  getNextKey_loop n now self = Some (found, self') ->
  apiKeys self' = apiKeys self /\ failedKeys self' = failedKeys self /\
  (forall j, rateLimitUntil <$> keyStats self' !! j
             = rateLimitUntil <$> keyStats self !! j) /\
  (wf self -> wf self').
Proof.
  revert self. induction n as [|n IH]; intros self H; simpl in H.
  - inversion H; subst. auto.
  - destruct (keyStats self !! currentIndex self) as [stats|] eqn:Hst;
      simpl in H; [|discriminate].
    assert (Hadv : wf self -> wf (setIndex self (advance self))).
    { intros [Hc Hs]. split; [|exact Hs]. simpl. apply advance_lt. lia. }
    destruct (isRateLimited now stats).
    { apply IH in H as (? & ? & ? & Hw). simpl in *. split_and!; auto. }
    destruct (bool_decide (currentIndex self ∈ failedKeys self)).
    { apply IH in H as (? & ? & ? & Hw). simpl in *. split_and!; auto. }
    clear IH. injection H as <- <-. simpl. split_and!; auto.
    + intros j. destruct (decide (currentIndex self = j)) as [<-|Hne].
      * by rewrite lookup_insert_eq, Hst.
      * by rewrite lookup_insert_ne.
    + intros [Hc Hs]. split; simpl.
      * apply (advance_lt (setStats self _ _)). simpl. lia.
      * intros j Hj. exact (hasStats_insert self _ _ Hs j Hj).
Qed.

Lemma getNextKey_index_frame now self i self' :
  getNextKey_index now self = Some (i, self') ->
  apiKeys self' = apiKeys self /\ failedKeys self' = failedKeys self /\
  (forall j, rateLimitUntil <$> keyStats self' !! j
             = rateLimitUntil <$> keyStats self !! j) /\
  (wf self -> wf self').
Proof.
  unfold getNextKey_index. destruct (length (apiKeys self) =? 1).
  - intros H; inversion H; subst; auto.
  - destruct (getNextKey_loop _ now self) as [[found s1]|] eqn:E;
      simpl; [|discriminate].
    apply getNextKey_loop_frame in E.
    destruct found; intros H; inversion H; subst; exact E.
Qed.
(** A call that does not shorten the cooldown of the key at index [i]
    keeps the pool, the invariant and that cooldown. *)
Lemma step_frame c self self' apiKey i deadline :
  apiKeys self !! i = Some apiKey ->
  keepsDeadline apiKey deadline c ->
  step c self = Some self' ->
  apiKeys self' = apiKeys self /\
  (coolingUntil self i deadline -> coolingUntil self' i deadline) /\
  (wf self -> wf self').
Proof.
  intros Hi Hc H.
  assert (Hsame : (forall j, rateLimitUntil <$> keyStats self' !! j
                             = rateLimitUntil <$> keyStats self !! j) ->
                  coolingUntil self i deadline -> coolingUntil self' i deadline).
  { intros Heq (st & u & Hst & Hu & Hle). specialize (Heq i).
    rewrite Hst in Heq. simpl in Heq.
    destruct (keyStats self' !! i) as [st'|] eqn:Est'; simpl in Heq; [|discriminate].
    injection Heq as Heq. exists st', u. split_and!; [done|congruence|done]. }
  assert (Hins : forall j st st', keyStats self !! j = Some st ->
            rateLimitUntil st' = rateLimitUntil st ->
            forall j', rateLimitUntil <$> <[j := st']> (keyStats self) !! j'
                       = rateLimitUntil <$> keyStats self !! j').
  { intros j st st' Hst Heq j'. destruct (decide (j = j')) as [<-|Hne].
    - by rewrite lookup_insert_eq, Hst; simpl; rewrite Heq.
    - by rewrite lookup_insert_ne. }
  assert (Hw : forall j st', wf self -> wf (setStats self j st')).
  { intros j st' [? Hs]. split; [done|]. by apply hasStats_insert. }
  destruct c as [now|now k d|k|k]; simpl in H.
  - destruct (getNextKey now self) as [[key s1]|] eqn:E; simpl in H; [|discriminate].
    injection H as <-. unfold getNextKey in E.
    destruct (getNextKey_index now self) as [[j s2]|] eqn:E2; simpl in E; [|discriminate].
    injection E as _ <-. apply getNextKey_index_frame in E2 as (? & ? & ? & ?). auto.
  - unfold markRateLimited in H. destruct (indexOf self k) as [j|] eqn:Ej.
    + apply indexOf_lookup in Ej.
      destruct (keyStats self !! j) as [st|] eqn:Est; simpl in H; [|discriminate].
      injection H as <-. split_and!; [done| |apply Hw].
      intros (st0 & u & Hst & Hu & Hle). unfold coolingUntil. simpl.
      destruct (decide (j = i)) as [->|Hne].
      * rewrite lookup_insert_eq. eexists _, _. split_and!; [done|done|].
        simpl in Hc. apply Hc. congruence.
      * rewrite lookup_insert_ne by done. by exists st0, u.
    + injection H as <-. auto.
  - unfold markFailed in H. destruct (indexOf self k) as [j|] eqn:Ej.
    + destruct (keyStats self !! j) as [st|] eqn:Est;
        cbn -[Nat.leb] in H; [|discriminate].
      injection H as <-.
      match goal with |- context [if ?c then _ else _] => destruct c end;
        (split_and!; [done| |apply Hw]); apply Hsame; simpl;
        by apply (Hins j st).
    + injection H as <-. auto.
  - unfold markSuccess in H. destruct (indexOf self k) as [j|] eqn:Ej.
    + destruct (keyStats self !! j) as [st|] eqn:Est; simpl in H; [|discriminate].
      injection H as <-. split_and!; [done| |apply Hw].
      apply Hsame. simpl. by apply (Hins j st).
    + injection H as <-. auto.
Qed.

Lemma run_frame cs self self' apiKey i deadline :
  apiKeys self !! i = Some apiKey ->
  Forall (keepsDeadline apiKey deadline) cs ->
  run cs self = Some self' ->
  apiKeys self' = apiKeys self /\
  (coolingUntil self i deadline -> coolingUntil self' i deadline) /\
  (wf self -> wf self').
Proof.
  revert self. induction cs as [|c cs IH]; intros self Hi Hn H; simpl in H.
  - injection H as <-. auto.
  - destruct (step c self) as [s1|] eqn:E; simpl in H; [|discriminate].
    inversion Hn as [|? ? Hc Hcs]; subst.
    destruct (step_frame _ _ _ _ _ _ Hi Hc E) as (Ha & Hr & Hw).
    destruct (IH s1) as (Ha' & Hr' & Hw'); auto; [by rewrite Ha|].
    split_and!; [congruence|auto|auto].
Qed.

Lemma usable_setIndex now self c j :
  usable now (setIndex self c) j <-> usable now self j.
Proof. reflexivity. Qed.

(** The selection loop stops at the first usable index it meets: if one
    of the next [n] cursor positions is usable, it returns a usable
    index. *)
Lemma getNextKey_loop_finds n now self m :
  wf self -> m < n ->
  usable now self ((currentIndex self + m) `mod` length (apiKeys self)) ->
  exists j self', getNextKey_loop n now self = Some (Some j, self')
                  /\ usable now self j.
Proof.
  revert self m. induction n as [|n IH]; intros self m [Hc Hs] Hm Hu; [lia|].
  simpl. destruct (Hs _ Hc) as [stats Hst]. rewrite Hst. simpl.
  assert (Hcur : isAvailable now self (currentIndex self)
                 = Some (negb (isRateLimited now stats)
                         && negb (bool_decide (currentIndex self ∈ failedKeys self)))).
  { unfold isAvailable. by rewrite Hst. }
  assert (Hnext : isAvailable now self (currentIndex self) <> Some true ->
    exists j self', getNextKey_loop n now (setIndex self (advance self))
                    = Some (Some j, self') /\ usable now self j).
  { intros Hna. destruct m as [|m].
    - exfalso. apply Hna. rewrite Nat.add_0_r, Nat.mod_small in Hu by done.
      by destruct Hu.
    - destruct (IH (setIndex self (advance self)) m) as (j & s' & E & Hj).
      + split; [|exact Hs]. simpl. apply advance_lt. lia.
      + lia.
      + apply usable_setIndex. simpl. unfold advance.
        rewrite Nat.Div0.add_mod_idemp_l.
        by replace (currentIndex self + 1 + m) with (currentIndex self + S m) by lia.
      + exists j, s'. split; [exact E|]. by apply usable_setIndex in Hj. }
  destruct (isRateLimited now stats) eqn:Erl.
  { apply Hnext. by rewrite Hcur. }
  destruct (bool_decide (currentIndex self ∈ failedKeys self)) eqn:Ef.
  { apply Hnext. by rewrite Hcur. }
  eexists _, _. split; [reflexivity|]. split; [done|]. by rewrite Hcur.
Qed.

(** With at least one usable index in a pool of two or more keys,
    [getNextKey] hands out a usable index. *)
Lemma getNextKey_index_usable now self j0 :
  wf self -> length (apiKeys self) <> 1 -> usable now self j0 ->
  exists j self', getNextKey_index now self = Some (j, self')
                  /\ usable now self j.
Proof.
  intros Hw Hlen Hu. unfold getNextKey_index.
  destruct (length (apiKeys self) =? 1) eqn:E; [apply Nat.eqb_eq in E; lia|].
  set (L := length (apiKeys self)). set (c := currentIndex self).
  assert (Hc : c < L) by apply Hw. assert (Hj : j0 < L) by apply Hu.
  destruct (getNextKey_loop_finds L now self ((j0 + L - c) `mod` L))
    as (j & s' & El & Huj); [done| apply Nat.mod_upper_bound; lia | |].
  - fold L c. rewrite Nat.Div0.add_mod_idemp_r.
    replace (c + (j0 + L - c)) with (j0 + 1 * L) by lia.
    rewrite Nat.Div0.mod_add, Nat.mod_small by done. exact Hu.
  - exists j, s'. fold L. rewrite El. simpl. done.
Qed.
Lemma initStats_lookup keys i0 m j :
  (is_Some (m !! j) \/ i0 <= j < i0 + length keys) ->
  is_Some (initStats keys i0 m !! j).
Proof.
  revert i0 m. induction keys as [|k keys IH]; intros i0 m H; simpl in *.
  - destruct H as [H|H]; [done|lia].
  - apply IH. destruct (decide (i0 = j)) as [->|Hne].
    + left. rewrite lookup_insert_eq. eauto.
    + rewrite lookup_insert_ne by done. destruct H as [H|H]; [by left|right; lia].
Qed.

(** [constructor] establishes the invariant whenever at least one
    configured key survives the blank filter. *)
Lemma constructor_wf keys envKey :
  List.filter nonBlank keys <> [] ->
  wf (constructor keys envKey).
Proof.
  unfold constructor. generalize (List.filter nonBlank keys). intros filtered Hne.
  destruct filtered as [|k filtered]; [done|]. cbn [length Nat.eqb].
  split; cbn [apiKeys currentIndex keyStats length]; [lia|].
  intros j Hj. cbn [apiKeys keyStats] in *. apply initStats_lookup. right.
  simpl in *. lia.
Qed.

(** The selection made by [getNextKey] is total on well-formed
    rotators: it neither blocks nor fails, whatever the key states. *)
Lemma getNextKey_returns now self :
  wf self ->
  exists key self', getNextKey now self = Some (Some key, self').
Proof.
  intros [Hc Hs]. unfold getNextKey, getNextKey_index.
  destruct (length (apiKeys self) =? 1) eqn:E; simpl.
  - destruct (apiKeys self) as [|k [|]] eqn:Ek; try discriminate. eauto.
  - assert (Hl : forall n s, wf s -> exists found s',
               getNextKey_loop n now s = Some (found, s')
               /\ match found with Some j => j < length (apiKeys s) | None => True end).
    { induction n as [|n IH]; intros s [Hcs Hss]; simpl;
        [by eexists None, s|].
      destruct (Hss _ Hcs) as [st Hst]. rewrite Hst. simpl.
      assert (wf (setIndex s (advance s))).
      { split; [|exact Hss]. simpl. apply advance_lt. lia. }
      destruct (isRateLimited now st); [exact (IH _ H)|].
      destruct (bool_decide _); [exact (IH _ H)|].
      eexists (Some _), _. split; [reflexivity|done]. }
    destruct (Hl (length (apiKeys self)) self) as (found & s' & -> & Hf); [done|].
    simpl. destruct found as [j|]; simpl.
    + destruct (lookup_lt_is_Some_2 (apiKeys self) j Hf) as [k ->]. eauto.
    + destruct (lookup_lt_is_Some_2 (apiKeys self) _ Hc) as [k ->]. eauto.
Qed.
Lemma setIndex_current self : setIndex self (currentIndex self) = self.
Proof. by destruct self. Qed.

(** When no index is usable the loop passes over every key and leaves
    the cursor [n] places further. *)
Lemma getNextKey_loop_exhausted n now self :
  wf self ->
  (forall j, ~ usable now self j) ->
  getNextKey_loop n now self
  = Some (None, setIndex self ((currentIndex self + n) `mod` length (apiKeys self))).
Proof.
  revert self. induction n as [|n IH]; intros self [Hc Hs] Hno; simpl.
  - rewrite Nat.add_0_r, Nat.mod_small by done. by rewrite setIndex_current.
  - destruct (Hs _ Hc) as [stats Hst]. rewrite Hst. simpl.
    assert (Hnext : getNextKey_loop n now (setIndex self (advance self))
                    = Some (None, setIndex self
                                    ((currentIndex self + S n) `mod` length (apiKeys self)))).
    { rewrite IH.
      - simpl. unfold advance. rewrite Nat.Div0.add_mod_idemp_l.
        by replace (currentIndex self + 1 + n) with (currentIndex self + S n) by lia.
      - split; [|exact Hs]. simpl. apply advance_lt. lia.
      - intros j Hj. by apply (Hno j). }
    destruct (isRateLimited now stats) eqn:Erl; [exact Hnext|].
    destruct (bool_decide (currentIndex self ∈ failedKeys self)) eqn:Ef; [exact Hnext|].
    exfalso. apply (Hno (currentIndex self)). split; [done|].
    unfold isAvailable. by rewrite Hst; simpl; rewrite Erl, Ef.
Qed.

(** Degraded mode as the code has it: with two or more keys, none of them
    usable, [getNextKey] returns the key under the cursor and changes
    nothing. *)
Lemma getNextKey_degraded now self :
  wf self -> length (apiKeys self) <> 1 ->
  (forall j, ~ usable now self j) ->
  getNextKey now self = Some (apiKeys self !! currentIndex self, self).
Proof.
  intros Hw Hlen Hno. unfold getNextKey, getNextKey_index.
  destruct (length (apiKeys self) =? 1) eqn:E; [apply Nat.eqb_eq in E; lia|].
  rewrite (getNextKey_loop_exhausted _ now self Hw Hno). simpl.
  replace (currentIndex self + length (apiKeys self))
    with (currentIndex self + 1 * length (apiKeys self)) by lia.
  rewrite Nat.Div0.mod_add, Nat.mod_small by apply Hw.
  by rewrite setIndex_current.
Qed.
End RotatorProps.

(** C5.  A credential marked rate limited at time [T] for [D] milliseconds
    is not handed out by [getNextKey] at any time [now < T + D], whatever
    calls were made on the rotator in between (none of them ending that
    cooldown early), as long as some other index of the pool is usable at
    [now]: the index chosen is a usable one, different from the marked
    one, and in a pool without repeated keys the returned key differs
    from the marked key. *)
Theorem cooldown_respected
    (self self1 self2 : ApiKeyRotator.t) (apiKey : ApiKeyRotator.Key)
    (i : nat) (T D now : Z) (cs : list RotatorTrace.call) :
  ApiKeyRotator.wf self ->
  ApiKeyRotator.indexOf self apiKey = Some i ->
  ApiKeyRotator.markRateLimited T apiKey D self = Some self1 ->
  Forall (RotatorTrace.keepsDeadline apiKey (T + D)) cs ->
  RotatorTrace.run cs self1 = Some self2 ->
  (0 <= now < T + D)%Z ->
  (exists j, j <> i /\ ApiKeyRotator.usable now self2 j) ->
  exists j key self3,
    ApiKeyRotator.getNextKey now self2 = Some (Some key, self3) /\
    ApiKeyRotator.getNextKey_index now self2 = Some (j, self3) /\
    j <> i /\ ApiKeyRotator.usable now self2 j /\
    (NoDup (ApiKeyRotator.apiKeys self) -> key <> apiKey).
Proof.
  intros Hw Hi Hm Hn Hr Hnow (j0 & Hj0 & Hu0).
  pose proof (indexOf_lookup _ _ _ Hi) as Hki.
  (* the state right after the mark *)
  unfold ApiKeyRotator.markRateLimited in Hm. rewrite Hi in Hm.
  destruct (ApiKeyRotator.keyStats self !! i) as [st|] eqn:Est; simpl in Hm; [|discriminate].
  injection Hm as <-.
  set (self1 := ApiKeyRotator.setStats self i _) in Hr.
  assert (Hw1 : ApiKeyRotator.wf self1).
  { destruct Hw as [? Hs]. split; [done|]. by apply hasStats_insert. }
  assert (Hcool1 : RotatorTrace.coolingUntil self1 i (T + D)).
  { eexists _, _. unfold self1. simpl. rewrite lookup_insert_eq.
    split_and!; [done|done|]. simpl. lia. }
  destruct (run_frame cs self1 self2 apiKey i (T + D)%Z Hki Hn Hr) as (Hkeys & Hcool & Hw2).
  specialize (Hw2 Hw1). destruct (Hcool Hcool1) as (st2 & u & Hst2 & Hu & Hle).
  (* the marked index is still cooling down at [now] *)
  assert (Hnot : ~ ApiKeyRotator.usable now self2 i).
  { intros [_ Ha]. unfold ApiKeyRotator.isAvailable in Ha. rewrite Hst2 in Ha.
    simpl in Ha. unfold ApiKeyRotator.isRateLimited in Ha. rewrite Hu in Ha.
    assert (Hu0' : (u =? 0)%Z = false) by (apply Z.eqb_neq; lia).
    assert (Hlt : (now <? u)%Z = true) by (apply Z.ltb_lt; lia).
    rewrite Hu0', Hlt in Ha. discriminate. }
  assert (Hlen : length (ApiKeyRotator.apiKeys self2) <> 1).
  { destruct Hu0 as [Hlt _]. apply lookup_lt_Some in Hki.
    simpl in Hkeys. rewrite Hkeys. rewrite Hkeys in Hlt. lia. }
  destruct (getNextKey_index_usable now self2 j0 Hw2 Hlen Hu0) as (j & s3 & Ei & Hu').
  assert (Hj : j < length (ApiKeyRotator.apiKeys self2)) by apply Hu'.
  destruct (lookup_lt_is_Some_2 _ _ Hj) as [key Hkey].
  exists j, key, s3. unfold ApiKeyRotator.getNextKey. rewrite Ei. simpl. rewrite Hkey.
  split_and!; [done|done| |done|].
  - intros ->. contradiction.
  - intros Hnd ->. rewrite Hkeys in Hkey. simpl in Hkey.
    assert (j = i) by (eapply NoDup_lookup; eauto). subst. contradiction.
Qed.

(** C10.  With exactly one key in the pool, [getNextKey] returns that key
    and leaves the rotator untouched (no request counted, no last-used
    time written), whatever the key's cooldown or failure state. *)
Theorem single_key_unconditional
    (self : ApiKeyRotator.t) (key : ApiKeyRotator.Key) (now : Z) :
  ApiKeyRotator.apiKeys self = [key] ->
  ApiKeyRotator.getNextKey now self = Some (Some key, self).
Proof.
  intros H. unfold ApiKeyRotator.getNextKey, ApiKeyRotator.getNextKey_index.
  rewrite H. reflexivity.
Qed.

(** The cooldown property on the three-key pool, with key A marked again
    in between. *)
Lemma cooldown_respected_witness :
  exists j key self3,
    ApiKeyRotator.getNextKey 2000 RotatorScenarios.later = Some (Some key, self3) /\
    ApiKeyRotator.getNextKey_index 2000 RotatorScenarios.later = Some (j, self3) /\
    j <> 0 /\ ApiKeyRotator.usable 2000 RotatorScenarios.later j /\
    (NoDup (ApiKeyRotator.apiKeys RotatorScenarios.pool3) -> key <> "A"%string).
Proof.
  apply (cooldown_respected RotatorScenarios.pool3 RotatorScenarios.marked
           RotatorScenarios.later "A" 0 1000 60000 2000
           RotatorScenarios.later_calls).
  - apply constructor_wf. vm_compute. discriminate.
  - reflexivity.
  - vm_compute. reflexivity.
  - repeat constructor; simpl; intros; lia.
  - vm_compute. reflexivity.
  - lia.
  - exists 2. split; [lia|]. split; [vm_compute; lia | vm_compute; reflexivity].
Defined.

(** A single key that is cooling down and disabled is handed out all the
    same. *)
Lemma single_key_unconditional_witness :
  ApiKeyRotator.getNextKey 50 RotatorScenarios.lonely
  = Some (Some "K"%string, RotatorScenarios.lonely)
  /\ ApiKeyRotator.isAvailable 50 RotatorScenarios.lonely 0 = Some false.
Proof.
  split.
  - apply (single_key_unconditional RotatorScenarios.lonely "K" 50). reflexivity.
  - vm_compute. reflexivity.
Defined.

(** C6.  Degraded mode on a concrete run: all three keys are unusable at
    time 6, key A was last used at time 1 and key C at time 3, and
    [getNextKey] returns C, the key under the round-robin cursor, not the
    least recently used key A. *)
Theorem degraded_mode_returns_cursor_key :
  RotatorTrace.run RotatorScenarios.exhausting_calls RotatorScenarios.pool3
    = Some RotatorScenarios.exhausted /\
  ApiKeyRotator.getAvailableKeyCount 6 RotatorScenarios.exhausted = Some 0 /\
  ApiKeyRotator.lastUsed <$> ApiKeyRotator.keyStats RotatorScenarios.exhausted !! 0
    = Some (Some 1%Z) /\
  ApiKeyRotator.lastUsed <$> ApiKeyRotator.keyStats RotatorScenarios.exhausted !! 1
    = Some (Some 4%Z) /\
  ApiKeyRotator.lastUsed <$> ApiKeyRotator.keyStats RotatorScenarios.exhausted !! 2
    = Some (Some 3%Z) /\
  ApiKeyRotator.currentIndex RotatorScenarios.exhausted = 2 /\
  ApiKeyRotator.getNextKey 6 RotatorScenarios.exhausted
    = Some (Some "C"%string, RotatorScenarios.exhausted).
Proof. vm_compute. repeat split; reflexivity. Qed.

(** ** Batching *)

Section ChunkArrayProps.
Context {A : Type}.
Implicit Types array : list A.

Lemma batchSizes_step n b :
  0 < b -> 0 < n -> Util.batchSizes n b = Nat.min b n :: Util.batchSizes (n - b) b.
Proof.
  intros Hb Hn. unfold Util.batchSizes. destruct (le_lt_dec b n) as [Hle|Hlt].
  - assert (Hd : n / b = S ((n - b) / b)).
    { replace n with ((n - b) + 1 * b) at 1 by lia.
      rewrite Nat.div_add by lia. lia. }
    assert (Hm : n `mod` b = (n - b) `mod` b).
    { replace n with ((n - b) + 1 * b) at 1 by lia.
      by rewrite Nat.Div0.mod_add. }
    rewrite Hd, Hm. simpl. f_equal. lia.
  - rewrite (Nat.div_small n b), (Nat.mod_small n b) by done.
    replace (n - b) with 0 by lia.
    rewrite Nat.Div0.div_0_l, Nat.Div0.mod_0_l. simpl.
    destruct (n =? 0) eqn:E; [apply Nat.eqb_eq in E; lia|].
    f_equal. lia.
Qed.

Lemma batchSizes_0 b : Util.batchSizes 0 b = [].
Proof. unfold Util.batchSizes. by rewrite Nat.Div0.div_0_l, Nat.Div0.mod_0_l. Qed.

Lemma batchSizes_length n b : 0 < b -> length (Util.batchSizes n b) = Util.ceilDiv n b.
Proof.
  intros Hb. unfold Util.batchSizes, Util.ceilDiv.
  rewrite length_app, length_replicate.
  pose proof (Nat.div_mod_eq n b) as Hn.
  pose proof (Nat.mod_upper_bound n b ltac:(lia)) as Hr.
  destruct (n `mod` b =? 0) eqn:E; simpl.
  - apply Nat.eqb_eq in E. rewrite Nat.add_0_r.
    apply (Nat.div_unique _ _ _ (b - 1)); lia.
  - apply Nat.eqb_neq in E.
    apply (Nat.div_unique _ _ _ (n `mod` b - 1)); lia.
Qed.

(** With a positive chunk size and enough fuel the loop ends; its
    chunks, concatenated, give back the rest of the array, and their
    sizes are [Util.batchSizes]. *)
Lemma chunkArray_loop_spec array size fuel i :
  0 < size -> length array - i <= fuel ->
  exists chunks,
    Util.chunkArray_loop fuel array size i = Some chunks /\
    concat chunks = drop i array /\
    map length chunks = Util.batchSizes (length array - i) size.
Proof.
  intros Hs. revert i. induction fuel as [|fuel IH]; intros i Hf; simpl.
  - destruct (i <? length array) eqn:E; [apply Nat.ltb_lt in E; lia|].
    apply Nat.ltb_ge in E. exists []. split_and!; [done| |].
    + by rewrite drop_ge.
    + replace (length array - i) with 0 by lia. by rewrite batchSizes_0.
  - destruct (i <? length array) eqn:E.
    + apply Nat.ltb_lt in E.
      destruct (IH (i + size)) as (chunks & -> & Hc & Hl); [lia|].
      simpl. eexists. split_and!; [done| |].
      * simpl. rewrite Hc. unfold Util.slice.
        replace (i + size - i) with size by lia.
        rewrite <- drop_drop. apply take_drop.
      * simpl. rewrite Hl, (batchSizes_step (length array - i)) by lia.
        unfold Util.slice. rewrite length_take, length_drop.
        f_equal; [lia|]. f_equal. lia.
    + apply Nat.ltb_ge in E. exists []. split_and!; [done| |].
      * by rewrite drop_ge.
      * replace (length array - i) with 0 by lia. by rewrite batchSizes_0.
Qed.

Lemma chunkArray_spec array size :
  0 < size ->
  exists chunks,
    Util.chunkArray array size = Some chunks /\
    concat chunks = array /\
    map length chunks = Util.batchSizes (length array) size.
Proof.
  intros Hs. destruct (chunkArray_loop_spec array size (length array) 0)
    as (chunks & E & Hc & Hl); [done|lia|].
  exists chunks. rewrite Nat.sub_0_r in Hl. by rewrite drop_0 in Hc.
Qed.

(** A zero chunk size on a non-empty array: the loop does not end. *)
Lemma chunkArray_zero_size array :
  array <> [] -> Util.chunkArray array 0 = None.
Proof.
  intros Hne. unfold Util.chunkArray.
  assert (H : forall fuel, Util.chunkArray_loop fuel array 0 0 = None).
  { induction fuel as [|fuel IH]; simpl;
      (destruct (0 <? length array) eqn:E;
       [|apply Nat.ltb_ge in E; destruct array; simpl in *; [done|lia]]);
      [done|]. by rewrite IH. }
  apply H.
Qed.
End ChunkArrayProps.

(** ** Ingestion accounting *)

Section ProcessorProps.
Import ParallelDocumentProcessor.
Variable self : t.
Variable world : nat -> nat -> DocumentWorld.

Abbreviation batchOutcomes := (ParallelDocumentProcessor.batchOutcomes self world).
Abbreviation allOutcomes := (ParallelDocumentProcessor.allOutcomes self world).

Lemma imap_fst_path {B} (f : nat -> string -> B) (l : list string) :
  map fst (imap (fun i p => (p, f i p)) l) = l.
Proof.
  revert f. induction l as [|p l IH]; intros f; [done|].
  simpl. f_equal. apply (IH (f ∘ S)).
Qed.

Lemma allOutcomes_paths batchIndex batches :
  map fst (allOutcomes batchIndex batches) = concat batches.
Proof.
  revert batchIndex. induction batches as [|b bs IH]; intros k; [done|].
  simpl. rewrite map_app, IH. f_equal. apply imap_fst_path.
Qed.

Lemma record_all results outcomes :
  let results' := foldl (fun acc pr => record acc (fst pr) (snd pr)) results outcomes in
  embedded results' = embedded results ++ map fst (List.filter succeeded outcomes) /\
  failedToEmbed results'
    = failedToEmbed results ++ map reportedName (List.filter notSucceeded outcomes) /\
  processed results' = processed results + length (List.filter succeeded outcomes) /\
  stats_failed results'
    = stats_failed results + length (List.filter notSucceeded outcomes).
Proof.
  revert results. induction outcomes as [|[path res] outcomes IH]; intros results; simpl.
  - by rewrite !app_nil_r, !Nat.add_0_r.
  - destruct (IH (record results path res)) as (He & Hf & Hp & Hs).
    simpl in *. rewrite He, Hf, Hp, Hs. clear.
    unfold record, succeeded, notSucceeded, reportedName. simpl.
    destruct (success res); simpl; rewrite <- ?app_assoc; simpl;
      split_and!; try done; lia.
Qed.

Lemma processBatches_all batchIndex batches results :
  let outcomes := allOutcomes batchIndex batches in
  let results' := processBatches self world batchIndex batches results in
  embedded results' = embedded results ++ map fst (List.filter succeeded outcomes) /\
  failedToEmbed results'
    = failedToEmbed results ++ map reportedName (List.filter notSucceeded outcomes) /\
  processed results' = processed results + length (List.filter succeeded outcomes) /\
  stats_failed results'
    = stats_failed results + length (List.filter notSucceeded outcomes).
Proof.
  revert batchIndex results.
  induction batches as [|b bs IH]; intros k results; simpl.
  - by rewrite !app_nil_r, !Nat.add_0_r.
  - destruct (IH (S k) (processBatch self world k b results)) as (He & Hf & Hp & Hs).
    rewrite He, Hf, Hp, Hs. clear He Hf Hp Hs IH.
    destruct (record_all results (batchOutcomes k b)) as (He & Hf & Hp & Hs).
    unfold processBatch. fold (batchOutcomes k b).
    rewrite He, Hf, Hp, Hs, !List.filter_app, !map_app, !length_app, <- !app_assoc.
    split_and!; try done; lia.
Qed.

Lemma filter_partition_length {B} (f : B -> bool) (l : list B) :
  length (List.filter f l) + length (List.filter (fun x => negb (f x)) l) = length l.
Proof. induction l as [|x l IH]; simpl; [done|]. destruct (f x); simpl; lia. Qed.

(** In batches of which all but the last hold [size] paths, the path at
    position [j] of batch [k] has its outcome at position [k * size + j],
    and that outcome is the result of [processSingleDocument] in the
    environment of batch [batchIndex + k], position [j]. *)
Lemma allOutcomes_lookup size batchIndex batches k batch j path :
  (forall i b, batches !! i = Some b -> S i < length batches -> length b = size) ->
  batches !! k = Some batch -> batch !! j = Some path ->
  allOutcomes batchIndex batches !! (k * size + j)
  = Some (path, processSingleDocument self (world (batchIndex + k) j) path).
Proof.
  revert batchIndex k. induction batches as [|b bs IH]; intros k0 k Hfull Hk Hj.
  - by rewrite lookup_nil in Hk.
  - cbn [ParallelDocumentProcessor.allOutcomes]. destruct k as [|k]; simpl in Hk.
    + injection Hk as ->. rewrite lookup_app_l.
      * unfold ParallelDocumentProcessor.batchOutcomes.
        rewrite list_lookup_imap. simpl. rewrite Hj. simpl. by rewrite Nat.add_0_r.
      * unfold ParallelDocumentProcessor.batchOutcomes. rewrite length_imap. simpl.
        by apply lookup_lt_Some in Hj.
    + assert (Hb : length b = size).
      { apply (Hfull 0 b); [done|]. simpl. apply lookup_lt_Some in Hk. lia. }
      rewrite lookup_app_r;
        unfold ParallelDocumentProcessor.batchOutcomes; rewrite length_imap, Hb;
        [|simpl; lia].
      replace (S k * size + j - size) with (k * size + j) by (simpl; lia).
      replace (k0 + S k) with (S k0 + k) by lia.
      apply IH; [|done|done].
      intros i b' Hi Hlt. apply (Hfull (S i) b'); [done|simpl; lia].
Qed.
End ProcessorProps.

(** All chunks of [chunkArray] but the last one are full. *)
Lemma batchSizes_full {A} (batches : list (list A)) n size i b :
  map length batches = Util.batchSizes n size ->
  batches !! i = Some b -> S i < length batches -> length b = size.
Proof.
  intros Hl Hi Hlt.
  assert (Hsz : map length batches !! i = Some (length b)).
  { by rewrite list_lookup_fmap, Hi. }
  assert (Hlen : length (map length batches) = length batches) by apply length_map.
  rewrite Hl in Hsz, Hlen. unfold Util.batchSizes in Hsz, Hlen.
  rewrite length_app, length_replicate in Hlen.
  assert (Hq : i < n / size).
  { destruct (n `mod` size =? 0); simpl in Hlen; lia. }
  rewrite lookup_app_l in Hsz by (rewrite length_replicate; lia).
  apply lookup_replicate in Hsz as [Hsz _]. done.
Qed.

(** C7.  For every option record, environment and list of [N] document
    paths, with [B] the processor's batch size: [processDocuments] cuts
    the list into the [ceil(N/B)] batches of [chunkArray], whose
    concatenation is the input and whose sizes are [N/B] times [B]
    followed by the remainder (for 250 and 100: 100, 100, 50), and
    returns.  The document at position [j] of batch [k] is processed
    once, by [processSingleDocument] in the environment of batch [k],
    position [j]; the [N] outcomes so obtained are what the result lists
    are made of: [embedded] holds the paths of the documents that
    succeeded, [failedToEmbed] the file names reported for the others,
    both in document order, so that every document is in exactly one of
    the two lists and their lengths add up to [N]. *)
Theorem ingestion_accounting
    (options : ParallelDocumentProcessor.Options)
    (world : nat -> nat -> ParallelDocumentProcessor.DocumentWorld)
    (documentPaths : list string) :
  let self := ParallelDocumentProcessor.constructor options in
  let N := length documentPaths in
  let B := ParallelDocumentProcessor.batchSize self in
  exists batches results,
    Util.chunkArray documentPaths B = Some batches /\
    length batches = Util.ceilDiv N B /\
    concat batches = documentPaths /\
    map length batches = Util.batchSizes N B /\
    Util.batchSizes 250 100 = [100; 100; 50] /\
    ParallelDocumentProcessor.processDocuments self world documentPaths = Some results /\
    (let outcomes := ParallelDocumentProcessor.allOutcomes self world 0 batches in
     length outcomes = N /\
     map fst outcomes = documentPaths /\
     (forall k batch j path,
        batches !! k = Some batch -> batch !! j = Some path ->
        outcomes !! (k * B + j)
        = Some (path,
                ParallelDocumentProcessor.processSingleDocument self (world k j) path)) /\
     ParallelDocumentProcessor.embedded results
       = map fst (List.filter ParallelDocumentProcessor.succeeded outcomes) /\
     ParallelDocumentProcessor.failedToEmbed results
       = map ParallelDocumentProcessor.reportedName
           (List.filter ParallelDocumentProcessor.notSucceeded outcomes)) /\
    length (ParallelDocumentProcessor.embedded results)
      + length (ParallelDocumentProcessor.failedToEmbed results) = N /\
    ParallelDocumentProcessor.processed results
      + ParallelDocumentProcessor.stats_failed results = N.
Proof.
  intros self N B.
  assert (HB : 0 < B).
  { unfold B, self. simpl. unfold Util.orDefault.
    destruct (ParallelDocumentProcessor.opt_batchSize options) as [[|n]|]; lia. }
  destruct (chunkArray_spec documentPaths B HB) as (batches & Hc & Hcat & Hlen).
  set (outcomes := ParallelDocumentProcessor.allOutcomes self world 0 batches).
  exists batches.
  exists (ParallelDocumentProcessor.processBatches self world 0 batches
            ParallelDocumentProcessor.emptyResults).
  destruct (processBatches_all self world 0 batches
              ParallelDocumentProcessor.emptyResults) as (He & Hf & Hp & Hs).
  fold outcomes in He, Hf, Hp, Hs. simpl in He, Hf, Hp, Hs.
  assert (Hpaths : map fst outcomes = documentPaths).
  { unfold outcomes. by rewrite allOutcomes_paths. }
  assert (Hcount : length outcomes = N).
  { unfold N. by rewrite <- Hpaths, length_map. }
  assert (Hpart : length (List.filter ParallelDocumentProcessor.succeeded outcomes)
                  + length (List.filter ParallelDocumentProcessor.notSucceeded outcomes) = length outcomes)
    by apply (filter_partition_length ParallelDocumentProcessor.succeeded).
  split; [done|]. split; [by rewrite <- (length_map length), Hlen, batchSizes_length|].
  split; [done|]. split; [done|]. split; [done|].
  split; [unfold ParallelDocumentProcessor.processDocuments; fold B; by rewrite Hc|].
  split; [|split].
  - fold outcomes. cbv zeta. split; [done|]. split; [done|]. split; [|by split].
    intros k batch j path Hk Hj. unfold outcomes.
    rewrite (allOutcomes_lookup self world B 0 batches k batch j path); [done| |done|done].
    intros i b Hi Hlt. by apply (batchSizes_full batches (length documentPaths) B i b).
  - rewrite He, Hf, !length_map. lia.
  - rewrite Hp, Hs. lia.
Qed.

(** ** Embedding stage and vector payloads *)

Section EmbedderProps.
Import ParallelGeminiEmbedder ParallelQdrant.

Lemma embedIndividually_no_null single textBatch :
  Forall is_Some (embedIndividually single textBatch).
Proof.
  unfold embedIndividually. apply Forall_forall. intros e He.
  apply list_elem_of_In, List.filter_In in He as [_ He].
  destruct e; [eauto|discriminate].
Qed.

Lemma embedBatch_from_no_null remaining p textBatch batchIndex attempt :
  Forall is_Some (embedBatch_from remaining p textBatch batchIndex attempt).
Proof.
  revert attempt. induction remaining as [|r IH]; intros attempt; simpl;
    destruct (batchEmbedContents p batchIndex attempt textBatch) as [vs|].
  - apply Forall_fmap, Forall_true. simpl. eauto.
  - apply embedIndividually_no_null.
  - apply Forall_fmap, Forall_true. simpl. eauto.
  - apply IH.
Qed.

(** [embedChunks] always returns, and its array never holds a [null]:
    a chunk that could not be embedded leaves no entry at all. *)
Lemma embedChunks_no_null p textChunks :
  exists vectors, embedChunks p textChunks = Some vectors
                  /\ Forall is_Some vectors.
Proof.
  unfold embedChunks. destruct (length textChunks =? 0); [by exists []|].
  destruct (chunkArray_spec textChunks maxBatchSize) as (batches & -> & _);
    [unfold maxBatchSize; lia|].
  simpl. eexists. split; [done|].
  apply Forall_concat.
  assert (H : forall f : nat -> list string -> list (option (list Q)),
             (forall i b, Forall is_Some (f i b)) ->
             Forall (Forall is_Some) (imap f batches)).
  { induction batches as [|b bs IH]; intros f Hf; [constructor|].
    simpl. constructor; [apply Hf|]. apply IH. intros i b'. apply Hf. }
  apply H. intros i b. apply embedBatch_from_no_null.
Qed.

(** The payload written next to the [i]-th returned vector is the
    [i]-th chunk of the splitter's output. *)
Lemma prepare_payload w meta textChunks vectorValues i dim records dim' j r :
  prepare w meta textChunks vectorValues i dim = Some (records, dim') ->
  records !! j = Some r ->
  vector r = vectorValues !!! j /\ Some (vector r) = vectorValues !! j /\
  payload_text r = textChunks !! (i + j).
Proof.
  revert i dim records dim' j.
  induction vectorValues as [|v vs IH]; intros i dim records dim' j H Hj; simpl in H.
  - injection H as <- <-. by rewrite lookup_nil in Hj.
  - destruct (match dim with Some (S d) => _ | _ => _ end) as [dim1|];
      simpl in H; [|discriminate].
    destruct (prepare w meta textChunks vs (S i) dim1) as [[recs d2]|] eqn:E;
      simpl in H; [|discriminate].
    injection H as <- <-. destruct j as [|j]; simpl in Hj.
    + injection Hj as <-. simpl. by rewrite Nat.add_0_r.
    + destruct (IH _ _ _ _ _ E Hj) as (H1 & H2 & H3).
      split_and!; [done|done|]. rewrite H3. f_equal. lia.
Qed.
End EmbedderProps.

(** C2.  On the two-chunk document whose batch request is refused at all
    three attempts and whose first chunk fails on its own, [embedChunks]
    returns a one-element array holding the second chunk's vector: the
    result is shorter than the input and has no [null] in the first
    chunk's place. *)
Theorem embedChunks_drops_failed_chunks :
  ParallelGeminiEmbedder.embedChunks EmbeddingScenarios.flaky
    [EmbeddingScenarios.chunk1; EmbeddingScenarios.chunk2]
  = Some [Some EmbeddingScenarios.vector2]
  /\ ParallelGeminiEmbedder.embedIndividually
       (ParallelGeminiEmbedder.embedContent EmbeddingScenarios.flaky 0)
       [EmbeddingScenarios.chunk1; EmbeddingScenarios.chunk2]
     = [Some EmbeddingScenarios.vector2]
  /\ [Some EmbeddingScenarios.vector2]
     <> [None; Some EmbeddingScenarios.vector2].
Proof. split_and!; [reflexivity | reflexivity | discriminate]. Qed.

(** C1.  On the same document [addDocumentToNamespace] reports success
    and upserts one point whose vector is the embedding the provider gave
    for the second chunk, with the text of the first chunk (which the
    provider refused) as its payload. *)
Theorem payload_text_misaligned_after_failed_chunk :
  ParallelQdrant.addDocumentToNamespace EmbeddingScenarios.world
    EmbeddingScenarios.document false
  = {| ParallelQdrant.vectorized := true;
       ParallelQdrant.error := None;
       ParallelQdrant.upserted :=
         Some [ {| ParallelQdrant.id := "id-0";
                   ParallelQdrant.vector := Some EmbeddingScenarios.vector2;
                   ParallelQdrant.payload_text := Some EmbeddingScenarios.chunk1;
                   ParallelQdrant.payload_meta := [("title", "Lease")] |} ] |}
  /\ ParallelGeminiEmbedder.embedContent EmbeddingScenarios.flaky 0 1
       EmbeddingScenarios.chunk2
     = ParallelGeminiEmbedder.Resolved EmbeddingScenarios.vector2
  /\ ParallelGeminiEmbedder.embedContent EmbeddingScenarios.flaky 0 0
       EmbeddingScenarios.chunk1
     = ParallelGeminiEmbedder.Rejected "400 Invalid content"
  /\ EmbeddingScenarios.chunk1 <> EmbeddingScenarios.chunk2.
Proof. split_and!; [vm_compute; reflexivity | reflexivity | reflexivity | discriminate]. Qed.

(** ** Deduplication *)

Section DedupProps.
Import HybridSearchManager.

(** The candidates kept by the loop have pairwise different keys, none
    of which was seen before. *)
Lemma deduplicate_loop_keys results seen :
  Forall (fun r => seen !! dedupKey r = None) (deduplicate_loop results seen)
  /\ NoDup (map dedupKey (deduplicate_loop results seen)).
Proof.
  revert seen. induction results as [|r results IH]; intros seen; simpl.
  - split; constructor.
  - destruct (seen !! dedupKey r) eqn:E; [apply IH|].
    destruct (IH (<[dedupKey r := true]> seen)) as [Hall Hnd].
    assert (Hne : Forall (fun r' => dedupKey r' <> dedupKey r /\
                                    seen !! dedupKey r' = None)
                         (deduplicate_loop results (<[dedupKey r := true]> seen))).
    { eapply Forall_impl; [exact Hall|]. intros r' Hr'. simpl in Hr'.
      destruct (decide (dedupKey r = dedupKey r')) as [Heq|Hneq].
      - rewrite Heq, lookup_insert_eq in Hr'. discriminate.
      - rewrite lookup_insert_ne in Hr' by done. split; [congruence|done]. }
    split.
    + constructor; [done|]. eapply Forall_impl; [exact Hne|]. by intros ? [_ ?].
    + simpl. constructor; [|done]. intros Hin.
      apply list_elem_of_fmap in Hin as (r' & Hk & Hin).
      rewrite Forall_forall in Hne. destruct (Hne _ Hin) as [Hd _]. congruence.
Qed.

(** A list whose keys are pairwise different and unseen passes the loop
    unchanged. *)
Lemma deduplicate_loop_fixed results seen :
  NoDup (map dedupKey results) ->
  Forall (fun r => seen !! dedupKey r = None) results ->
  deduplicate_loop results seen = results.
Proof.
  revert seen. induction results as [|r results IH]; intros seen Hnd Hall; [done|].
  simpl in *. apply NoDup_cons in Hnd as [Hnotin Hnd].
  apply Forall_cons in Hall as [Hr Hall]. rewrite Hr. f_equal.
  apply IH; [done|]. rewrite Forall_forall in Hall |- *. intros r' Hin.
  rewrite lookup_insert_ne; [by apply Hall|].
  intros Heq. apply Hnotin. rewrite Heq. apply list_elem_of_fmap. eauto.
Qed.

(** Only the first 200 characters of a text enter its hash. *)
Lemma hashText_prefix c s :
  hashText (String c s) = hashText (JS.substring0 200 (String c s)).
Proof.
  assert (H : forall n t, JS.substring0 n (JS.substring0 n t) = JS.substring0 n t).
  { induction n as [|n IH]; intros [|a t]; simpl; try done. by rewrite IH. }
  unfold hashText. rewrite H. reflexivity.
Qed.
End DedupProps.

(** C9.  Deduplication is idempotent: running [deduplicateResults] on its
    own output returns that output unchanged, for every candidate list.
    The key is the document id ([docId || id]) joined to the hash of the
    first 200 characters of the text, lower-cased and trimmed. *)
Theorem deduplicateResults_idempotent (X : list HybridSearchManager.Candidate) :
  HybridSearchManager.deduplicateResults (HybridSearchManager.deduplicateResults X)
  = HybridSearchManager.deduplicateResults X.
Proof.
  unfold HybridSearchManager.deduplicateResults.
  destruct (deduplicate_loop_keys X ∅) as [Hall Hnd].
  by apply deduplicate_loop_fixed.
Qed.

(** ** Tokenisation *)

Section TokenizeProps.
Import BM25.

Lemma lowerChar_not_upper c : JS.isUpper (JS.lowerChar c) = false.
Proof. destruct c as [[] [] [] [] [] [] [] []]; reflexivity. Qed.

Lemma toLowerCase_no_upper text :
  Forall (fun c => JS.isUpper c = false)
         (list_ascii_of_string (JS.toLowerCase text)).
Proof.
  induction text as [|c text IH]; simpl; constructor;
    [apply lowerChar_not_upper | exact IH].
Qed.

Lemma span_app p s taken rest : span p s = (taken, rest) -> s = taken ++ rest.
Proof.
  revert taken rest. induction s as [|c s IH]; intros taken rest H; simpl in H.
  - by injection H as <- <-.
  - destruct (p c); [|by injection H as <- <-].
    destruct (span p s) as [a b']. injection H as <- <-.
    simpl. f_equal. by apply IH.
Qed.

(** The citation pattern asks for a capital letter: it matches nowhere
    in a text without capital letters. *)
Lemma matchCitation_needs_upper s :
  Forall (fun c => JS.isUpper c = false) s -> matchCitation s = None.
Proof.
  intros Hs. unfold matchCitation.
  destruct (span JS.isDigit s) as [d1 r1] eqn:E1.
  destruct (isEmpty d1); [done|].
  destruct (span JS.isSpace r1) as [w1 r2] eqn:E2.
  destruct (isEmpty w1); [done|].
  destruct r2 as [|c r3]; [done|].
  apply span_app in E1, E2. subst s r1.
  rewrite !Forall_app in Hs. destruct Hs as (_ & _ & Hc).
  apply Forall_cons in Hc as [Hc _]. by rewrite Hc.
Qed.

Lemma replaceAll_no_match m (P : ascii -> Prop) s :
  (forall t, Forall P t -> m t = None) -> Forall P s -> replaceAll m s 0 = s.
Proof.
  intros Hm. induction s as [|c s IH]; intros Hs; [done|].
  simpl. rewrite (Hm _ Hs). f_equal. apply IH.
  by apply Forall_cons in Hs as [_ Hs].
Qed.

(** Since [tokenize] lower-cases the text first, the citation
    replacement never changes it. *)
Lemma citation_replacement_idle text :
  replaceAll matchCitation (list_ascii_of_string (JS.toLowerCase text)) 0
  = list_ascii_of_string (JS.toLowerCase text).
Proof.
  apply (replaceAll_no_match _ (fun c => JS.isUpper c = false)).
  - apply matchCitation_needs_upper.
  - apply toLowerCase_no_upper.
Qed.
End TokenizeProps.

(** C4.  [tokenize] turns ["Section 42(a)"] into the single token
    [section_42_a], but it splits a citation: ["123 U.S. 456"] gives the
    two tokens [123] and [456], and ["123 Cal. 456"] the three tokens
    [123], [cal], [456].  The citation pattern needs a capital letter and
    is applied after lower-casing, so it rewrites no text at all. *)
Theorem tokenize_splits_citations :
  BM25.tokenize "Section 42(a)" = ["section_42_a"]%string /\
  BM25.tokenize "123 U.S. 456" = ["123"; "456"]%string /\
  BM25.tokenize "123 Cal. 456" = ["123"; "cal"; "456"]%string /\
  (forall text,
     BM25.replaceAll BM25.matchCitation
       (list_ascii_of_string (JS.toLowerCase text)) 0
     = list_ascii_of_string (JS.toLowerCase text)) /\
  BM25.replaceAll BM25.matchCitation (list_ascii_of_string "123 Cal. 456") 0
  = list_ascii_of_string "123_Cal._456".
Proof.
  split_and!; [reflexivity | reflexivity | reflexivity | | reflexivity].
  apply citation_replacement_idle.
Qed.

(** ** Score normalisation *)

Section NormalizeProps.
Import BM25.

Lemma maxOf_zeros (xs : list Q) :
  Forall (fun x => x = 0%Q) xs -> maxOf 0%Q xs = 0%Q.
Proof.
  unfold maxOf. induction xs as [|x xs IH]; intros H; [done|].
  apply Forall_cons in H as [-> H]. simpl. by apply IH.
Qed.

(** On objects without a [bm25Score] property every score reads as 0,
    the maximum is 0 and [normalizeScores] returns its argument. *)
Lemma normalizeScores_unscored {A} `{Scored A} (results : list A) :
  Forall (fun r => getScore r = None) results ->
  normalizeScores results = results.
Proof.
  intros Hall. unfold normalizeScores.
  assert (Hz : Forall (fun x => x = 0%Q)
                      (map (fun r => JS.orQ (getScore r) 0%Q) results)).
  { apply Forall_fmap. eapply Forall_impl; [exact Hall|].
    intros r Hr. simpl. by rewrite Hr. }
  destruct (map _ results) as [|x xs]; [done|].
  apply Forall_cons in Hz as [-> Hz]. by rewrite (maxOf_zeros xs Hz).
Qed.

Lemma insertHit_Forall (P : Hit -> Prop) x sorted :
  P x -> Forall P sorted -> Forall P (insertHit x sorted).
Proof.
  intros Hx. induction sorted as [|y rest IH]; intros Hs; simpl.
  - by constructor.
  - destruct (Qle_bool _ _); [by constructor|].
    apply Forall_cons in Hs as [Hy Hs]. constructor; auto.
Qed.

Lemma sortHits_Forall (P : Hit -> Prop) hits :
  Forall P hits -> Forall P (sortHits hits).
Proof.
  unfold sortHits. induction hits as [|h hits IH]; intros H; simpl; [done|].
  apply Forall_cons in H as [Hh H]. apply insertHit_Forall; auto.
Qed.

(** The hits built by [search] carry no [bm25Score] property. *)
Lemma search_unscored self query topK hits :
  search self query topK = Some hits ->
  Forall (fun h => getScore h = None) hits.
Proof.
  unfold search. destruct (scoreAll self (tokenize query)) as [all|] eqn:E;
    simpl; [|discriminate].
  intros H. injection H as <-. apply Forall_take, sortHits_Forall.
  unfold scoreAll in E. apply mapM_Some in E.
  induction E as [|i h rest hs Hh _ IH]; constructor; [|exact IH].
  destruct (scoreDocument self i _); simpl in Hh; [|discriminate].
  destruct (documents self !! i); simpl in Hh; [|discriminate].
  by injection Hh as <-.
Qed.

(** [performBM25Search] hands out the raw scores of [search]: the
    normalisation step reads a property the hits do not have. *)
Lemma performBM25Search_raw log allDocs query topN hits :
  allDocs <> [] ->
  search (constructor log allDocs
            {| opt_k1 := Some (3 # 2)%Q; opt_b := Some (3 # 4)%Q |}) query topN
  = Some hits ->
  HybridSearchManager.performBM25Search log allDocs query topN
  = map HybridSearchManager.tagHit hits
  /\ map bm25Score (HybridSearchManager.performBM25Search log allDocs query topN)
     = map (fun h => Some (score h)) hits.
Proof.
  intros Hne Hs. unfold HybridSearchManager.performBM25Search.
  destruct allDocs as [|d ds]; [done|]. cbn [length Nat.eqb].
  rewrite Hs, (normalizeScores_unscored hits (search_unscored _ _ _ _ Hs)).
  split; [done|]. by rewrite map_map.
Qed.
Lemma Qmax_ge_l x y : (x <= BM25.Qmax x y)%Q.
Proof.
  unfold Qmax. destruct (Qle_bool x y) eqn:E; [by apply Qle_bool_iff|apply Qle_refl].
Qed.

Lemma Qmax_ge_r x y : (y <= BM25.Qmax x y)%Q.
Proof.
  unfold Qmax. destruct (Qle_bool x y) eqn:E; [apply Qle_refl|].
  destruct (Qlt_le_dec y x) as [H|H]; [by apply Qlt_le_weak|].
  apply Qle_bool_iff in H. congruence.
Qed.

Lemma maxOf_ge x xs : Forall (fun y => (y <= maxOf x xs)%Q) (x :: xs).
Proof.
  unfold maxOf. revert x. induction xs as [|y ys IH]; intros x; simpl.
  - constructor; [apply Qle_refl|constructor].
  - specialize (IH (Qmax x y)). apply Forall_cons in IH as [Hm Hys].
    constructor; [|constructor; [|done]].
    + eapply Qle_trans; [apply Qmax_ge_l|exact Hm].
    + eapply Qle_trans; [apply Qmax_ge_r|exact Hm].
Qed.

(** What [normalizeScores] does on objects that do carry a [bm25Score]
    (those of [scoreDocuments]): non-negative scores come out in the unit
    interval. *)
Lemma normalizeScores_unit_interval (results : list Document) :
  Forall (fun r => (0 <= JS.orQ (bm25Score r) 0)%Q) results ->
  Forall (fun r => (0 <= JS.orQ (bm25Score r) 0 <= 1)%Q) (normalizeScores results).
Proof.
  intros Hpos. unfold normalizeScores.
  destruct (map _ results) as [|x xs] eqn:E; [by destruct results|].
  pose proof (maxOf_ge x xs) as Hmax. rewrite <- E in Hmax.
  rewrite Forall_fmap in Hmax. simpl in Hmax.
  set (m := maxOf x xs) in *.
  assert (Hboth : Forall (fun r => (0 <= JS.orQ (bm25Score r) 0 <= m)%Q) results).
  { rewrite Forall_forall in Hpos, Hmax |- *. intros r Hr.
    split; [by apply Hpos|by apply Hmax]. }
  assert (Hm0 : (0 <= m)%Q).
  { destruct results as [|r rs]; [discriminate|].
    apply Forall_cons in Hboth as [[H1 H2] _]. by eapply Qle_trans. }
  destruct (Qeq_bool m 0) eqn:Em.
  - apply Qeq_bool_iff in Em. eapply Forall_impl; [exact Hboth|].
    intros r [H1 H2]. simpl in *. split; [done|]. rewrite Em in H2.
    eapply Qle_trans; [exact H2|]. discriminate.
  - assert (Hmpos : (0 < m)%Q).
    { destruct (Qlt_le_dec 0 m) as [H|H]; [done|].
      assert (Hz : (m == 0)%Q) by (by apply Qle_antisym).
      apply Qeq_bool_iff in Hz. congruence. }
    apply Forall_fmap. eapply Forall_impl; [exact Hboth|].
    intros r [H1 H2]. simpl.
    set (q := (JS.orQ (bm25Score r) 0 / m)%Q).
    assert (Hq : (0 <= q <= 1)%Q).
    { unfold q. split.
      - apply Qle_shift_div_l; [done|]. by rewrite Qmult_0_l.
      - apply Qle_shift_div_r; [done|]. by rewrite Qmult_1_l. }
    destruct (Qeq_bool q 0); [split; discriminate|done].
Qed.
End NormalizeProps.

(** C3.  On the four-document corpus and the query ["bail"], whenever
    [Math.log] gives more than 1 at the inverse document frequency of the
    term (the natural logarithm gives about 1.204), [performBM25Search]
    returns the bm25Score of the matching document unchanged, a value
    above 1: the scores of the keyword path are not divided by their
    maximum. *)
Theorem bm25_scores_not_normalized (log : Q -> Q) :
  (1 < BM25.idfOf log 4 1)%Q ->
  map BM25.bm25Score
      (HybridSearchManager.performBM25Search log SearchScenarios.corpus "bail" 20)
  = [Some (SearchScenarios.bailScore log); Some 0%Q; Some 0%Q; Some 0%Q]
  /\ (1 < SearchScenarios.bailScore log)%Q.
Proof.
  intros Hlog.
  assert (Hs : (SearchScenarios.bailScore log == BM25.idfOf log 4 1)%Q).
  { unfold SearchScenarios.bailScore.
    set (x := BM25.idfOf log 4 1).
    set (c := (BM25.ofNat 1 * ((3 # 2) + 1) / _)%Q).
    assert (Hc : (c == 1)%Q) by reflexivity.
    rewrite Hc. ring. }
  split; [|by rewrite Hs].
  set (hits :=
    [ {| BM25.index := 0; BM25.score := SearchScenarios.bailScore log;
         BM25.document := SearchScenarios.plain "bail"; BM25.hit_bm25Score := None |};
      {| BM25.index := 1; BM25.score := 0%Q;
         BM25.document := SearchScenarios.plain "appeal"; BM25.hit_bm25Score := None |};
      {| BM25.index := 2; BM25.score := 0%Q;
         BM25.document := SearchScenarios.plain "appeal"; BM25.hit_bm25Score := None |};
      {| BM25.index := 3; BM25.score := 0%Q;
         BM25.document := SearchScenarios.plain "appeal"; BM25.hit_bm25Score := None |} ]).
  destruct (performBM25Search_raw log SearchScenarios.corpus "bail" 20 hits)
    as [_ ->]; [done| |reflexivity].
  unfold BM25.search. change (BM25.tokenize "bail") with ["bail"%string].
  assert (Hall : BM25.scoreAll
                   (BM25.constructor log SearchScenarios.corpus
                      {| BM25.opt_k1 := Some (3 # 2)%Q; BM25.opt_b := Some (3 # 4)%Q |})
                   ["bail"%string] = Some hits) by reflexivity.
  rewrite Hall. cbn [mbind option_bind]. f_equal.
  unfold hits, BM25.sortHits. cbn [foldr BM25.insertHit BM25.score].
  assert (Hle : Qle_bool (0 - SearchScenarios.bailScore log) 0 = true).
  { apply Qle_bool_iff. rewrite Hs. lra. }
  do 2 (change (Qle_bool (0 - 0) 0) with true; cbn [BM25.insertHit BM25.score]).
  rewrite Hle. reflexivity.
Qed.

(** The same run with a rational stand-in for the logarithm. *)
Lemma bm25_scores_not_normalized_witness :
  map BM25.bm25Score
      (HybridSearchManager.performBM25Search SearchScenarios.logLowerBound
         SearchScenarios.corpus "bail" 20)
  = [Some (SearchScenarios.bailScore SearchScenarios.logLowerBound);
     Some 0%Q; Some 0%Q; Some 0%Q]
  /\ (1 < SearchScenarios.bailScore SearchScenarios.logLowerBound)%Q.
Proof.
  apply (bm25_scores_not_normalized SearchScenarios.logLowerBound).
  vm_compute. reflexivity.
Defined.

(** ** BM25 scoring *)

Section ScoreProps.
Import BM25.
Local Open Scope Q_scope.

Lemma ofNat_nonneg n : 0 <= ofNat n.
Proof.
  unfold ofNat. change 0 with (inject_Z 0). rewrite <- Zle_Qle. lia.
Qed.

Lemma ofNat_le n m : (n <= m)%nat -> ofNat n <= ofNat m.
Proof. intros H. unfold ofNat. rewrite <- Zle_Qle. lia. Qed.

Lemma Qdiv_nonneg x y : 0 <= x -> 0 <= y -> 0 <= x / y.
Proof.
  intros Hx Hy. unfold Qdiv. apply Qmult_le_0_compat; [done|].
  by apply Qinv_le_0_compat.
Qed.

(** *** Document frequencies never exceed the number of documents *)

Lemma increment_lookup key m t :
  default 0%nat (increment key m !! t)
  = if decide (key = t) then S (default 0%nat (m !! t)) else default 0%nat (m !! t).
Proof.
  unfold increment. destruct (decide (key = t)) as [->|Hne].
  - rewrite lookup_insert_eq. simpl. lia.
  - by rewrite lookup_insert_ne.
Qed.

Lemma countDocument_lookup termFreq tdf t :
  default 0%nat (countDocument termFreq tdf !! t)
  = match termFreq !! t with
    | Some _ => S (default 0%nat (tdf !! t))
    | None => default 0%nat (tdf !! t)
    end.
Proof.
  unfold countDocument.
  apply (map_fold_weak_ind
           (fun r (m : gmap string nat) =>
              default 0%nat (r !! t)
              = match m !! t with
                | Some _ => S (default 0%nat (tdf !! t))
                | None => default 0%nat (tdf !! t)
                end)).
  - by rewrite lookup_empty.
  - intros i x m r Hi IH. rewrite increment_lookup.
    destruct (decide (i = t)) as [->|Hne].
    + rewrite lookup_insert_eq. rewrite Hi in IH. by rewrite IH.
    + by rewrite lookup_insert_ne.
Qed.

Lemma firstPass_spec docs tdf :
  let '(lengths, freqs, tdf') := firstPass docs tdf in
  length lengths = length docs /\ length freqs = length docs /\
  forall t, (default 0%nat (tdf' !! t) <= default 0%nat (tdf !! t) + length docs)%nat.
Proof.
  revert tdf. induction docs as [|d docs IH]; intros tdf; simpl.
  - split_and!; [done|done|]. intros t. lia.
  - specialize (IH (countDocument (countTerms (tokenize (getDocumentText d))) tdf)).
    destruct (firstPass docs _) as [[lengths freqs] tdf'].
    destruct IH as (Hl & Hf & Hb). simpl. split_and!; [lia|lia|].
    intros t. specialize (Hb t). rewrite countDocument_lookup in Hb.
    destruct (countTerms _ !! t); lia.
Qed.

Section WithLog.
Variable log : Q -> Q.
Hypothesis log_nonneg : forall x, 1 <= x -> 0 <= log x.

Lemma idfOf_nonneg N df : (df <= N)%nat -> 0 <= idfOf log N df.
Proof.
  intros H. unfold idfOf. apply log_nonneg.
  pose proof (ofNat_le _ _ H). pose proof (ofNat_nonneg df).
  assert (0 <= (ofNat N - ofNat df + (1 # 2)) / (ofNat df + (1 # 2))).
  { apply Qdiv_nonneg; lra. }
  lra.
Qed.

(** Every inverse document frequency stored by [constructor] is
    non-negative. *)
Lemma constructor_idf_nonneg docs options t :
  0 <= default 0 (idf (constructor log docs options) !! t).
Proof.
  unfold constructor. destruct (0 <? length docs)%nat; simpl;
    [|rewrite lookup_empty; simpl; lra].
  unfold buildIndex. pose proof (firstPass_spec docs ∅) as Hfp.
  destruct (firstPass docs ∅) as [[lengths freqs] tdf]. simpl.
  destruct Hfp as (_ & _ & Hb). specialize (Hb t).
  rewrite lookup_fmap. rewrite lookup_empty in Hb. simpl in Hb.
  destruct (tdf !! t) as [df|]; simpl in *; [|lra].
  apply idfOf_nonneg. lia.
Qed.

Lemma constructor_avg_nonneg docs options :
  0 <= avgDocLength (constructor log docs options).
Proof.
  unfold constructor. destruct (0 <? length docs)%nat; simpl; [|lra].
  unfold buildIndex. destruct (firstPass docs ∅) as [[lengths freqs] tdf]. simpl.
  apply Qdiv_nonneg; apply ofNat_nonneg.
Qed.

Lemma constructor_lengths docs options :
  length (documentLengths (constructor log docs options)) = length docs /\
  length (termFrequencies (constructor log docs options)) = length docs.
Proof.
  unfold constructor. destruct (0 <? length docs)%nat eqn:E; simpl.
  - unfold buildIndex. pose proof (firstPass_spec docs ∅) as Hfp.
    destruct (firstPass docs ∅) as [[lengths freqs] tdf]. simpl. tauto.
  - apply Nat.ltb_ge in E. split; lia.
Qed.
End WithLog.

(** *** One more occurrence of a term never lowers the score *)

Section Monotone.
Variable self : t.
Hypothesis k1_nonneg : 0 <= k1 self.
Hypothesis b_range : 0 <= b self <= 1.
Hypothesis avg_nonneg : 0 <= avgDocLength self.
Hypothesis idf_nonneg : forall t, 0 <= default 0 (idf self !! t).

(** What a query term present [tf >= 1] times adds to a score. *)
Lemma contribution_nonneg (tf docLength : nat) term :
  (1 <= tf)%nat ->
  0 <= default 0 (idf self !! term)
       * (ofNat tf * (k1 self + 1)
          / (ofNat tf
             + k1 self * (1 - b self + b self * (ofNat docLength / avgDocLength self)))).
Proof.
  intros Htf. pose proof (ofNat_le 1 tf Htf) as H1.
  change (ofNat 1) with 1 in H1.
  pose proof (Qdiv_nonneg _ _ (ofNat_nonneg docLength) avg_nonneg) as Hr.
  set (r := ofNat docLength / avgDocLength self) in *.
  assert (Hbr : 0 <= b self * r) by (apply Qmult_le_0_compat; tauto).
  assert (Hk : 0 <= k1 self * (1 - b self + b self * r)).
  { apply Qmult_le_0_compat; [done|]. lra. }
  apply Qmult_le_0_compat; [apply idf_nonneg|].
  apply Qle_shift_div_l; [lra|]. rewrite Qmult_0_l.
  apply Qmult_le_0_compat; lra.
Qed.

Lemma score_monotone docLength (termFreq : gmap string nat) term k queryTokens :
  (1 <= k)%nat ->
  forall a a', a <= a' ->
    foldl (addTerm self docLength (delete term termFreq)) a queryTokens
    <= foldl (addTerm self docLength (<[term := k]> termFreq)) a' queryTokens.
Proof.
  intros Hk. induction queryTokens as [|q qs IH]; intros a a' Ha; simpl; [done|].
  apply IH. unfold addTerm. destruct (decide (q = term)) as [->|Hne].
  - rewrite lookup_delete_eq, lookup_insert_eq. simpl.
    destruct (k =? 0)%nat eqn:E; [apply Nat.eqb_eq in E; lia|].
    pose proof (contribution_nonneg k docLength term Hk). lra.
  - rewrite lookup_delete_ne, lookup_insert_ne by done.
    destruct (default 0%nat (termFreq !! q) =? 0)%nat; [done|]. lra.
Qed.
End Monotone.
End ScoreProps.

Lemma withTermCount_lookup self docIndex term k termFreq :
  BM25.termFrequencies self !! docIndex = Some termFreq ->
  BM25.termFrequencies (BM25.withTermCount self docIndex term k) !! docIndex
  = Some (if k =? 0 then delete term termFreq else <[term := k]> termFreq).
Proof.
  intros H. unfold BM25.withTermCount. cbn [BM25.termFrequencies].
  by rewrite list_lookup_alter_eq, H.
Qed.

Lemma logLowerBound_nonneg x : (1 <= x -> 0 <= SearchScenarios.logLowerBound x)%Q.
Proof.
  intros H. unfold SearchScenarios.logLowerBound.
  apply Qdiv_nonneg; [|lra].
  apply Qmult_le_0_compat; lra.
Qed.

(** C8.  In an index built by [constructor] with [k1 >= 0] and
    [0 <= b <= 1] over a corpus that has at least one token (so that the
    length ratio [docLength / avgDocLength] is a quotient of numbers), and
    with a [Math.log] that is non-negative from 1 on, take any indexed
    document and any query: with the count of one term set to [k >= 1],
    the document's length, its other counts and the rest of the index
    left as they are, [scoreDocument] gives at least the score it gives
    with that term absent. *)
Theorem bm25_score_monotone_in_term_frequency
    (log : Q -> Q) (docs : list BM25.Document) (options : BM25.Options)
    (docIndex : nat) (term : string) (k : nat) (queryTokens : list string) :
  (forall x, 1 <= x -> 0 <= log x)%Q ->
  (0 <= BM25.k1 (BM25.constructor log docs options))%Q ->
  (0 <= BM25.b (BM25.constructor log docs options) <= 1)%Q ->
  (0 < BM25.avgDocLength (BM25.constructor log docs options))%Q ->
  docIndex < length docs ->
  1 <= k ->
  exists s0 sk,
    BM25.scoreDocument
      (BM25.withTermCount (BM25.constructor log docs options) docIndex term 0)
      docIndex queryTokens = Some s0 /\
    BM25.scoreDocument
      (BM25.withTermCount (BM25.constructor log docs options) docIndex term k)
      docIndex queryTokens = Some sk /\
    (s0 <= sk)%Q.
Proof.
  intros Hlog Hk1 Hb Havg Hi Hk.
  set (self := BM25.constructor log docs options) in *.
  destruct (constructor_lengths log docs options) as [Hl Hf]. fold self in Hl, Hf.
  destruct (lookup_lt_is_Some_2 (BM25.documentLengths self) docIndex) as [dl Hdl]; [lia|].
  destruct (lookup_lt_is_Some_2 (BM25.termFrequencies self) docIndex) as [tfm Htf]; [lia|].
  unfold BM25.scoreDocument.
  rewrite !(withTermCount_lookup self docIndex term _ tfm Htf).
  change (BM25.documentLengths (BM25.withTermCount self docIndex term 0))
    with (BM25.documentLengths self).
  change (BM25.documentLengths (BM25.withTermCount self docIndex term k))
    with (BM25.documentLengths self).
  rewrite Hdl. cbn [mbind option_bind].
  destruct (k =? 0) eqn:E; [apply Nat.eqb_eq in E; lia|]. cbn [Nat.eqb].
  eexists _, _. split_and!; [reflexivity|reflexivity|].
  apply (score_monotone self Hk1 Hb); [| |done|apply Qle_refl].
  - apply constructor_avg_nonneg.
  - intros t. by apply constructor_idf_nonneg.
Qed.

(** Monotonicity on the four-document corpus: the term [bail] three times
    against not at all in the first document. *)
Lemma bm25_score_monotone_in_term_frequency_witness :
  exists s0 sk,
    BM25.scoreDocument
      (BM25.withTermCount
         (BM25.constructor SearchScenarios.logLowerBound SearchScenarios.corpus
            {| BM25.opt_k1 := Some (3 # 2)%Q; BM25.opt_b := Some (3 # 4)%Q |})
         0 "bail" 0)
      0 ["bail"; "appeal"]%string = Some s0 /\
    BM25.scoreDocument
      (BM25.withTermCount
         (BM25.constructor SearchScenarios.logLowerBound SearchScenarios.corpus
            {| BM25.opt_k1 := Some (3 # 2)%Q; BM25.opt_b := Some (3 # 4)%Q |})
         0 "bail" 3)
      0 ["bail"; "appeal"]%string = Some sk /\
    (s0 <= sk)%Q.
Proof.
  apply (bm25_score_monotone_in_term_frequency SearchScenarios.logLowerBound
           SearchScenarios.corpus
           {| BM25.opt_k1 := Some (3 # 2)%Q; BM25.opt_b := Some (3 # 4)%Q |}
           0 "bail" 3 ["bail"; "appeal"]%string).
  - exact logLowerBound_nonneg.
  - vm_compute. discriminate.
  - split; vm_compute; discriminate.
  - vm_compute. reflexivity.
  - simpl. lia.
  - lia.
Defined.

(* ===================================================================== *)
(** * Further properties of the modelled code                             *)
(* ===================================================================== *)

(** ** Key rotation, continued *)

Section RotatorMore.
Import ApiKeyRotator RotatorTrace.

(** Availability reads the cooldown and the disabled set only; a
    selection changes neither. *)
Lemma getNextKey_keeps_usable now self key self' :
  getNextKey now self = Some (key, self') ->
  forall now' j, usable now' self' j <-> usable now' self j.
Proof.
  unfold getNextKey. destruct (getNextKey_index now self) as [[i s1]|] eqn:E;
    simpl; [|discriminate].
  intros H. injection H as _ <-.
  apply getNextKey_index_frame in E as (Hk & Hf & Hr & _).
  intros now' j. unfold usable, isAvailable. rewrite Hk, Hf.
  specialize (Hr j).
  destruct (keyStats s1 !! j) as [st1|], (keyStats self !! j) as [st|];
    simpl in *; try discriminate; [|done].
  injection Hr as Hr. unfold isRateLimited. by rewrite Hr.
Qed.

(** With the key under the cursor usable, [getNextKey] hands it out and
    moves the cursor one place on. *)
Lemma getNextKey_current now self :
  wf self -> usable now self (currentIndex self) ->
  exists self', getNextKey now self
                = Some (apiKeys self !! currentIndex self, self')
    /\ wf self'
    /\ apiKeys self' = apiKeys self
    /\ currentIndex self'
       = (if length (apiKeys self) =? 1 then currentIndex self
          else (currentIndex self + 1) `mod` length (apiKeys self)).
Proof.
  intros [Hc Hs] [_ Ha]. unfold getNextKey, getNextKey_index.
  destruct (length (apiKeys self) =? 1) eqn:E1.
  - apply Nat.eqb_eq in E1. assert (H0 : currentIndex self = 0) by lia.
    rewrite H0. simpl. exists self. split_and!; [done| |done|done].
    split; [lia|done].
  - destruct (length (apiKeys self)) as [|n] eqn:En; [lia|].
    cbn [getNextKey_loop]. unfold isAvailable in Ha.
    destruct (keyStats self !! currentIndex self) as [st|] eqn:Est;
      simpl in Ha; [|discriminate].
    injection Ha as Ha. apply andb_true_iff in Ha as [Hrl Hfl].
    apply negb_true_iff in Hrl, Hfl. simpl. rewrite Hrl, Hfl. simpl.
    eexists. split_and!; [done| |done|].
    + split; simpl.
      * rewrite En. unfold advance. simpl. rewrite En.
        apply Nat.mod_upper_bound. lia.
      * intros j Hj. exact (hasStats_insert self _ _ Hs j Hj).
    + simpl. unfold advance. simpl. by rewrite En.
Qed.

Lemma rotation_shift c n m :
  0 < n -> rotation ((c + 1) `mod` n) n m = map (fun k => (c + S k) `mod` n) (seq 0 m).
Proof.
  intros Hn. unfold rotation. apply map_ext. intros k.
  rewrite Nat.Div0.add_mod_idemp_l. f_equal. lia.
Qed.

Lemma rotation_cons c n m :
  c < n -> rotation c n (S m) = c :: map (fun k => (c + S k) `mod` n) (seq 0 m).
Proof.
  intros Hc. unfold rotation. simpl. rewrite Nat.add_0_r, Nat.mod_small by done.
  f_equal. rewrite <- seq_shift, map_map. done.
Qed.

(** Two positions of one round-robin window of at most [n] steps differ. *)
Lemma rotation_NoDup c n m : 0 < n -> m <= n -> NoDup (rotation c n m).
Proof.
  intros Hn Hm. unfold rotation. apply NoDup_fmap_2_strong; [|apply NoDup_seq].
  intros k1 k2 Hk1 Hk2 Heq.
  apply elem_of_seq in Hk1, Hk2.
  pose proof (Nat.div_mod_eq (c + k1) n). pose proof (Nat.div_mod_eq (c + k2) n).
  rewrite Heq in *. 
  assert ((c + k1) / n = (c + k2) / n) by nia. lia.
Qed.

Lemma map_seq_from {B} (f : nat -> B) a b :
  map f (seq a b) = map (fun k => f (a + k)) (seq 0 b).
Proof.
  revert a. induction b as [|b IH]; intros a; simpl; [done|].
  f_equal; [f_equal; lia|]. rewrite (IH (S a)), <- seq_shift, map_map.
  apply map_ext. intros k. f_equal. lia.
Qed.

Lemma rotation_app c n a b :
  rotation c n (a + b) = rotation c n a ++ rotation (c + a) n b.
Proof.
  unfold rotation. rewrite seq_app, map_app. f_equal. simpl.
  rewrite map_seq_from. apply map_ext. intros k. f_equal. lia.
Qed.

Lemma rotation_period c n m : rotation (c + n) n m = rotation c n m.
Proof.
  unfold rotation. apply map_ext. intros k.
  replace (c + n + k) with (c + k + 1 * n) by lia. apply Nat.Div0.mod_add.
Qed.

(** No position comes up more than [ceil(m / n)] times in [m] steps. *)
Lemma rotation_fair c n m j :
  0 < n ->
  length (List.filter (Nat.eqb j) (rotation c n m)) <= Util.ceilDiv m n.
Proof.
  intros Hn. revert c. induction (lt_wf m) as [m _ IH]. intros c.
  assert (Hone : forall c' m', m' <= n ->
            length (List.filter (Nat.eqb j) (rotation c' n m')) <= 1).
  { intros c' m' Hm'. pose proof (rotation_NoDup c' n m' Hn Hm') as Hnd.
    induction Hnd as [|x l Hx Hnd IHl]; simpl; [lia|].
    destruct (j =? x) eqn:E; [|lia]. apply Nat.eqb_eq in E. subst x. simpl.
    assert (List.filter (Nat.eqb j) l = []) as ->; [|simpl; lia].
    clear -Hx. induction l as [|y l IHl']; simpl; [done|].
    destruct (j =? y) eqn:E; [apply Nat.eqb_eq in E; subst; set_solver|].
    apply IHl'. set_solver. }
  destruct (le_lt_dec m n) as [Hle|Hlt].
  - destruct m as [|m]; [simpl; lia|].
    specialize (Hone c (S m) Hle).
    assert (1 <= Util.ceilDiv (S m) n); [|lia].
    unfold Util.ceilDiv. apply Nat.div_le_lower_bound; lia.
  - replace m with (n + (m - n)) at 1 by lia.
    rewrite rotation_app, List.filter_app, length_app, rotation_period.
    specialize (IH (m - n) ltac:(lia) c). specialize (Hone c n (le_n n)).
    assert (Util.ceilDiv m n = S (Util.ceilDiv (m - n) n)); [|lia].
    unfold Util.ceilDiv. replace (m + n - 1) with ((m - n + n - 1) + 1 * n) by lia.
    rewrite Nat.div_add by lia. lia.
Qed.
Lemma acquireAll_rotation times self :
  wf self ->
  (forall now j, now ∈ times -> j < length (apiKeys self) -> usable now self j) ->
  exists self',
    acquireAll times self
    = Some (map (fun i => apiKeys self !! i)
                (rotation (currentIndex self) (length (apiKeys self)) (length times)),
            self').
Proof.
  revert self. induction times as [|now times IH]; intros self Hw Hall.
  - by exists self.
  - assert (Hc : currentIndex self < length (apiKeys self)) by apply Hw.
    destruct (getNextKey_current now self Hw) as (self1 & E & Hw1 & Hk & Hcur).
    { apply Hall; [apply list_elem_of_here|done]. }
    pose proof (getNextKey_keeps_usable _ _ _ _ E) as Hkeep.
    destruct (IH self1 Hw1) as (self2 & E2).
    { intros now' j Hin Hj. apply Hkeep.
      apply Hall; [by apply list_elem_of_further|]. by rewrite <- Hk. }
    assert (Hnext : currentIndex self1
                    = (currentIndex self + 1) `mod` length (apiKeys self)).
    { rewrite Hcur. destruct (length (apiKeys self) =? 1) eqn:E1; [|done].
      apply Nat.eqb_eq in E1. rewrite E1 in *.
      assert (currentIndex self = 0) as -> by lia. done. }
    exists self2. cbn [acquireAll length]. rewrite E. cbn [mbind option_bind].
    rewrite E2. cbn [mbind option_bind]. rewrite rotation_cons by done.
    rewrite Hk, Hnext, rotation_shift by lia. done.
Qed.
End RotatorMore.

(** X1.  Round-robin order.  On a well-formed rotator whose keys are all
    usable at the times of the calls, [M] successive [getNextKey] calls
    return the keys at the pool positions [c, c+1, ...] modulo the pool
    size, [c] being the cursor at the start; hence no key is handed out
    more than [ceil(M / K)] times for a pool of [K] keys. *)
Theorem getNextKey_round_robin
    (self : ApiKeyRotator.t) (times : list Z) :
  ApiKeyRotator.wf self ->
  (forall now j, now ∈ times -> j < length (ApiKeyRotator.apiKeys self) ->
                 ApiKeyRotator.usable now self j) ->
  let K := length (ApiKeyRotator.apiKeys self) in
  let positions := RotatorTrace.rotation (ApiKeyRotator.currentIndex self) K (length times) in
  exists self',
    RotatorTrace.acquireAll times self
    = Some (map (fun i => ApiKeyRotator.apiKeys self !! i) positions, self') /\
    forall j, length (List.filter (Nat.eqb j) positions)
              <= Util.ceilDiv (length times) K.
Proof.
  intros Hw Hall K positions.
  destruct (acquireAll_rotation times self Hw Hall) as (self' & E).
  exists self'. split; [exact E|].
  intros j. apply rotation_fair. unfold K. destruct Hw. lia.
Qed.

(** Four selections on the fresh three-key pool: A, B, C, A. *)
Lemma getNextKey_round_robin_witness :
  exists self',
    RotatorTrace.acquireAll [1; 2; 3; 4]%Z RotatorScenarios.pool3
    = Some ([Some "A"; Some "B"; Some "C"; Some "A"]%string, self') /\
    forall j, length (List.filter (Nat.eqb j) [0; 1; 2; 0]) <= 2.
Proof.
  apply (getNextKey_round_robin RotatorScenarios.pool3 [1; 2; 3; 4]%Z).
  - apply constructor_wf. vm_compute. discriminate.
  - intros now j _ Hj. split; [done|].
    assert (Hj3 : j < 3) by exact Hj.
    destruct j as [|[|[|j]]]; [reflexivity|reflexivity|reflexivity|lia].
Defined.

(** X2.  Degraded mode.  With two or more keys, none of them usable,
    [getNextKey] returns the key under the round-robin cursor and leaves
    the rotator exactly as it was: no request is counted, no last-used
    time is written and the cursor stays. *)
Theorem getNextKey_degraded_returns_cursor_key
    (self : ApiKeyRotator.t) (now : Z) :
  ApiKeyRotator.wf self ->
  length (ApiKeyRotator.apiKeys self) <> 1 ->
  (forall j, ~ ApiKeyRotator.usable now self j) ->
  exists key,
    ApiKeyRotator.apiKeys self !! ApiKeyRotator.currentIndex self = Some key /\
    ApiKeyRotator.getNextKey now self = Some (Some key, self).
Proof.
  intros Hw Hlen Hno.
  destruct (lookup_lt_is_Some_2 (ApiKeyRotator.apiKeys self)
              (ApiKeyRotator.currentIndex self)) as [key Hkey]; [apply Hw|].
  exists key. split; [done|].
  by rewrite (getNextKey_degraded now self Hw Hlen Hno), Hkey.
Qed.

Lemma exhausted_wf : ApiKeyRotator.wf RotatorScenarios.exhausted.
Proof.
  split; [vm_compute; lia|]. intros j Hj.
  assert (Hj3 : j < 3) by exact Hj.
  destruct j as [|[|[|j]]]; [vm_compute; eauto..|lia].
Qed.

(** The three-key pool with every key cooling down, at time 6. *)
Lemma getNextKey_degraded_returns_cursor_key_witness :
  exists key,
    ApiKeyRotator.apiKeys RotatorScenarios.exhausted
      !! ApiKeyRotator.currentIndex RotatorScenarios.exhausted = Some key /\
    ApiKeyRotator.getNextKey 6 RotatorScenarios.exhausted
    = Some (Some key, RotatorScenarios.exhausted).
Proof.
  apply (getNextKey_degraded_returns_cursor_key RotatorScenarios.exhausted 6).
  - exact exhausted_wf.
  - vm_compute. lia.
  - intros j [Hj Ha]. assert (Hj3 : j < 3) by exact Hj.
    destruct j as [|[|[|j]]]; [vm_compute in Ha; discriminate..|lia].
Defined.

(** X3.  On a well-formed rotator [getNextKey] never throws and never
    returns [undefined]: it returns a key of the pool, keeps the pool,
    the disabled set and the invariant, and, in a pool of two or more
    keys of which some is usable, the key returned is a usable one. *)
Theorem getNextKey_returns_pool_key
    (self : ApiKeyRotator.t) (now : Z) :
  ApiKeyRotator.wf self ->
  exists key self',
    ApiKeyRotator.getNextKey now self = Some (Some key, self') /\
    key ∈ ApiKeyRotator.apiKeys self /\
    ApiKeyRotator.wf self' /\
    ApiKeyRotator.apiKeys self' = ApiKeyRotator.apiKeys self /\
    ApiKeyRotator.failedKeys self' = ApiKeyRotator.failedKeys self /\
    (length (ApiKeyRotator.apiKeys self) <> 1 ->
     (exists j, ApiKeyRotator.usable now self j) ->
     exists i, ApiKeyRotator.usable now self i /\
               ApiKeyRotator.apiKeys self !! i = Some key).
Proof.
  intros Hw. destruct (getNextKey_returns now self Hw) as (key & self' & E).
  exists key, self'. split; [exact E|].
  unfold ApiKeyRotator.getNextKey in E.
  destruct (ApiKeyRotator.getNextKey_index now self) as [[i s1]|] eqn:Ei;
    simpl in E; [|discriminate].
  injection E as Hkey <-.
  destruct (getNextKey_index_frame _ _ _ _ Ei) as (Hk & Hf & _ & Hwf).
  split_and!; [by eapply list_elem_of_lookup_2|by apply Hwf|done|done|].
  intros Hlen (j & Hj).
  destruct (getNextKey_index_usable now self j Hw Hlen Hj) as (i' & s2 & Ei' & Hu).
  rewrite Ei in Ei'. injection Ei' as <- <-. by exists i.
Qed.

(** The three-key pool after three failures of B, at time 10. *)
Lemma getNextKey_returns_pool_key_witness :
  exists key self',
    ApiKeyRotator.getNextKey 10 RotatorCases.shaky = Some (Some key, self') /\
    key ∈ ApiKeyRotator.apiKeys RotatorCases.shaky /\
    ApiKeyRotator.wf self' /\
    ApiKeyRotator.apiKeys self' = ApiKeyRotator.apiKeys RotatorCases.shaky /\
    ApiKeyRotator.failedKeys self' = ApiKeyRotator.failedKeys RotatorCases.shaky /\
    (length (ApiKeyRotator.apiKeys RotatorCases.shaky) <> 1 ->
     (exists j, ApiKeyRotator.usable 10 RotatorCases.shaky j) ->
     exists i, ApiKeyRotator.usable 10 RotatorCases.shaky i /\
               ApiKeyRotator.apiKeys RotatorCases.shaky !! i = Some key).
Proof.
  apply (getNextKey_returns_pool_key RotatorCases.shaky 10).
  split; [vm_compute; lia|]. intros j Hj.
  assert (Hj3 : j < 3) by exact Hj.
  destruct j as [|[|[|j]]]; [vm_compute; eauto..|lia].
Defined.

Section RotatorMarks.
Import ApiKeyRotator RotatorTrace.

Lemma wf_setStats self i st : wf self -> wf (setStats self i st).
Proof. intros [? Hs]. split; [done|]. by apply hasStats_insert. Qed.

(** One [markFailed] on a pool key: the failure count grows by one and
    the key is disabled from the fifth failure on. *)
Lemma markFailed_step self k i st :
  wf self -> indexOf self k = Some i -> keyStats self !! i = Some st ->
  exists self' st',
    markFailed k self = Some self' /\ wf self' /\
    apiKeys self' = apiKeys self /\
    keyStats self' !! i = Some st' /\
    failures st' = S (failures st) /\
    rateLimitUntil st' = rateLimitUntil st /\
    (forall j, j ∈ failedKeys self' <->
               j ∈ failedKeys self \/ (j = i /\ 5 <= S (failures st))).
Proof.
  intros Hw Hi Hst. unfold markFailed. rewrite Hi, Hst. cbn -[Nat.leb].
  set (st' := {| requests := requests st; failures := S (failures st);
                 lastUsed := lastUsed st; rateLimitUntil := rateLimitUntil st |}).
  destruct (5 <=? S (failures st)) eqn:E.
  - apply Nat.leb_le in E.
    exists (setFailed (setStats self i st') ({[i]} ∪ failedKeys self)), st'.
    split_and!; [done| |done| |done|done|].
    + by apply (wf_setStats self).
    + simpl. by rewrite lookup_insert_eq.
    + intros j. simpl. rewrite elem_of_union, elem_of_singleton.
      split; [intros [->|?]; [right|left]; done|].
      intros [?|[-> _]]; [by right|by left].
  - apply Nat.leb_gt in E. exists (setStats self i st'), st'.
    split_and!; [done| |done| |done|done|].
    + by apply wf_setStats.
    + simpl. by rewrite lookup_insert_eq.
    + intros j. simpl. split; [tauto|]. intros [?|[_ ?]]; [done|lia].
Qed.
End RotatorMarks.

(** X4.  Failure threshold.  [n] failure reports in a row on a pool key
    raise its failure count by [n]; the key is in the disabled set
    afterwards exactly when it was there before or the count has reached
    5; its cooldown is not touched. *)
Theorem markFailed_disables_at_five
    (self : ApiKeyRotator.t) (apiKey : ApiKeyRotator.Key) (i : nat)
    (stats : ApiKeyRotator.KeyStats) (n : nat) :
  ApiKeyRotator.wf self ->
  ApiKeyRotator.indexOf self apiKey = Some i ->
  ApiKeyRotator.keyStats self !! i = Some stats ->
  exists self' stats',
    RotatorTrace.run (replicate n (RotatorTrace.MarkFailed apiKey)) self = Some self' /\
    ApiKeyRotator.keyStats self' !! i = Some stats' /\
    ApiKeyRotator.failures stats' = ApiKeyRotator.failures stats + n /\
    ApiKeyRotator.rateLimitUntil stats' = ApiKeyRotator.rateLimitUntil stats /\
    (i ∈ ApiKeyRotator.failedKeys self' <->
     i ∈ ApiKeyRotator.failedKeys self
     \/ (0 < n /\ 5 <= ApiKeyRotator.failures stats + n)).
Proof.
  revert self stats. induction n as [|n IH]; intros self stats Hw Hi Hst.
  - exists self, stats. simpl. split_and!; [done|done|lia|done|].
    split; [tauto|]. intros [?|[? _]]; [done|lia].
  - destruct (markFailed_step self apiKey i stats Hw Hi Hst)
      as (s1 & st1 & E & Hw1 & Hk & Hst1 & Hf & Hr & Hd).
    destruct (IH s1 st1 Hw1) as (s2 & st2 & E2 & Hst2 & Hf2 & Hr2 & Hd2);
      [by unfold ApiKeyRotator.indexOf in *; rewrite Hk|done|].
    exists s2, st2. simpl. rewrite E. simpl.
    split_and!; [done|done|lia|congruence|].
    rewrite Hd2, Hd. split.
    + intros [[?|[_ ?]]|[? ?]]; [by left|right; lia|right; lia].
    + intros [?|[_ ?]]; [by left; left|].
      destruct n as [|n]; [left; right; split; [done|lia]|right; lia].
Qed.

(** Five failures of B on the fresh three-key pool. *)
Lemma markFailed_disables_at_five_witness :
  exists self' stats',
    RotatorTrace.run (replicate 5 (RotatorTrace.MarkFailed "B")) RotatorScenarios.pool3
    = Some self' /\
    ApiKeyRotator.keyStats self' !! 1 = Some stats' /\
    ApiKeyRotator.failures stats' = 0 + 5 /\
    ApiKeyRotator.rateLimitUntil stats' = None /\
    (1 ∈ ApiKeyRotator.failedKeys self' <->
     1 ∈ ApiKeyRotator.failedKeys RotatorScenarios.pool3 \/ (0 < 5 /\ 5 <= 0 + 5)).
Proof.
  apply (markFailed_disables_at_five RotatorScenarios.pool3 "B" 1
           ApiKeyRotator.freshStats 5).
  - apply constructor_wf. vm_compute. discriminate.
  - reflexivity.
  - vm_compute. reflexivity.
Defined.

(** X5.  [markSuccess] on a pool key resets its failure count to 0 and
    takes it out of the disabled set, whatever they were; other keys keep
    their state, and the key is available again as soon as it is not
    cooling down. *)
Theorem markSuccess_reenables
    (self : ApiKeyRotator.t) (apiKey : ApiKeyRotator.Key) (i : nat)
    (stats : ApiKeyRotator.KeyStats) :
  ApiKeyRotator.wf self ->
  ApiKeyRotator.indexOf self apiKey = Some i ->
  ApiKeyRotator.keyStats self !! i = Some stats ->
  exists self' stats',
    ApiKeyRotator.markSuccess apiKey self = Some self' /\
    ApiKeyRotator.wf self' /\
    ApiKeyRotator.keyStats self' !! i = Some stats' /\
    ApiKeyRotator.failures stats' = 0 /\
    (i ∉ ApiKeyRotator.failedKeys self') /\
    (forall j, j <> i ->
       ApiKeyRotator.keyStats self' !! j = ApiKeyRotator.keyStats self !! j /\
       (j ∈ ApiKeyRotator.failedKeys self' <-> j ∈ ApiKeyRotator.failedKeys self)) /\
    (forall now, ApiKeyRotator.isAvailable now self' i
                 = Some (negb (ApiKeyRotator.isRateLimited now stats))).
Proof.
  intros Hw Hi Hst. unfold ApiKeyRotator.markSuccess. rewrite Hi, Hst. simpl.
  set (st' := {| ApiKeyRotator.requests := ApiKeyRotator.requests stats;
                 ApiKeyRotator.failures := 0;
                 ApiKeyRotator.lastUsed := ApiKeyRotator.lastUsed stats;
                 ApiKeyRotator.rateLimitUntil := ApiKeyRotator.rateLimitUntil stats |}).
  exists (ApiKeyRotator.setFailed (ApiKeyRotator.setStats self i st')
            (ApiKeyRotator.failedKeys self ∖ {[i]})), st'.
  split_and!; [done| | |done| | |].
  - by apply (wf_setStats self).
  - simpl. by rewrite lookup_insert_eq.
  - simpl. rewrite elem_of_difference, elem_of_singleton. tauto.
  - intros j Hj. simpl. rewrite lookup_insert_ne by done. split; [done|].
    rewrite elem_of_difference, elem_of_singleton. tauto.
  - intros now. unfold ApiKeyRotator.isAvailable. simpl.
    rewrite lookup_insert_eq. simpl. f_equal.
    rewrite bool_decide_eq_false_2.
    + by rewrite andb_true_r.
    + rewrite elem_of_difference, elem_of_singleton. tauto.
Qed.

(** Key B, three failures behind it, reports a success. *)
Lemma markSuccess_reenables_witness :
  exists self' stats',
    ApiKeyRotator.markSuccess "B" RotatorCases.shaky = Some self' /\
    ApiKeyRotator.wf self' /\
    ApiKeyRotator.keyStats self' !! 1 = Some stats' /\
    ApiKeyRotator.failures stats' = 0 /\
    (1 ∉ ApiKeyRotator.failedKeys self') /\
    (forall j, j <> 1 ->
       ApiKeyRotator.keyStats self' !! j = ApiKeyRotator.keyStats RotatorCases.shaky !! j /\
       (j ∈ ApiKeyRotator.failedKeys self'
        <-> j ∈ ApiKeyRotator.failedKeys RotatorCases.shaky)) /\
    (forall now, ApiKeyRotator.isAvailable now self' 1
                 = Some (negb (ApiKeyRotator.isRateLimited now
                                 {| ApiKeyRotator.requests := 0;
                                    ApiKeyRotator.failures := 3;
                                    ApiKeyRotator.lastUsed := None;
                                    ApiKeyRotator.rateLimitUntil := None |}))).
Proof.
  apply (markSuccess_reenables RotatorCases.shaky "B" 1).
  - split; [vm_compute; lia|]. intros j Hj.
    assert (Hj3 : j < 3) by exact Hj.
    destruct j as [|[|[|j]]]; [vm_compute; eauto..|lia].
  - reflexivity.
  - vm_compute. reflexivity.
Defined.

(** X6.  The fallback pool.  When no configured key survives the blank
    filter, the pool is the environment key alone and carries no
    statistics: [getNextKey] returns that key, while [markSuccess],
    [markFailed], [markRateLimited] on it and [getAvailableKeyCount]
    run into [undefined] statistics and throw. *)
Theorem constructor_fallback_key_has_no_stats
    (keys : list ApiKeyRotator.Key) (envKey : ApiKeyRotator.Key)
    (now durationMs : Z) :
  List.filter ApiKeyRotator.nonBlank keys = [] ->
  let self := ApiKeyRotator.constructor keys envKey in
  ApiKeyRotator.apiKeys self = [envKey] /\
  ApiKeyRotator.getNextKey now self = Some (Some envKey, self) /\
  ApiKeyRotator.markSuccess envKey self = None /\
  ApiKeyRotator.markFailed envKey self = None /\
  ApiKeyRotator.markRateLimited now envKey durationMs self = None /\
  ApiKeyRotator.getAvailableKeyCount now self = None.
Proof.
  intros Hnone self. unfold self, ApiKeyRotator.constructor. rewrite Hnone. simpl.
  unfold ApiKeyRotator.markSuccess, ApiKeyRotator.markFailed,
    ApiKeyRotator.markRateLimited, ApiKeyRotator.indexOf. simpl.
  rewrite String.eqb_refl. simpl. rewrite lookup_empty. simpl.
  split_and!; try done.
Qed.

(** Two blank keys configured. *)
Lemma constructor_fallback_key_has_no_stats_witness :
  ApiKeyRotator.apiKeys RotatorCases.fallback = ["env-key"%string] /\
  ApiKeyRotator.getNextKey 5 RotatorCases.fallback
  = Some (Some "env-key"%string, RotatorCases.fallback) /\
  ApiKeyRotator.markSuccess "env-key" RotatorCases.fallback = None /\
  ApiKeyRotator.markFailed "env-key" RotatorCases.fallback = None /\
  ApiKeyRotator.markRateLimited 5 "env-key" 60000 RotatorCases.fallback = None /\
  ApiKeyRotator.getAvailableKeyCount 5 RotatorCases.fallback = None.
Proof.
  apply (constructor_fallback_key_has_no_stats [""; "   "]%string "env-key" 5 60000).
  reflexivity.
Defined.

(** X7.  The cooldown window.  After [markRateLimited] at time [T] for
    [D] milliseconds, the key is unavailable at every time before [T + D]
    and, unless disabled, available again from [T + D] on; other keys are
    not affected. *)
Theorem markRateLimited_window
    (self : ApiKeyRotator.t) (apiKey : ApiKeyRotator.Key) (i : nat) (T D : Z) :
  ApiKeyRotator.wf self ->
  ApiKeyRotator.indexOf self apiKey = Some i ->
  exists self',
    ApiKeyRotator.markRateLimited T apiKey D self = Some self' /\
    ApiKeyRotator.wf self' /\
    (forall now, (0 <= now)%Z ->
       ApiKeyRotator.isAvailable now self' i
       = Some ((T + D <=? now)%Z
               && negb (bool_decide (i ∈ ApiKeyRotator.failedKeys self)))) /\
    (forall now j, j <> i ->
       ApiKeyRotator.isAvailable now self' j = ApiKeyRotator.isAvailable now self j).
Proof.
  intros Hw Hi. pose proof (indexOf_lookup _ _ _ Hi) as Hk.
  destruct Hw as [Hc Hs]. destruct (Hs i) as [st Hst]; [by eapply lookup_lt_Some|].
  unfold ApiKeyRotator.markRateLimited. rewrite Hi, Hst. simpl.
  eexists. split_and!; [done|by apply (wf_setStats self)| |].
  - intros now Hnow. unfold ApiKeyRotator.isAvailable. simpl.
    rewrite lookup_insert_eq. simpl. do 2 f_equal.
    unfold ApiKeyRotator.isRateLimited. simpl.
    destruct (T + D <=? now)%Z eqn:E.
    + apply Z.leb_le in E. assert ((now <? T + D)%Z = false) as -> by lia.
      by rewrite andb_false_r.
    + apply Z.leb_gt in E. assert ((now <? T + D)%Z = true) as -> by lia.
      assert ((T + D =? 0)%Z = false) as -> by lia. done.
  - intros now j Hj. unfold ApiKeyRotator.isAvailable. simpl.
    by rewrite lookup_insert_ne.
Qed.

(** Key A of the three-key pool, marked at time 1000 for a minute. *)
Lemma markRateLimited_window_witness :
  exists self',
    ApiKeyRotator.markRateLimited 1000 "A" 60000 RotatorScenarios.pool3 = Some self' /\
    ApiKeyRotator.wf self' /\
    (forall now, (0 <= now)%Z ->
       ApiKeyRotator.isAvailable now self' 0
       = Some ((1000 + 60000 <=? now)%Z
               && negb (bool_decide
                          (0 ∈ ApiKeyRotator.failedKeys RotatorScenarios.pool3)))) /\
    (forall now j, j <> 0 ->
       ApiKeyRotator.isAvailable now self' j
       = ApiKeyRotator.isAvailable now RotatorScenarios.pool3 j).
Proof.
  apply (markRateLimited_window RotatorScenarios.pool3 "A" 0 1000 60000).
  - apply constructor_wf. vm_compute. discriminate.
  - reflexivity.
Defined.

(** X8.  [resetRateLimits] ends every cooldown and nothing else: at any
    time afterwards a key with statistics is available exactly when it is
    not disabled, and failure counts, request counts and the pool are as
    before. *)
Theorem resetRateLimits_clears_cooldowns (self : ApiKeyRotator.t) :
  let self' := ApiKeyRotator.resetRateLimits self in
  ApiKeyRotator.apiKeys self' = ApiKeyRotator.apiKeys self /\
  ApiKeyRotator.failedKeys self' = ApiKeyRotator.failedKeys self /\
  ApiKeyRotator.currentIndex self' = ApiKeyRotator.currentIndex self /\
  (ApiKeyRotator.wf self -> ApiKeyRotator.wf self') /\
  forall i,
    (ApiKeyRotator.failures <$> ApiKeyRotator.keyStats self' !! i
     = ApiKeyRotator.failures <$> ApiKeyRotator.keyStats self !! i) /\
    (ApiKeyRotator.requests <$> ApiKeyRotator.keyStats self' !! i
     = ApiKeyRotator.requests <$> ApiKeyRotator.keyStats self !! i) /\
    forall now,
      ApiKeyRotator.isAvailable now self' i
      = (fun _ => negb (bool_decide (i ∈ ApiKeyRotator.failedKeys self)))
        <$> ApiKeyRotator.keyStats self !! i.
Proof.
  intros self'. split_and!; [done|done|done| |].
  - intros [Hc Hs]. split; [done|]. intros j Hj. simpl.
    rewrite lookup_fmap. destruct (Hs j Hj) as [st ->]. simpl. eauto.
  - intros i. unfold ApiKeyRotator.isAvailable. simpl. rewrite lookup_fmap.
    destruct (ApiKeyRotator.keyStats self !! i) as [st|]; simpl; done.
Qed.

(** ** Ingestion, continued *)

Section ProcessorMore.
Import ParallelDocumentProcessor.

(** The attempts from [attempt] on, of which [remaining] may still be
    retried: the document succeeds exactly when one of the attempts
    [attempt .. attempt + remaining] is vectorized and all attempts
    before it are retryable. *)
Lemma processSingleDocument_from_success remaining w path attempt :
  success (processSingleDocument_from remaining w path attempt) = true <->
  exists k, attempt <= k <= attempt + remaining /\
            vectorizedOutcome (w k) = true /\
            forall j, attempt <= j < k -> retryable (w j) = true.
Proof.
  revert attempt. induction remaining as [|r IH]; intros attempt; simpl.
  - assert (Hnone : vectorizedOutcome (w attempt) = false ->
      ~ exists k, attempt <= k <= attempt + 0 /\
                  vectorizedOutcome (w k) = true /\
                  forall j, attempt <= j < k -> retryable (w j) = true).
    { intros Hf (k & Hk & Hv & _). assert (k = attempt) as -> by lia. congruence. }
    destruct (w attempt) eqn:E; simpl.
    + split; [discriminate|]. intros H. by destruct Hnone.
    + split; [discriminate|]. intros H. by destruct Hnone.
    + split; [|done]. intros _. exists attempt. rewrite E.
      split; [lia|split; [done|]]. intros j Hj. lia.
    + split; [discriminate|]. intros H. by destruct Hnone.
  - assert (Hretry : retryable (w attempt) = true ->
      (success (processSingleDocument_from r w path (S attempt)) = true <->
       exists k, attempt <= k <= attempt + S r /\
                 vectorizedOutcome (w k) = true /\
                 forall j, attempt <= j < k -> retryable (w j) = true)).
    { intros Hr. rewrite IH. split.
      - intros (k & Hk & Hv & Hb). exists k. split; [lia|split; [done|]].
        intros j Hj. destruct (decide (j = attempt)) as [->|]; [done|].
        apply Hb. lia.
      - intros (k & Hk & Hv & Hb). exists k.
        assert (k <> attempt).
        { intros ->. destruct (w attempt); discriminate. }
        split; [lia|split; [done|]]. intros j Hj. apply Hb. lia. }
    destruct (w attempt) eqn:E; simpl.
    + split; [discriminate|]. intros (k & Hk & Hv & Hb).
      destruct (decide (k = attempt)) as [->|].
      * rewrite E in Hv. discriminate.
      * specialize (Hb attempt ltac:(lia)). rewrite E in Hb. discriminate.
    + by apply Hretry.
    + split; [|done]. intros _. exists attempt. rewrite E.
      split; [lia|split; [done|]]. intros j Hj. lia.
    + by apply Hretry.
Qed.

(** The result reads the environment at the attempts
    [attempt .. attempt + remaining] only. *)
Lemma processSingleDocument_from_ext remaining w1 w2 path attempt :
  (forall k, attempt <= k <= attempt + remaining -> w1 k = w2 k) ->
  processSingleDocument_from remaining w1 path attempt
  = processSingleDocument_from remaining w2 path attempt.
Proof.
  revert attempt. induction remaining as [|r IH]; intros attempt H; simpl.
  - rewrite <- (H attempt) by lia. done.
  - rewrite <- (H attempt) by lia.
    destruct (w1 attempt); try done; apply IH; intros k Hk; apply H; lia.
Qed.

Lemma constructor_retryAttempts options :
  1 <= retryAttempts (constructor options).
Proof.
  simpl. unfold Util.orDefault. destruct (opt_retryAttempts options) as [[|n]|]; lia.
Qed.
End ProcessorMore.

(** X9.  Retry outcome.  For a processor built by the constructor, a
    document is reported as a success exactly when one of its first
    [retryAttempts] attempts is vectorized and every attempt before that
    one failed in a retryable way (vector store refusal or exception); a
    falsy [fileData] result is never retried. *)
Theorem processSingleDocument_success_iff
    (options : ParallelDocumentProcessor.Options)
    (w : ParallelDocumentProcessor.DocumentWorld) (path : string) :
  let self := ParallelDocumentProcessor.constructor options in
  ParallelDocumentProcessor.success
    (ParallelDocumentProcessor.processSingleDocument self w path) = true
  <->
  exists k, 1 <= k <= ParallelDocumentProcessor.retryAttempts self /\
            ParallelDocumentProcessor.vectorizedOutcome (w k) = true /\
            forall j, 1 <= j < k -> ParallelDocumentProcessor.retryable (w j) = true.
Proof.
  intros self. unfold ParallelDocumentProcessor.processSingleDocument.
  rewrite processSingleDocument_from_success.
  pose proof (constructor_retryAttempts options) as Hr. fold self in Hr.
  split; intros (k & Hk & H); exists k; (split; [lia|exact H]).
Qed.

(** X10.  Bounded retries.  A processor built by the constructor never
    looks at an attempt after the [retryAttempts]-th: two environments
    that agree on the attempts [1 .. retryAttempts] give the same result
    object. *)
Theorem processSingleDocument_bounded_attempts
    (options : ParallelDocumentProcessor.Options)
    (w1 w2 : ParallelDocumentProcessor.DocumentWorld) (path : string) :
  let self := ParallelDocumentProcessor.constructor options in
  (forall k, 1 <= k <= ParallelDocumentProcessor.retryAttempts self -> w1 k = w2 k) ->
  ParallelDocumentProcessor.processSingleDocument self w1 path
  = ParallelDocumentProcessor.processSingleDocument self w2 path.
Proof.
  intros self H. unfold ParallelDocumentProcessor.processSingleDocument.
  apply processSingleDocument_from_ext. intros k Hk. apply H.
  pose proof (constructor_retryAttempts options) as Hr. fold self in Hr. lia.
Qed.

(** Default options (three attempts): what happens from the fourth
    attempt on does not matter. *)
Lemma processSingleDocument_bounded_attempts_witness :
  ParallelDocumentProcessor.processSingleDocument
    (ParallelDocumentProcessor.constructor IngestionCases.defaults)
    IngestionCases.thirdTimeLucky "docs/lease.json"
  = ParallelDocumentProcessor.processSingleDocument
      (ParallelDocumentProcessor.constructor IngestionCases.defaults)
      IngestionCases.thirdTimeLuckyThenThrows "docs/lease.json".
Proof.
  apply (processSingleDocument_bounded_attempts IngestionCases.defaults
           IngestionCases.thirdTimeLucky IngestionCases.thirdTimeLuckyThenThrows).
  intros k Hk. simpl in Hk.
  destruct k as [|[|[|[|k]]]]; [lia|reflexivity|reflexivity|reflexivity|lia].
Defined.

(** X11.  Exhausted retries.  When each of the [retryAttempts] attempts
    of a document throws, the document is reported once, as a failure
    that carries the path as file name and the message of the last
    exception. *)
Theorem processSingleDocument_exhausted
    (options : ParallelDocumentProcessor.Options)
    (w : ParallelDocumentProcessor.DocumentWorld) (path : string)
    (message : nat -> string) :
  let self := ParallelDocumentProcessor.constructor options in
  (forall k, 1 <= k <= ParallelDocumentProcessor.retryAttempts self ->
             w k = ParallelDocumentProcessor.Threw (message k)) ->
  ParallelDocumentProcessor.processSingleDocument self w path
  = ParallelDocumentProcessor.failed (Some path)
      (Some (message (ParallelDocumentProcessor.retryAttempts self))).
Proof.
  intros self H. unfold ParallelDocumentProcessor.processSingleDocument.
  pose proof (constructor_retryAttempts options) as Hr. fold self in Hr.
  set (R := ParallelDocumentProcessor.retryAttempts self) in *.
  assert (Hgen : forall remaining attempt,
            1 <= attempt -> attempt + remaining = R ->
            ParallelDocumentProcessor.processSingleDocument_from remaining w path attempt
            = ParallelDocumentProcessor.failed (Some path) (Some (message R))).
  { induction remaining as [|r IH]; intros attempt Ha Hsum; simpl.
    - rewrite H by lia. by replace attempt with R by lia.
    - rewrite H by lia. apply IH; lia. }
  apply Hgen; lia.
Qed.

(** Default options, every attempt throwing the same error. *)
Lemma processSingleDocument_exhausted_witness :
  ParallelDocumentProcessor.processSingleDocument
    (ParallelDocumentProcessor.constructor IngestionCases.defaults)
    IngestionCases.alwaysThrows "docs/lease.json"
  = ParallelDocumentProcessor.failed (Some "docs/lease.json"%string)
      (Some "ECONNRESET"%string).
Proof.
  apply (processSingleDocument_exhausted IngestionCases.defaults
           IngestionCases.alwaysThrows "docs/lease.json" (fun _ => "ECONNRESET"%string)).
  intros k _. reflexivity.
Defined.

(** ** Chunking, continued *)

Section ChunkArrayMore.
Context {A : Type}.

Lemma chunkArray_loop_lookup fuel (array : list A) size i chunks k c :
  Util.chunkArray_loop fuel array size i = Some chunks ->
  chunks !! k = Some c ->
  c = Util.slice array (i + k * size) (i + k * size + size).
Proof.
  revert i chunks k. induction fuel as [|fuel IH]; intros i chunks k; simpl.
  - destruct (i <? length array); [discriminate|].
    intros [= <-]. by rewrite lookup_nil.
  - destruct (i <? length array); [|intros [= <-]; by rewrite lookup_nil].
    destruct (Util.chunkArray_loop fuel array size (i + size)) as [chunks'|] eqn:E;
      [|discriminate].
    simpl. intros [= <-]. destruct k as [|k]; simpl.
    + intros [= <-]. by rewrite Nat.add_0_r.
    + intros Hk. rewrite (IH _ _ _ E Hk). f_equal; lia.
Qed.

Lemma slice_lookup (array : list A) start size j :
  j < size -> Util.slice array start (start + size) !! j = array !! (start + j).
Proof.
  intros Hj. unfold Util.slice. replace (start + size - start) with size by lia.
  by rewrite lookup_take_lt, lookup_drop.
Qed.
Lemma chunkArray_take (array : list A) size chunks j :
  0 < size -> Util.chunkArray array size = Some chunks -> j <= length chunks ->
  concat (take j chunks) = take (j * size) array.
Proof.
  intros Hs Hc. induction j as [|j IH]; intros Hj; [done|].
  destruct (lookup_lt_is_Some_2 chunks j ltac:(lia)) as [c Hcj].
  rewrite (take_S_r _ _ _ Hcj), concat_app, IH by lia. simpl. rewrite app_nil_r.
  pose proof (chunkArray_loop_lookup _ _ _ _ _ _ _ Hc Hcj) as ->.
  unfold Util.slice. simpl.
  replace (j * size + size - j * size) with size by lia.
  rewrite take_take_drop. f_equal. lia.
Qed.
End ChunkArrayMore.

(** X12.  Where an element ends up.  With a chunk size of at least one,
    [chunkArray] returns; chunk [i] is [array.slice(i * size, (i + 1) *
    size)], and the element at position [p] of the array is element
    [p mod size] of chunk [p / size]. *)
Theorem chunkArray_element_position {A : Type} (array : list A) (size : nat) :
  0 < size ->
  exists chunks,
    Util.chunkArray array size = Some chunks /\
    (forall i c, chunks !! i = Some c ->
       c = Util.slice array (i * size) (i * size + size)) /\
    (forall p x, array !! p = Some x ->
       exists c, chunks !! (p / size) = Some c /\ c !! (p `mod` size) = Some x).
Proof.
  intros Hs. destruct (chunkArray_spec array size Hs) as (chunks & Hc & _ & Hl).
  exists chunks. split; [done|].
  assert (Hslice : forall i c, chunks !! i = Some c ->
            c = Util.slice array (i * size) (i * size + size)).
  { intros i c Hi. pose proof (chunkArray_loop_lookup _ _ _ _ _ _ _ Hc Hi) as H; by rewrite Nat.add_0_l in H. }
  split; [done|]. intros p x Hp.
  assert (Hlen : length chunks = Util.ceilDiv (length array) size).
  { by rewrite <- (length_map length), Hl, batchSizes_length. }
  pose proof (lookup_lt_Some _ _ _ Hp) as Hlt.
  pose proof (Nat.div_mod_eq p size) as Hdm.
  pose proof (Nat.mod_upper_bound p size ltac:(lia)) as Hr.
  assert (Hq : p / size < length chunks).
  { rewrite Hlen. unfold Util.ceilDiv.
    apply Nat.Div0.div_lt_upper_bound.
    pose proof (Nat.div_mod_eq (length array + size - 1) size) as Hn.
    pose proof (Nat.mod_upper_bound (length array + size - 1) size ltac:(lia)).
    nia. }
  destruct (lookup_lt_is_Some_2 chunks (p / size) Hq) as [c Hcq].
  exists c. split; [done|]. rewrite (Hslice _ _ Hcq), slice_lookup by done.
  rewrite <- Hp. f_equal. lia.
Qed.

(** Seven elements in chunks of three. *)
Lemma chunkArray_element_position_witness :
  0 < 3 /\
  exists chunks,
    Util.chunkArray [10; 11; 12; 13; 14; 15; 16] 3 = Some chunks /\
    (forall i c, chunks !! i = Some c ->
       c = Util.slice [10; 11; 12; 13; 14; 15; 16] (i * 3) (i * 3 + 3)) /\
    (forall p x, [10; 11; 12; 13; 14; 15; 16] !! p = Some x ->
       exists c, chunks !! (p / 3) = Some c /\ c !! (p `mod` 3) = Some x).
Proof.
  split; [lia|]. apply (chunkArray_element_position [10; 11; 12; 13; 14; 15; 16] 3). lia.
Defined.

(** ** Ingestion by position *)

Section ProcessorPositions.
Import ParallelDocumentProcessor.
Variable self : t.
Variable world : nat -> nat -> DocumentWorld.

Abbreviation recordPair := (fun acc pr => record acc (fst pr) (snd pr)) (only parsing).

Lemma processBatches_foldl batchIndex batches results :
  processBatches self world batchIndex batches results
  = foldl recordPair results (allOutcomes self world batchIndex batches).
Proof.
  revert batchIndex results. induction batches as [|b bs IH]; intros k results; [done|].
  simpl. by rewrite IH, foldl_app.
Qed.

Lemma record_errors results outcomes e :
  e ∈ errors (foldl recordPair results outcomes) <->
  e ∈ errors results \/
  exists pr, pr ∈ outcomes /\ notSucceeded pr = true /\ error (snd pr) = Some e.
Proof.
  revert results. induction outcomes as [|[path res] outcomes IH]; intros results; simpl.
  - split; [by left|]. intros [H|(pr & Hin & _)]; [done|]. by apply elem_of_nil in Hin.
  - rewrite IH. unfold record, notSucceeded. split.
    + intros [H|(pr & Hin & Hn & He)].
      * destruct (success res) eqn:Es; simpl in H; [by left|].
        destruct (error res) as [e'|] eqn:Ee; [|by left].
        apply elem_of_union in H as [H|H]; [|by left].
        apply elem_of_singleton in H as ->. right. exists (path, res).
        split; [apply list_elem_of_here|]. simpl. by rewrite Es.
      * right. exists pr. split; [by apply list_elem_of_further|done].
    + intros [H|(pr & Hin & Hn & He)].
      * left. destruct (success res); simpl; [done|].
        destruct (error res); [|done]. apply elem_of_union. by right.
      * apply elem_of_cons in Hin as [->|Hin].
        -- left. simpl in Hn, He. destruct (success res); [discriminate|]. simpl.
           rewrite He. apply elem_of_union. left. by apply elem_of_singleton.
        -- right. exists pr. done.
Qed.

(** Batches of which all but the last one are full hold the documents at
    consecutive positions. *)
Lemma allOutcomes_positions q tl batches k :
  0 < batchSize self ->
  map length batches = replicate q (batchSize self) ++ tl ->
  length tl <= 1 -> Forall (fun r => r <= batchSize self) tl ->
  allOutcomes self world k batches
  = imap (fun p path => outcomeAt self world (k * batchSize self + p) path)
         (concat batches).
Proof.
  intros HB. set (B := batchSize self) in *.
  assert (Hone : forall k b, length b <= B ->
            batchOutcomes self world k b
            = imap (fun p path => outcomeAt self world (k * B + p) path) b).
  { intros k' b Hb. unfold batchOutcomes. apply list_eq. intros j.
    rewrite !list_lookup_imap. destruct (b !! j) as [path|] eqn:Ej; [|done]. simpl.
    pose proof (lookup_lt_Some _ _ _ Ej) as Hj.
    unfold outcomeAt. fold B.
    replace ((k' * B + j) / B) with k'.
    2:{ apply Nat.div_unique with j; lia. }
    replace ((k' * B + j) `mod` B) with j.
    2:{ apply Nat.mod_unique with k'; lia. }
    done. }
  revert batches k. induction q as [|q IH]; intros batches k Hl Htl Hle; simpl in Hl.
  - destruct batches as [|b [|b' bs]]; simpl in *.
    + done.
    + rewrite !app_nil_r. apply Hone.
      destruct tl as [|r tl]; [discriminate|]. injection Hl as Hr _.
      apply Forall_cons in Hle as [Hle _]. lia.
    + destruct tl as [|r [|r' tl]]; simpl in *; try discriminate; lia.
  - destruct batches as [|b bs]; [discriminate|]. simpl in Hl.
    injection Hl as Hb Hl. simpl.
    rewrite imap_app, (IH bs (S k) Hl Htl Hle), (Hone k b) by lia.
    f_equal. apply imap_ext. intros j path _. simpl. f_equal. lia.
Qed.

Lemma batchSizes_shape n b :
  0 < b ->
  exists tl, Util.batchSizes n b = replicate (n / b) b ++ tl /\
             length tl <= 1 /\ Forall (fun r => r <= b) tl.
Proof.
  intros Hb. unfold Util.batchSizes. eexists. split; [done|].
  pose proof (Nat.mod_upper_bound n b ltac:(lia)).
  destruct (n `mod` b =? 0); simpl; split; try lia; [constructor|].
  constructor; [lia|constructor].
Qed.
End ProcessorPositions.

Lemma constructor_batchSize options :
  0 < ParallelDocumentProcessor.batchSize (ParallelDocumentProcessor.constructor options).
Proof.
  simpl. unfold Util.orDefault.
  destruct (ParallelDocumentProcessor.opt_batchSize options) as [[|n]|]; lia.
Qed.

(** The run as one fold over the documents in order. *)
Lemma processDocuments_fold options world documentPaths :
  let self := ParallelDocumentProcessor.constructor options in
  ParallelDocumentProcessor.processDocuments self world documentPaths
  = Some (foldl (fun acc pr => ParallelDocumentProcessor.record acc (fst pr) (snd pr))
            ParallelDocumentProcessor.emptyResults
            (imap (ParallelDocumentProcessor.outcomeAt self world) documentPaths)).
Proof.
  intros self. pose proof (constructor_batchSize options) as HB. fold self in HB.
  destruct (chunkArray_spec documentPaths _ HB) as (batches & Hc & Hcat & Hlen).
  unfold ParallelDocumentProcessor.processDocuments. rewrite Hc. simpl. f_equal.
  rewrite processBatches_foldl.
  destruct (batchSizes_shape (length documentPaths) _ HB) as (tl & Htl & H1 & H2).
  rewrite Htl in Hlen.
  rewrite (allOutcomes_positions self world _ tl batches 0 HB Hlen H1 H2), Hcat.
  done.
Qed.

(** X13.  Ingestion in document order.  A processor built by the
    constructor handles the document at position [p] as element
    [p mod batchSize] of batch [p / batchSize]; [embedded] lists the
    paths of the documents that succeeded and [failedToEmbed] the file
    names reported for those that did not, both in document order, and
    [errors] holds exactly the error messages of the failed documents. *)
Theorem processDocuments_in_document_order
    (options : ParallelDocumentProcessor.Options)
    (world : nat -> nat -> ParallelDocumentProcessor.DocumentWorld)
    (documentPaths : list string) :
  let self := ParallelDocumentProcessor.constructor options in
  let outcomes := imap (ParallelDocumentProcessor.outcomeAt self world) documentPaths in
  exists results,
    ParallelDocumentProcessor.processDocuments self world documentPaths = Some results /\
    ParallelDocumentProcessor.embedded results
      = map fst (List.filter ParallelDocumentProcessor.succeeded outcomes) /\
    ParallelDocumentProcessor.failedToEmbed results
      = map ParallelDocumentProcessor.reportedName
          (List.filter ParallelDocumentProcessor.notSucceeded outcomes) /\
    (forall e, e ∈ ParallelDocumentProcessor.errors results <->
       exists pr, pr ∈ outcomes /\
                  ParallelDocumentProcessor.notSucceeded pr = true /\
                  ParallelDocumentProcessor.error (snd pr) = Some e).
Proof.
  intros self outcomes. eexists. split; [apply processDocuments_fold|].
  fold self. fold outcomes.
  destruct (record_all ParallelDocumentProcessor.emptyResults outcomes) as (He & Hf & _ & _).
  split; [exact He|]. split; [exact Hf|].
  intros e. rewrite record_errors. simpl. split.
  - intros [H|H]; [|done]. by apply not_elem_of_empty in H.
  - intros H. by right.
Qed.

(** X14.  A clean run.  When every document is vectorized within its
    [retryAttempts] attempts, after retryable failures only, the run
    reports all paths as embedded, in their original order, and nothing
    as failed. *)
Theorem processDocuments_all_embedded
    (options : ParallelDocumentProcessor.Options)
    (world : nat -> nat -> ParallelDocumentProcessor.DocumentWorld)
    (documentPaths : list string) :
  let self := ParallelDocumentProcessor.constructor options in
  let B := ParallelDocumentProcessor.batchSize self in
  (forall p, p < length documentPaths ->
     exists k, 1 <= k <= ParallelDocumentProcessor.retryAttempts self /\
       ParallelDocumentProcessor.vectorizedOutcome (world (p / B) (p `mod` B) k) = true /\
       forall j, 1 <= j < k ->
         ParallelDocumentProcessor.retryable (world (p / B) (p `mod` B) j) = true) ->
  exists results,
    ParallelDocumentProcessor.processDocuments self world documentPaths = Some results /\
    ParallelDocumentProcessor.embedded results = documentPaths /\
    ParallelDocumentProcessor.failedToEmbed results = [] /\
    ParallelDocumentProcessor.errors results = ∅ /\
    ParallelDocumentProcessor.processed results = length documentPaths /\
    ParallelDocumentProcessor.stats_failed results = 0.
Proof.
  intros self B Hall. eexists. split; [apply processDocuments_fold|].
  fold self. set (outcomes := imap (ParallelDocumentProcessor.outcomeAt self world) documentPaths).
  assert (Hsucc : forall pr, pr ∈ outcomes -> ParallelDocumentProcessor.success (snd pr) = true).
  { intros pr Hin. apply list_elem_of_lookup in Hin as [p Hp].
    unfold outcomes in Hp. apply list_lookup_imap_Some in Hp as (path & Hp & ->).
    simpl. unfold ParallelDocumentProcessor.processSingleDocument.
    apply processSingleDocument_from_success.
    destruct (Hall p (lookup_lt_Some _ _ _ Hp)) as (k & Hk & Hv & Hb).
    exists k. split; [|done].
    pose proof (constructor_retryAttempts options) as Hr. fold self in Hr. lia. }
  assert (Hyes : List.filter ParallelDocumentProcessor.succeeded outcomes = outcomes).
  { clear -Hsucc. induction outcomes as [|pr l IH]; [done|]. simpl.
    unfold ParallelDocumentProcessor.succeeded at 1.
    rewrite (Hsucc pr) by apply list_elem_of_here. f_equal. apply IH.
    intros pr' Hin. apply Hsucc. by apply list_elem_of_further. }
  assert (Hno : List.filter ParallelDocumentProcessor.notSucceeded outcomes = []).
  { clear -Hsucc. induction outcomes as [|pr l IH]; [done|]. simpl.
    unfold ParallelDocumentProcessor.notSucceeded at 1.
    rewrite (Hsucc pr) by apply list_elem_of_here. simpl. apply IH.
    intros pr' Hin. apply Hsucc. by apply list_elem_of_further. }
  assert (Hpaths : map fst outcomes = documentPaths).
  { unfold outcomes. clear. apply list_eq. intros p.
    rewrite list_lookup_fmap, list_lookup_imap. by destruct (documentPaths !! p). }
  destruct (record_all ParallelDocumentProcessor.emptyResults outcomes) as (He & Hf & Hp & Hs).
  simpl in He, Hf, Hp, Hs. rewrite Hyes in He, Hp. rewrite Hno in Hf, Hs.
  split; [by rewrite He|]. split; [by rewrite Hf|].
  split.
  - apply set_eq. intros e. rewrite record_errors. split.
    + intros [H|(pr & Hin & Hn & _)]; [done|].
      unfold ParallelDocumentProcessor.notSucceeded in Hn.
      rewrite (Hsucc pr Hin) in Hn. discriminate.
    + intros H. by apply not_elem_of_empty in H.
  - split; [|by rewrite Hs]. rewrite Hp. by rewrite <- Hpaths, length_map.
Qed.

(** Two documents, default options, each accepted at its third attempt. *)
Lemma processDocuments_all_embedded_witness :
  exists results,
    ParallelDocumentProcessor.processDocuments
      (ParallelDocumentProcessor.constructor IngestionCases.defaults)
      (fun _ _ => IngestionCases.thirdTimeLucky) ["a/one.json"; "a/two.json"]
    = Some results /\
    ParallelDocumentProcessor.embedded results = ["a/one.json"; "a/two.json"] /\
    ParallelDocumentProcessor.failedToEmbed results = [] /\
    ParallelDocumentProcessor.errors results = ∅ /\
    ParallelDocumentProcessor.processed results = 2 /\
    ParallelDocumentProcessor.stats_failed results = 0.
Proof.
  apply (processDocuments_all_embedded IngestionCases.defaults
           (fun _ _ => IngestionCases.thirdTimeLucky) ["a/one.json"; "a/two.json"]).
  intros p _. exists 3. split; [simpl; lia|]. split; [reflexivity|].
  intros j Hj. destruct j as [|[|[|j]]]; [lia|reflexivity|reflexivity|lia].
Defined.

(** ** Database writes *)

Section BulkInsert.
Import ParallelDocumentProcessor.

Lemma insertChunks_first_throw createManyThrows i chunks j :
  createManyThrows (i + j) = true ->
  (forall k, k < j -> createManyThrows (i + k) = false) ->
  j < length chunks ->
  insertChunks createManyThrows i chunks = (map CreateMany (take (S j) chunks), true).
Proof.
  revert i j. induction chunks as [|c cs IH]; intros i j Ht Hf Hj; simpl in *; [lia|].
  destruct j as [|j].
  - rewrite Nat.add_0_r in Ht. rewrite Ht. by rewrite take_0.
  - pose proof (Hf 0 ltac:(lia)) as H0. rewrite Nat.add_0_r in H0. rewrite H0.
    rewrite (IH (S i) j).
    + done.
    + by replace (S i + j) with (i + S j) by lia.
    + intros k Hk. replace (S i + k) with (i + S k) by lia. apply Hf. lia.
    + lia.
Qed.

Lemma insertChunks_no_throw createManyThrows i chunks :
  (forall k, k < length chunks -> createManyThrows (i + k) = false) ->
  insertChunks createManyThrows i chunks = (map CreateMany chunks, false).
Proof.
  revert i. induction chunks as [|c cs IH]; intros i Hf; simpl in *; [done|].
  pose proof (Hf 0 ltac:(lia)) as H0. rewrite Nat.add_0_r in H0. rewrite H0.
  rewrite (IH (S i)); [done|].
  intros k Hk. replace (S i + k) with (i + S k) by lia. apply Hf. lia.
Qed.

Lemma constructor_dbBatchSize options : 0 < dbBatchSize (constructor options).
Proof.
  simpl. unfold Util.orDefault. destruct (opt_dbBatchSize options) as [[|n]|]; lia.
Qed.
End BulkInsert.

(** X15.  Fallback after a failed bulk insert.  When the [j]-th
    [createMany] call (counting from 0) is the first to throw,
    [bulkInsertDocuments] stops the bulk inserts there and then issues
    one [create] for every document of the batch, also for the first
    [j * dbBatchSize] documents, which the earlier [createMany] calls had
    already written. *)
Theorem bulkInsertDocuments_fallback_repeats_written_chunks
    (options : ParallelDocumentProcessor.Options)
    (createManyThrows : nat -> bool)
    (documents : list ParallelDocumentProcessor.DocResult) (j : nat) :
  let self := ParallelDocumentProcessor.constructor options in
  let D := ParallelDocumentProcessor.dbBatchSize self in
  createManyThrows j = true ->
  (forall i, i < j -> createManyThrows i = false) ->
  j * D < length documents ->
  exists chunks,
    Util.chunkArray documents D = Some chunks /\
    ParallelDocumentProcessor.bulkInsertDocuments self createManyThrows documents
    = Some (map ParallelDocumentProcessor.CreateMany (take (S j) chunks)
            ++ map ParallelDocumentProcessor.Create documents) /\
    concat (take j chunks) = take (j * D) documents.
Proof.
  intros self D Ht Hf Hj.
  pose proof (constructor_dbBatchSize options) as HD. fold self in HD. fold D in HD.
  destruct (chunkArray_spec documents D HD) as (chunks & Hc & _ & Hl).
  assert (Hlen : length chunks = Util.ceilDiv (length documents) D).
  { by rewrite <- (length_map length), Hl, batchSizes_length. }
  assert (Hjl : j < length chunks).
  { rewrite Hlen. unfold Util.ceilDiv.
    pose proof (Nat.div_mod_eq (length documents + D - 1) D) as Hn.
    pose proof (Nat.mod_upper_bound (length documents + D - 1) D ltac:(lia)).
    nia. }
  exists chunks. split; [done|]. split.
  - unfold ParallelDocumentProcessor.bulkInsertDocuments. fold D. rewrite Hc. simpl.
    by rewrite (insertChunks_first_throw createManyThrows 0 chunks j).
  - apply chunkArray_take; [done|done|lia].
Qed.

(** Three successful documents, two per database chunk; the second
    [createMany] throws. *)
Lemma bulkInsertDocuments_fallback_repeats_written_chunks_witness :
  let docs := map (fun path =>
                ParallelDocumentProcessor.processSingleDocument
                  (ParallelDocumentProcessor.constructor IngestionCases.twoPerChunk)
                  (fun _ => ParallelDocumentProcessor.Vectorized "doc" "{}") path)
              ["a/one.json"; "a/two.json"; "a/three.json"] in
  exists chunks,
    Util.chunkArray docs 2 = Some chunks /\
    ParallelDocumentProcessor.bulkInsertDocuments
      (ParallelDocumentProcessor.constructor IngestionCases.twoPerChunk)
      (fun i => i =? 1) docs
    = Some (map ParallelDocumentProcessor.CreateMany (take 2 chunks)
            ++ map ParallelDocumentProcessor.Create docs) /\
    concat (take 1 chunks) = take 2 docs.
Proof.
  intros docs.
  apply (bulkInsertDocuments_fallback_repeats_written_chunks
           IngestionCases.twoPerChunk (fun i => i =? 1) docs 1).
  - reflexivity.
  - intros i Hi. destruct i; [reflexivity|lia].
  - simpl. lia.
Defined.

(** X16.  Bulk insert without failures.  When no [createMany] call
    throws, [bulkInsertDocuments] makes one [createMany] call per chunk
    of at most [dbBatchSize] documents and no [create] call; the chunks,
    put together, are the documents in their order. *)
Theorem bulkInsertDocuments_clean
    (options : ParallelDocumentProcessor.Options)
    (createManyThrows : nat -> bool)
    (documents : list ParallelDocumentProcessor.DocResult) :
  let self := ParallelDocumentProcessor.constructor options in
  let D := ParallelDocumentProcessor.dbBatchSize self in
  (forall i, i < Util.ceilDiv (length documents) D -> createManyThrows i = false) ->
  exists chunks,
    ParallelDocumentProcessor.bulkInsertDocuments self createManyThrows documents
    = Some (map ParallelDocumentProcessor.CreateMany chunks) /\
    concat chunks = documents /\
    length chunks = Util.ceilDiv (length documents) D /\
    Forall (fun chunk => 0 < length chunk <= D) chunks.
Proof.
  intros self D Hf.
  pose proof (constructor_dbBatchSize options) as HD. fold self in HD. fold D in HD.
  destruct (chunkArray_spec documents D HD) as (chunks & Hc & Hcat & Hl).
  assert (Hlen : length chunks = Util.ceilDiv (length documents) D).
  { by rewrite <- (length_map length), Hl, batchSizes_length. }
  exists chunks. split; [|split; [done|split; [done|]]].
  - unfold ParallelDocumentProcessor.bulkInsertDocuments. fold D. rewrite Hc. simpl.
    rewrite (insertChunks_no_throw createManyThrows 0 chunks); [done|].
    intros k Hk. apply Hf. by rewrite <- Hlen.
  - apply Forall_forall. intros chunk Hin.
    assert (Hs : length chunk ∈ map length chunks).
    { apply list_elem_of_fmap. by exists chunk. }
    rewrite Hl in Hs. unfold Util.batchSizes in Hs.
    apply elem_of_app in Hs as [Hs|Hs].
    + apply elem_of_replicate in Hs as [-> _]. lia.
    + pose proof (Nat.mod_upper_bound (length documents) D ltac:(lia)).
      destruct (length documents `mod` D =? 0) eqn:E.
      * by apply elem_of_nil in Hs.
      * apply Nat.eqb_neq in E. apply list_elem_of_singleton in Hs. lia.
Qed.

(** Three documents, two per chunk, a database that never throws. *)
Lemma bulkInsertDocuments_clean_witness :
  let docs := map (fun path =>
                ParallelDocumentProcessor.processSingleDocument
                  (ParallelDocumentProcessor.constructor IngestionCases.twoPerChunk)
                  (fun _ => ParallelDocumentProcessor.Vectorized "doc" "{}") path)
              ["a/one.json"; "a/two.json"; "a/three.json"] in
  exists chunks,
    ParallelDocumentProcessor.bulkInsertDocuments
      (ParallelDocumentProcessor.constructor IngestionCases.twoPerChunk)
      (fun _ => false) docs
    = Some (map ParallelDocumentProcessor.CreateMany chunks) /\
    concat chunks = docs /\
    length chunks = Util.ceilDiv 3 2 /\
    Forall (fun chunk => 0 < length chunk <= 2) chunks.
Proof.
  intros docs.
  apply (bulkInsertDocuments_clean IngestionCases.twoPerChunk (fun _ => false) docs).
  intros i _. reflexivity.
Defined.

(** ** Embedding stage, continued *)

Section EmbedderMore.
Import ParallelGeminiEmbedder.

Lemma embedBatch_from_resolved remaining p texts batchIndex attempt a embeddings :
  attempt <= a <= attempt + remaining ->
  batchEmbedContents p batchIndex a texts = Resolved embeddings ->
  (forall earlier, attempt <= earlier < a ->
     exists message, batchEmbedContents p batchIndex earlier texts = Rejected message) ->
  embedBatch_from remaining p texts batchIndex attempt = Some <$> embeddings.
Proof.
  revert attempt. induction remaining as [|r IH]; intros attempt Ha Hr Hrej; simpl.
  - assert (a = attempt) as -> by lia. by rewrite Hr.
  - destruct (decide (a = attempt)) as [->|Hne]; [by rewrite Hr|].
    destruct (Hrej attempt ltac:(lia)) as [m ->].
    apply IH; [lia|done|]. intros e He. apply Hrej. lia.
Qed.

Lemma embedBatch_from_rejected remaining p texts batchIndex attempt :
  (forall a, attempt <= a <= attempt + remaining ->
     exists message, batchEmbedContents p batchIndex a texts = Rejected message) ->
  embedBatch_from remaining p texts batchIndex attempt
  = embedIndividually (embedContent p batchIndex) texts.
Proof.
  revert attempt. induction remaining as [|r IH]; intros attempt Hrej; simpl.
  - by destruct (Hrej attempt ltac:(lia)) as [m ->].
  - destruct (Hrej attempt ltac:(lia)) as [m ->]. apply IH. intros a Ha. apply Hrej. lia.
Qed.

Lemma imap_ignore {B C} (g : B -> C) (l : list B) :
  imap (fun _ x => g x) l = map g l.
Proof. apply (imap_const g). Qed.

Lemma filter_all_Some {B} (g : string -> B) (texts : list string) :
  List.filter (fun e : option B => match e with Some _ => true | None => false end)
              (map (fun text => Some (g text)) texts)
  = map (fun text => Some (g text)) texts.
Proof. induction texts as [|t ts IH]; simpl; [done|]. by rewrite IH. Qed.

Lemma embedIndividually_all_resolved single (f : string -> list Q) texts :
  (forall i text, texts !! i = Some text -> single i text = Resolved (f text)) ->
  embedIndividually single texts = map (fun text => Some (f text)) texts.
Proof.
  intros H. unfold embedIndividually.
  rewrite (imap_ext _ (fun _ text => Some (f text))).
  - rewrite imap_ignore. apply filter_all_Some.
  - intros i text Hi. by rewrite (H i text Hi).
Qed.

Lemma embedBatch_answered p f batchIndex texts :
  answersBatch p f batchIndex texts ->
  embedBatch p texts batchIndex = map (fun text => Some (f text)) texts.
Proof.
  unfold embedBatch, maxRetries. change (3 - 1) with 2.
  intros [(a & Ha & Hr & Hrej)|[Hrej Hs]].
  - rewrite (embedBatch_from_resolved _ _ _ _ _ a (map f texts) Ha Hr Hrej).
    by rewrite <- list_fmap_compose.
  - rewrite embedBatch_from_rejected.
    + by apply embedIndividually_all_resolved.
    + intros a Ha. apply Hrej. unfold maxRetries. simpl in Ha. lia.
Qed.

End EmbedderMore.

(** *** Rotator calls on a well-formed rotator *)

Section RotatorReturns.
Import ApiKeyRotator.

(** With statistics for every pool index no mark throws, whatever the
    key. *)
Lemma marks_return now durationMs apiKey self :
  hasStats self ->
  (exists self', markSuccess apiKey self = Some self') /\
  (exists self', markFailed apiKey self = Some self') /\
  (exists self', markRateLimited now apiKey durationMs self = Some self'
                 /\ hasStats self').
Proof.
  intros Hs. unfold markSuccess, markFailed, markRateLimited.
  destruct (indexOf self apiKey) as [i|] eqn:Ei.
  - pose proof (indexOf_lookup _ _ _ Ei) as Hi. apply lookup_lt_Some in Hi.
    destruct (Hs i Hi) as [st ->]. simpl. split; [eauto|]. split; [eauto|].
    eexists. split; [done|]. by apply hasStats_insert.
  - split; [eauto|]. split; [eauto|]. eauto.
Qed.

Lemma getAvailableKeyCount_returns now self :
  hasStats self -> exists n, getAvailableKeyCount now self = Some n.
Proof.
  intros Hs. unfold getAvailableKeyCount.
  assert (H : forall l, Forall (fun i => i < length (apiKeys self)) l ->
            exists n, foldr (fun index acc =>
                               n ← acc; a ← isAvailable now self index;
                               Some (if a : bool then S n else n))
                            (Some 0) l = Some n).
  { induction l as [|i l IH]; intros Hl; [by eauto|].
    apply Forall_cons in Hl as [Hi Hl]. destruct (IH Hl) as [n Hn].
    simpl. rewrite Hn. simpl. unfold isAvailable.
    destruct (Hs i Hi) as [st ->]. simpl. eauto. }
  apply H, Forall_forall. intros i Hi. apply elem_of_seq in Hi. lia.
Qed.

(** Calls on the rotator keep its invariant. *)
Lemma step_wf c self self' :
  wf self -> RotatorTrace.step c self = Some self' -> wf self'.
Proof.
  intros Hw H. destruct c as [now|now k d|k|k]; simpl in H.
  - destruct (getNextKey now self) as [[key s1]|] eqn:E; simpl in H; [|discriminate].
    injection H as <-. unfold getNextKey in E.
    destruct (getNextKey_index now self) as [[i s2]|] eqn:Ei; simpl in E; [|discriminate].
    injection E as _ <-. by apply (getNextKey_index_frame _ _ _ _ Ei).
  - unfold markRateLimited in H. destruct (indexOf self k); [|by injection H as <-].
    destruct (keyStats self !! n); simpl in H; [|discriminate].
    injection H as <-. destruct Hw. split; [done|]. by apply hasStats_insert.
  - unfold markFailed in H. destruct (indexOf self k); [|by injection H as <-].
    destruct (keyStats self !! n); simpl in H; [|discriminate].
    injection H as <-. destruct Hw as [Hc Hs].
    match goal with |- context [if ?c then _ else _] => destruct c end;
      (split; [done|]); by apply hasStats_insert.
  - unfold markSuccess in H. destruct (indexOf self k); [|by injection H as <-].
    destruct (keyStats self !! n); simpl in H; [|discriminate].
    injection H as <-. destruct Hw as [Hc Hs]. split; [done|]. by apply hasStats_insert.
Qed.

Lemma run_wf calls self self' :
  wf self -> RotatorTrace.run calls self = Some self' -> wf self'.
Proof.
  revert self. induction calls as [|c calls IH]; intros self Hw H; simpl in H.
  - by injection H as <-.
  - destruct (RotatorTrace.step c self) as [s1|] eqn:E; simpl in H; [|discriminate].
    apply (IH s1); [|done]. by apply (step_wf c self).
Qed.

Lemma default_run_wf calls self :
  wf self -> wf (default self (RotatorTrace.run calls self)).
Proof.
  intros Hw. destruct (RotatorTrace.run calls self) as [s|] eqn:E; [|done].
  by apply (run_wf calls self).
Qed.
End RotatorReturns.

(** *** The embedder on a well-formed rotator *)

Section RotatingProps.
Import ParallelGeminiEmbedder.
Variable shared : RotatingEmbedder.Shared.
Variable p : Provider.

Lemma concat_imap_singleton {B C} (g : nat -> B -> C) (l : list B) :
  concat (imap (fun i x => [g i x]) l) = imap g l.
Proof.
  revert g. induction l as [|x l IH]; intros g; [done|].
  simpl. f_equal. apply (IH (g ∘ S)).
Qed.

Lemma rejections_resolved {B} (values : list B) :
  RotatingEmbedder.rejections (map Resolved values) = [] /\
  RotatingEmbedder.resolutions (map Resolved values) = values.
Proof.
  unfold RotatingEmbedder.rejections, RotatingEmbedder.resolutions.
  induction values as [|v values [IH1 IH2]]; [done|]. simpl.
  split; [exact IH1|]. f_equal. exact IH2.
Qed.

Hypothesis shared_wf : RotatingEmbedder.wellFormed shared.

(** With a well-formed rotator the rotator calls make no difference to
    what the embedder returns. *)
Lemma rotating_embedIndividually batchIndex textBatch :
  RotatingEmbedder.embedIndividually shared p batchIndex textBatch
  = embedIndividually (embedContent p batchIndex) textBatch.
Proof.
  unfold RotatingEmbedder.embedIndividually, embedIndividually. f_equal.
  symmetry. etransitivity; [symmetry; apply concat_imap_singleton|].
  f_equal. apply imap_ext. intros i text _. simpl.
  destruct (getNextKey_returns
              (RotatingEmbedder.clock shared (RotatingEmbedder.SingleStart batchIndex i))
              _ (shared_wf (RotatingEmbedder.SingleStart batchIndex i)))
    as (key & self' & ->).
  destruct (embedContent p batchIndex i text) as [values|]; [|done].
  destruct (marks_return 0 0 key _
              (proj2 (shared_wf (RotatingEmbedder.SingleEnd batchIndex i))))
    as ([s Hs] & _).
  unfold RotatingEmbedder.mark. by rewrite Hs.
Qed.

Lemma rotating_catchBatch batchIndex attempt apiKey message next :
  RotatingEmbedder.catchBatch shared batchIndex attempt (Some apiKey) message next = next.
Proof.
  unfold RotatingEmbedder.catchBatch, RotatingEmbedder.mark.
  set (self := RotatingEmbedder.rotator shared _). set (now := RotatingEmbedder.clock shared _).
  destruct (marks_return now 60000 apiKey self
              (proj2 (shared_wf (RotatingEmbedder.BatchEnd batchIndex attempt))))
    as (_ & [s1 Hf] & (s2 & Hr & Hs2)).
  destruct (RotatingEmbedder.isRateLimitError message); simpl.
  - rewrite Hr. by destruct (getAvailableKeyCount_returns now s2 Hs2) as [n ->].
  - by rewrite Hf.
Qed.

Lemma rotating_embedBatch_from remaining textBatch batchIndex attempt :
  RotatingEmbedder.embedBatch_from remaining shared p textBatch batchIndex attempt
  = Resolved (embedBatch_from remaining p textBatch batchIndex attempt).
Proof.
  revert attempt. induction remaining as [|r IH]; intros attempt; simpl;
    destruct (getNextKey_returns
                (RotatingEmbedder.clock shared (RotatingEmbedder.BatchStart batchIndex attempt))
                _ (shared_wf (RotatingEmbedder.BatchStart batchIndex attempt)))
      as (key & self' & ->);
    destruct (marks_return 0 0 key _
                (proj2 (shared_wf (RotatingEmbedder.BatchEnd batchIndex attempt))))
      as ([s Hs] & _);
    destruct (batchEmbedContents p batchIndex attempt textBatch) as [vs|m];
    try unfold RotatingEmbedder.mark;
    rewrite ?Hs, ?rotating_catchBatch, ?rotating_embedIndividually, ?IH; done.
Qed.

Lemma rotating_embedChunks textChunks :
  RotatingEmbedder.embedChunks shared p textChunks
  = Resolved <$> embedChunks p textChunks.
Proof.
  unfold RotatingEmbedder.embedChunks, embedChunks.
  destruct (length textChunks =? 0); [done|].
  destruct (Util.chunkArray textChunks maxBatchSize) as [batches|]; [|done]. simpl.
  f_equal. unfold RotatingEmbedder.allFlat.
  rewrite (imap_ext _ (fun index batch => Resolved (embedBatch p batch index))).
  2:{ intros i batch _. apply rotating_embedBatch_from. }
  assert (Hmap : imap (fun index batch => Resolved (embedBatch p batch index)) batches
                 = map Resolved (imap (fun index batch => embedBatch p batch index) batches)).
  { symmetry. apply (fmap_imap (fun index batch => embedBatch p batch index) Resolved). }
  rewrite Hmap. destruct (rejections_resolved
    (imap (fun index batch => embedBatch p batch index) batches)) as [-> ->]. done.
Qed.
End RotatingProps.

Lemma filter_concat_imap_length {B C} (keep : C -> bool) (g : nat -> B -> list C)
    (l : list B) :
  (forall i x, length (List.filter keep (g i x)) <= 1) ->
  length (List.filter keep (concat (imap g l))) <= length l.
Proof.
  revert g. induction l as [|x l IH]; intros g Hg; [done|].
  cbn [imap concat length]. rewrite List.filter_app, length_app.
  pose proof (Hg 0 x). pose proof (IH (g ∘ S) (fun i => Hg (S i))). lia.
Qed.

(** Without any assumption on the rotator: what [embedIndividually]
    returns has no [null] and at most one entry per text. *)
Lemma rotating_embedIndividually_shape shared p batchIndex textBatch :
  Forall is_Some (RotatingEmbedder.embedIndividually shared p batchIndex textBatch) /\
  length (RotatingEmbedder.embedIndividually shared p batchIndex textBatch)
  <= length textBatch.
Proof.
  unfold RotatingEmbedder.embedIndividually. split.
  - apply Forall_forall. intros e He.
    apply list_elem_of_In, List.filter_In in He as [_ He].
    destruct e; [eauto|discriminate].
  - apply filter_concat_imap_length. intros i text.
    destruct (ApiKeyRotator.getNextKey _ _) as [[apiKey ?]|]; [|simpl; lia].
    destruct (ParallelGeminiEmbedder.embedContent p batchIndex i text); [|simpl; lia].
    destruct (RotatingEmbedder.mark _ _ _); simpl; lia.
Qed.

Lemma rotating_embedBatch_from_shape shared p remaining textBatch batchIndex attempt vs :
  RotatingEmbedder.embedBatch_from remaining shared p textBatch batchIndex attempt
  = ParallelGeminiEmbedder.Resolved vs ->
  Forall is_Some vs /\
  (ParallelGeminiEmbedder.answersInFull p -> length vs <= length textBatch).
Proof.
  revert attempt.
  assert (Hcatch : forall a key m next,
            RotatingEmbedder.catchBatch shared batchIndex a key m next
            = ParallelGeminiEmbedder.Resolved vs ->
            next = ParallelGeminiEmbedder.Resolved vs).
  { intros a key m next. unfold RotatingEmbedder.catchBatch.
    destruct (RotatingEmbedder.isRateLimitError m).
    - destruct (RotatingEmbedder.mark _ _ _); [|discriminate].
      destruct (ApiKeyRotator.getAvailableKeyCount _ _); [done|discriminate].
    - destruct (RotatingEmbedder.mark _ _ _); [done|discriminate]. }
  assert (Hres : forall embeddings a,
            ParallelGeminiEmbedder.batchEmbedContents p batchIndex a textBatch
            = ParallelGeminiEmbedder.Resolved embeddings ->
            Some <$> embeddings = vs ->
            Forall is_Some vs /\
            (ParallelGeminiEmbedder.answersInFull p -> length vs <= length textBatch)).
  { intros embeddings a He <-. split.
    - apply Forall_fmap, Forall_true. simpl. eauto.
    - intros Hfull. rewrite length_fmap, (Hfull _ _ _ _ He). lia. }
  assert (Hind : forall vs',
            ParallelGeminiEmbedder.Resolved
              (RotatingEmbedder.embedIndividually shared p batchIndex textBatch)
            = ParallelGeminiEmbedder.Resolved vs' ->
            Forall is_Some vs' /\
            (ParallelGeminiEmbedder.answersInFull p -> length vs' <= length textBatch)).
  { intros vs' [= <-].
    destruct (rotating_embedIndividually_shape shared p batchIndex textBatch). auto. }
  induction remaining as [|r IH]; intros attempt; simpl;
    (destruct (ApiKeyRotator.getNextKey _ _) as [[apiKey ?]|]; [|discriminate]);
    destruct (ParallelGeminiEmbedder.batchEmbedContents p batchIndex attempt textBatch)
      as [embeddings|m] eqn:Eb.
  - destruct (RotatingEmbedder.mark _ _ _).
    + intros [= H]. by apply (Hres embeddings attempt).
    + intros H%Hcatch. by apply Hind.
  - intros H%Hcatch. by apply Hind.
  - destruct (RotatingEmbedder.mark _ _ _).
    + intros [= H]. by apply (Hres embeddings attempt).
    + intros H%Hcatch. by apply (IH (S attempt)).
  - intros H%Hcatch. by apply (IH (S attempt)).
Qed.

Lemma allFlat_resolved {B} race (results : list (ParallelGeminiEmbedder.response (list B))) vs :
  RotatingEmbedder.allFlat race results = ParallelGeminiEmbedder.Resolved vs ->
  results = map ParallelGeminiEmbedder.Resolved (RotatingEmbedder.resolutions results) /\
  vs = concat (RotatingEmbedder.resolutions results).
Proof.
  unfold RotatingEmbedder.allFlat.
  destruct (RotatingEmbedder.rejections results) as [|m [|m' ms]] eqn:E; try discriminate.
  intros [= <-]. split; [|done].
  unfold RotatingEmbedder.rejections, RotatingEmbedder.resolutions in *.
  induction results as [|[v|m] results IH]; [done| |].
  - simpl in *. f_equal. by apply IH.
  - simpl in E. discriminate.
Qed.

Lemma rotating_embedBatches_shape shared p batches (g : nat -> nat) :
  Forall2 (fun batch r => forall vs,
             r = ParallelGeminiEmbedder.Resolved vs ->
             Forall is_Some vs /\
             (ParallelGeminiEmbedder.answersInFull p -> length vs <= length batch))
          batches
          (imap (fun index batch =>
                   RotatingEmbedder.embedBatch shared p batch (g index)) batches).
Proof.
  revert g. induction batches as [|b bs IH]; intros g; [constructor|].
  simpl. constructor; [|apply (IH (g ∘ S))].
  intros vs Hvs. by apply (rotating_embedBatch_from_shape _ _ _ _ _ _ _ Hvs).
Qed.

(** What a resolved [embedChunks] holds. *)
Lemma rotating_embedChunks_shape shared p textChunks vs :
  RotatingEmbedder.embedChunks shared p textChunks
  = Some (ParallelGeminiEmbedder.Resolved vs) ->
  Forall is_Some vs /\
  (ParallelGeminiEmbedder.answersInFull p -> length vs <= length textChunks).
Proof.
  unfold RotatingEmbedder.embedChunks.
  destruct (length textChunks =? 0) eqn:E.
  - intros [= <-]. split; [constructor|simpl; lia].
  - destruct (chunkArray_spec textChunks ParallelGeminiEmbedder.maxBatchSize)
      as (batches & Hc & Hcat & _); [unfold ParallelGeminiEmbedder.maxBatchSize; lia|].
    rewrite Hc. simpl. intros [= Hvs].
    apply allFlat_resolved in Hvs as [Hres ->].
    set (results := imap _ batches) in *.
    pose proof (rotating_embedBatches_shape shared p batches (fun i => i)) as Hshape.
    cbv beta in Hshape. fold results in Hshape.
    rewrite <- Hcat. clear Hc Hcat E.
    set (values := RotatingEmbedder.resolutions results) in *. clearbody values.
    rewrite Hres in Hshape. clear Hres. clear results. revert batches Hshape.
    induction values as [|v values IH]; intros batches Hshape.
    + split; [constructor|simpl; lia].
    + destruct batches as [|b bs]; [by apply Forall2_nil_cons_inv in Hshape|].
      apply Forall2_cons in Hshape as [Hb Hrest].
      destruct (Hb v eq_refl) as [Hv Hl]. destruct (IH bs Hrest) as [Hvs Hls].
      simpl. split; [by apply Forall_app|].
      intros Hfull. specialize (Hl Hfull). specialize (Hls Hfull).
      rewrite !length_app. lia.
Qed.

(** On the pool of the fallback key, which has no statistics, every mark
    throws: a batch request is rejected whatever the provider answers. *)
Lemma fallback_embedBatch_rejects shared p envKey remaining textBatch batchIndex attempt :
  (forall s, RotatingEmbedder.rotator shared s = ApiKeyRotator.constructor [] envKey) ->
  exists message,
    RotatingEmbedder.embedBatch_from remaining shared p textBatch batchIndex attempt
    = ParallelGeminiEmbedder.Rejected message.
Proof.
  intros Hpool.
  assert (Hcatch : forall m next, exists message,
            RotatingEmbedder.catchBatch shared batchIndex attempt (Some envKey) m next
            = ParallelGeminiEmbedder.Rejected message).
  { intros m next. unfold RotatingEmbedder.catchBatch. rewrite Hpool.
    unfold RotatingEmbedder.mark, ApiKeyRotator.markRateLimited, ApiKeyRotator.markFailed,
      ApiKeyRotator.indexOf. simpl. rewrite String.eqb_refl. simpl.
    destruct (RotatingEmbedder.isRateLimitError m); eauto. }
  assert (Hkey : forall now, ApiKeyRotator.getNextKey now (ApiKeyRotator.constructor [] envKey)
                 = Some (Some envKey, ApiKeyRotator.constructor [] envKey)) by done.
  destruct remaining as [|r]; simpl; rewrite !Hpool, Hkey;
    (destruct (ParallelGeminiEmbedder.batchEmbedContents p batchIndex attempt textBatch);
     [|apply Hcatch]);
    unfold RotatingEmbedder.mark at 1, ApiKeyRotator.markSuccess, ApiKeyRotator.indexOf;
    simpl; rewrite String.eqb_refl; simpl; apply Hcatch.
Qed.

Lemma allFlat_rejected {B} race (results : list (ParallelGeminiEmbedder.response (list B))) :
  results <> [] ->
  Forall (fun r => exists message, r = ParallelGeminiEmbedder.Rejected message) results ->
  exists message, RotatingEmbedder.allFlat race results
                  = ParallelGeminiEmbedder.Rejected message.
Proof.
  intros Hne Hall. unfold RotatingEmbedder.allFlat.
  destruct results as [|r results]; [done|].
  apply Forall_cons in Hall as [[m ->] _].
  change (RotatingEmbedder.rejections (ParallelGeminiEmbedder.Rejected m :: results))
    with (m :: RotatingEmbedder.rejections results).
  destruct (RotatingEmbedder.rejections results) as [|m' ms]; eauto.
Qed.


(** The embedder without its rotator calls, when every batch gets
    through. *)
Lemma embedChunks_answered p (f : string -> list Q) textChunks :
  (forall batchIndex texts, ParallelGeminiEmbedder.answersBatch p f batchIndex texts) ->
  ParallelGeminiEmbedder.embedChunks p textChunks
  = Some (map (fun text => Some (f text)) textChunks).
Proof.
  intros Hall. unfold ParallelGeminiEmbedder.embedChunks.
  destruct (length textChunks =? 0) eqn:E.
  - apply Nat.eqb_eq in E. by destruct textChunks.
  - destruct (chunkArray_spec textChunks ParallelGeminiEmbedder.maxBatchSize)
      as (batches & -> & Hcat & _); [unfold ParallelGeminiEmbedder.maxBatchSize; lia|].
    simpl. f_equal. rewrite <- Hcat. clear Hcat E.
    rewrite (imap_ext _ (fun _ batch => map (fun text => Some (f text)) batch)).
    + rewrite imap_ignore. symmetry. apply concat_map.
    + intros i batch _. by apply embedBatch_answered.
Qed.

(** [chunkArray] with [maxBatchSize = 100] ends, so [embedChunks]
    settles. *)
Lemma rotating_embedChunks_settles shared p textChunks :
  exists settled, RotatingEmbedder.embedChunks shared p textChunks = Some settled.
Proof.
  unfold RotatingEmbedder.embedChunks. destruct (length textChunks =? 0); [by eauto|].
  destruct (chunkArray_spec textChunks ParallelGeminiEmbedder.maxBatchSize)
    as (batches & -> & _); [unfold ParallelGeminiEmbedder.maxBatchSize; lia|].
  simpl. eauto.
Qed.

(** The embedder with its rotator when every batch gets through. *)
Lemma embedChunks_aligned_helper shared p (f : string -> list Q) textChunks :
  RotatingEmbedder.wellFormed shared ->
  (forall batchIndex texts, ParallelGeminiEmbedder.answersBatch p f batchIndex texts) ->
  RotatingEmbedder.embedChunks shared p textChunks
  = Some (ParallelGeminiEmbedder.Resolved (map (fun text => Some (f text)) textChunks)).
Proof.
  intros Hwf Hall. rewrite (rotating_embedChunks shared p Hwf).
  by rewrite (embedChunks_answered p f textChunks Hall).
Qed.

(** Without a configured key the first batch attempt ends the call:
    the request is rejected and [markFailed] throws inside the [catch]. *)
Example embedChunks_without_keys :
  RotatingEmbedder.embedChunks EmbeddingCases.noKeys EmbeddingCases.slowStart
    ["clause one"]
  = Some (ParallelGeminiEmbedder.Rejected
            "Cannot read properties of undefined (reading 'failures')").
Proof. reflexivity. Qed.

(** X17.  Aligned embeddings.  With a rotator that has statistics for
    every key of its pool (as when at least one key is configured), and
    when every batch gets through to the provider (at one of the three
    batch attempts, or text by text in the fallback after three rejected
    attempts), [embedChunks] returns one embedding per chunk, in the
    order of the chunks: entry [i] is the embedding of [textChunks[i]]. *)
Theorem embedChunks_aligned_when_every_text_embeds
    (shared : RotatingEmbedder.Shared) (p : ParallelGeminiEmbedder.Provider)
    (f : string -> list Q) (textChunks : list string) :
  RotatingEmbedder.wellFormed shared ->
  (forall batchIndex texts, ParallelGeminiEmbedder.answersBatch p f batchIndex texts) ->
  RotatingEmbedder.embedChunks shared p textChunks
  = Some (ParallelGeminiEmbedder.Resolved (map (fun text => Some (f text)) textChunks)).
Proof.
  intros Hwf Hall. by apply embedChunks_aligned_helper.
Qed.

(** Three configured keys and a provider whose batch requests fail once
    before they get through. *)
Lemma embedChunks_aligned_when_every_text_embeds_witness :
  RotatingEmbedder.embedChunks EmbeddingCases.oneRetry EmbeddingCases.slowStart
    ["clause one"; "clause two!"]
  = Some (ParallelGeminiEmbedder.Resolved
            (map (fun text => Some (EmbeddingCases.measure text))
                 ["clause one"; "clause two!"])).
Proof.
  apply (embedChunks_aligned_when_every_text_embeds EmbeddingCases.oneRetry
           EmbeddingCases.slowStart EmbeddingCases.measure ["clause one"; "clause two!"]).
  - intros s. apply default_run_wf, constructor_wf. discriminate.
  - intros batchIndex texts. left. exists 2.
    split; [unfold ParallelGeminiEmbedder.maxRetries; lia|].
    split; [reflexivity|].
    intros earlier He. exists "503"%string.
    destruct earlier as [|[|earlier]]; [lia|reflexivity|lia].
Defined.

(** X18.  How [embedChunks] settles.  With a provider whose batch
    responses hold one embedding per text, the promise of [embedChunks]
    settles; when it resolves, the array has no [null] entry and is
    never longer than the list of chunks.  It does resolve when the
    rotator has statistics for every key of its pool; on the pool that
    holds only the fallback key [GEMINI_API_KEY], for which the
    constructor sets up no statistics, it is rejected for every
    non-empty list of chunks, whatever the provider answers. *)
Theorem embedChunks_no_surplus
    (shared : RotatingEmbedder.Shared) (p : ParallelGeminiEmbedder.Provider)
    (textChunks : list string) :
  ParallelGeminiEmbedder.answersInFull p ->
  exists settled,
    RotatingEmbedder.embedChunks shared p textChunks = Some settled /\
    (forall vectorValues,
       settled = ParallelGeminiEmbedder.Resolved vectorValues ->
       Forall is_Some vectorValues /\ length vectorValues <= length textChunks) /\
    (RotatingEmbedder.wellFormed shared ->
     exists vectorValues, settled = ParallelGeminiEmbedder.Resolved vectorValues) /\
    (forall envKey,
       (forall s, RotatingEmbedder.rotator shared s
                  = ApiKeyRotator.constructor [] envKey) ->
       textChunks <> [] ->
       exists message, settled = ParallelGeminiEmbedder.Rejected message).
Proof.
  intros Hfull.
  destruct (rotating_embedChunks_settles shared p textChunks) as [settled Hs]. exists settled. split; [done|]. split; [|split].
  - intros vs ->. destruct (rotating_embedChunks_shape _ _ _ _ Hs) as [H1 H2]. auto.
  - intros Hwf. rewrite (rotating_embedChunks shared p Hwf) in Hs.
    destruct (ParallelGeminiEmbedder.embedChunks p textChunks) as [vs|]; simpl in Hs;
      [|discriminate].
    injection Hs as <-. eauto.
  - intros envKey Hpool Hne. unfold RotatingEmbedder.embedChunks in Hs.
    destruct (length textChunks =? 0) eqn:E.
    { apply Nat.eqb_eq in E. by destruct textChunks. }
    destruct (chunkArray_spec textChunks ParallelGeminiEmbedder.maxBatchSize)
      as (batches & Hc & Hcat & _); [unfold ParallelGeminiEmbedder.maxBatchSize; lia|].
    rewrite Hc in Hs. simpl in Hs. injection Hs as <-.
    apply allFlat_rejected.
    + destruct batches; [by rewrite <- Hcat in Hne|done].
    + apply Forall_forall. intros r Hr. apply list_elem_of_lookup in Hr as [i Hi].
      apply list_lookup_imap_Some in Hi as (batch & _ & ->).
      by apply (fallback_embedBatch_rejects shared p envKey).
Qed.

(** The provider whose batch requests get through at the second
    attempt, with three configured keys. *)
Lemma embedChunks_no_surplus_witness :
  exists settled,
    RotatingEmbedder.embedChunks EmbeddingCases.oneRetry EmbeddingCases.slowStart
      ["clause one"; "clause two!"] = Some settled /\
    (forall vectorValues,
       settled = ParallelGeminiEmbedder.Resolved vectorValues ->
       Forall is_Some vectorValues /\ length vectorValues <= 2) /\
    (RotatingEmbedder.wellFormed EmbeddingCases.oneRetry ->
     exists vectorValues, settled = ParallelGeminiEmbedder.Resolved vectorValues) /\
    (forall envKey,
       (forall s, RotatingEmbedder.rotator EmbeddingCases.oneRetry s
                  = ApiKeyRotator.constructor [] envKey) ->
       ["clause one"; "clause two!"]%string <> [] ->
       exists message, settled = ParallelGeminiEmbedder.Rejected message).
Proof.
  apply (embedChunks_no_surplus EmbeddingCases.oneRetry EmbeddingCases.slowStart
           ["clause one"; "clause two!"]).
  intros batchIndex attempt texts embeddings H. simpl in H.
  destruct (attempt <=? 1); [discriminate|]. injection H as <-. by rewrite length_map.
Defined.

(** ** Vector persistence with every awaited call *)

Section PersistenceProps.
Import ParallelGeminiEmbedder ParallelQdrantProvider.

(** With an embedding for every chunk the loop builds one point per
    chunk, vector and text side by side. *)
Lemma provider_prepare_aligned w meta (f : string -> list Q) textChunks rest i dim :
  (forall j text, rest !! j = Some text -> textChunks !! (i + j) = Some text) ->
  exists dim',
    prepare w meta textChunks (map (fun text => Some (f text)) rest) i dim
    = Some (imap (fun j text =>
                    {| ParallelQdrant.id := uuidv4 w (i + j);
                       ParallelQdrant.vector := Some (f text);
                       ParallelQdrant.payload_text := Some text;
                       ParallelQdrant.payload_meta := meta |}) rest,
            dim').
Proof.
  revert i dim. induction rest as [|text rest IH]; intros i dim H; simpl.
  - by exists dim.
  - set (dim1 := match dim with Some (S d) => _ | _ => _ end).
    assert (exists d1, dim1 = Some d1) as [d1 ->].
    { unfold dim1. destruct dim as [[|d]|]; simpl; eauto. }
    simpl.
    destruct (IH (S i) d1) as [dim' ->].
    { intros j t Hj. replace (S i + j) with (i + S j) by lia. by apply H. }
    simpl. exists dim'.
    pose proof (H 0 text eq_refl) as H0. rewrite Nat.add_0_r in H0.
    rewrite H0, Nat.add_0_r. do 3 f_equal.
    apply imap_ext. intros j t _. simpl. do 2 f_equal. lia.
Qed.


(** The loop over one cached group, in closed form. *)
Lemma submissionOf_closed w offset k group :
  submissionOf w (offset + k) group
  = map (fun jc => {| cr_id := uuidv4 w (offset + fst jc);
                      cr_vector := cached_vector (snd jc);
                      cr_payload := withoutId (default [] (cached_payload (snd jc))) |})
        (List.filter (fun jc => carriesId (snd jc))
                     (imap (fun j c => (k + j, c)) group)).
Proof.
  revert k. induction group as [|c rest IH]; intros k; [done|].
  cbn [submissionOf imap List.filter]. cbn [snd]. unfold carriesId at 1.
  assert (Hrest : submissionOf w (S (offset + k)) rest
                  = map (fun jc => {| cr_id := uuidv4 w (offset + fst jc);
                                      cr_vector := cached_vector (snd jc);
                                      cr_payload :=
                                        withoutId (default [] (cached_payload (snd jc))) |})
                        (List.filter (fun jc => carriesId (snd jc))
                           (imap ((fun j c => (k + j, c)) ∘ S) rest))).
  { replace (S (offset + k)) with (offset + S k) by lia. rewrite IH.
    do 2 f_equal. apply imap_ext. intros j c' _. simpl. f_equal. lia. }
  destruct (cached_payload c) as [payload|] eqn:Ep; [|exact Hrest].
  destruct (hasIdKey payload); [|exact Hrest].
  cbn [map fst snd]. rewrite Ep, Hrest. cbn [default]. by rewrite Nat.add_0_r.
Qed.

Lemma withoutId_spec payload k v :
  (k, v) ∈ withoutId payload <-> (k, v) ∈ payload /\ k <> "id"%string.
Proof.
  unfold withoutId. rewrite !list_elem_of_In, List.filter_In. simpl.
  rewrite negb_true_iff, String.eqb_neq. done.
Qed.

(** The loop over the cached groups when every upsert completes. *)
Lemma upsertCached_completed w g n chunks :
  (forall k, k < length chunks ->
     exists additionResult,
       upsert w (g + k) = Resolved additionResult /\ completed additionResult = true) ->
  exists issued,
    upsertCached w g n chunks = (issued, map cr_id (concat issued), None) /\
    length issued = length chunks /\
    forall k group, chunks !! k = Some group ->
      issued !! k = Some (submissionOf w (n + length (concat (take k chunks))) group).
Proof.
  revert g n. induction chunks as [|group rest IH]; intros g n H.
  - exists []. split; [done|]. split; [done|]. intros k group Hk.
    by rewrite lookup_nil in Hk.
  - cbn [upsertCached].
    destruct (H 0 ltac:(simpl; lia)) as (r0 & H0 & Hc0). rewrite Nat.add_0_r in H0.
    rewrite H0, Hc0.
    destruct (IH (S g) (n + length group)) as (issued & -> & Hl & Hk).
    { intros k Hlt. replace (S g + k) with (g + S k) by lia. apply H. simpl. lia. }
    exists (submissionOf w n group :: issued).
    split; [by rewrite concat_cons, map_app|]. split; [simpl; by rewrite Hl|].
    intros [|k] group' Hg; simpl in Hg.
    + injection Hg as <-. simpl. by rewrite Nat.add_0_r.
    + change ((submissionOf w n group :: issued) !! S k) with (issued !! k).
      rewrite (Hk k group' Hg). cbn [take concat].
      do 2 f_equal. rewrite length_app. lia.
Qed.
End PersistenceProps.

(** X19.  Faithful payloads.  On the fresh path (cache skipped, or
    looked up and empty), with a text splitter that returns at least one
    chunk, a rotator that has statistics for every key of its pool,
    every batch getting through to the provider, and [connect],
    [getOrCreateCollection] (with a collection),
    the upsert (with status [completed]), [storeVectorResult] and
    [DocumentVectors.bulkInsert] all succeeding,
    [addDocumentToNamespace] resolves with
    [{ vectorized: true, error: null }], having upserted one point per
    chunk of the splitter's output (point [i] carries the embedding of
    chunk [i], the text of chunk [i], the document's metadata and the
    [i]-th generated id) and having passed those ids, paired with the
    document id, to [DocumentVectors.bulkInsert]. *)
Theorem addDocumentToNamespace_faithful_when_every_text_embeds
    (w : ParallelQdrantProvider.World) (documentData : ParallelQdrant.DocumentData)
    (skipCache : bool) (f : string -> list Q) (content : string)
    (textChunks : list string) (additionResult : ParallelQdrantProvider.UpsertResult) :
  ParallelQdrant.pageContent documentData = Some content ->
  content <> EmptyString ->
  skipCache = true \/
    ParallelQdrantProvider.cachedVectorInformation w = ParallelGeminiEmbedder.Resolved None ->
  ParallelQdrantProvider.splitText w content = ParallelGeminiEmbedder.Resolved textChunks ->
  textChunks <> [] ->
  RotatingEmbedder.wellFormed (ParallelQdrantProvider.shared w) ->
  (forall batchIndex texts,
     ParallelGeminiEmbedder.answersBatch (ParallelQdrantProvider.provider w) f
       batchIndex texts) ->
  ParallelQdrantProvider.connect w = ParallelGeminiEmbedder.Resolved tt ->
  ParallelQdrantProvider.getOrCreateCollection w = ParallelGeminiEmbedder.Resolved true ->
  ParallelQdrantProvider.upsert w 0 = ParallelGeminiEmbedder.Resolved additionResult ->
  ParallelQdrantProvider.completed additionResult = true ->
  ParallelQdrantProvider.storeVectorResult w = ParallelGeminiEmbedder.Resolved tt ->
  ParallelQdrantProvider.bulkInsert w = ParallelGeminiEmbedder.Resolved tt ->
  ParallelQdrantProvider.addDocumentToNamespace w documentData skipCache
  = ParallelQdrantProvider.resolves
      {| ParallelQdrantProvider.vectorized := true;
         ParallelQdrantProvider.error := None |}
      [ParallelQdrantProvider.Fresh
         (imap (fun i text =>
                  {| ParallelQdrant.id := ParallelQdrantProvider.uuidv4 w i;
                     ParallelQdrant.vector := Some (f text);
                     ParallelQdrant.payload_text := Some text;
                     ParallelQdrant.payload_meta := ParallelQdrant.metadata documentData |})
               textChunks)]
      (Some (imap (fun i _ => (ParallelQdrant.docId documentData,
                               ParallelQdrantProvider.uuidv4 w i)) textChunks)).
Proof.
  intros Hpc Hne Hcache Hsplit Hchunks Hwf Hall Hconn Hcoll Hup Hdone Hstore Hbulk.
  unfold ParallelQdrantProvider.addDocumentToNamespace. rewrite Hpc.
  destruct content as [|c content']; [done|].
  assert ((if skipCache then ParallelGeminiEmbedder.Resolved None
           else ParallelQdrantProvider.cachedVectorInformation w)
          = ParallelGeminiEmbedder.Resolved None) as ->.
  { destruct Hcache as [->| ->]; [done|]. by destruct skipCache. }
  rewrite Hsplit.
  rewrite (embedChunks_aligned_helper (ParallelQdrantProvider.shared w)
             (ParallelQdrantProvider.provider w) f textChunks Hwf Hall).
  destruct (getAvailableKeyCount_returns
              (RotatingEmbedder.clock (ParallelQdrantProvider.shared w)
                 RotatingEmbedder.PrintStats) _
              (proj2 (Hwf RotatingEmbedder.PrintStats))) as [n ->].
  destruct (provider_prepare_aligned w (ParallelQdrant.metadata documentData) f
              textChunks textChunks 0 None) as [dim' Hprep]; [done|].
  destruct textChunks as [|chunk chunks'] eqn:Ec; [done|]. rewrite <- Ec in *.
  destruct (map (fun text => Some (f text)) textChunks) as [|v vs] eqn:Ev.
  { rewrite Ec in Ev. discriminate. }
  rewrite Hprep, Hconn, Hcoll, Hup, Hdone, Hstore, Hbulk. cbn [negb].
  unfold ParallelQdrantProvider.resolves. do 2 f_equal.
  apply list_eq. intros i. rewrite list_lookup_fmap, !list_lookup_imap.
  by destruct (textChunks !! i).
Qed.

(** The two-chunk lease: three configured keys, a provider that needs a
    second attempt, a store that takes everything. *)
Lemma addDocumentToNamespace_faithful_when_every_text_embeds_witness :
  ParallelQdrantProvider.addDocumentToNamespace PersistenceCases.steady
    PersistenceCases.lease false
  = ParallelQdrantProvider.resolves
      {| ParallelQdrantProvider.vectorized := true;
         ParallelQdrantProvider.error := None |}
      [ParallelQdrantProvider.Fresh
         (imap (fun i text =>
                  {| ParallelQdrant.id := ParallelQdrantProvider.uuidv4 PersistenceCases.steady i;
                     ParallelQdrant.vector := Some (EmbeddingCases.measure text);
                     ParallelQdrant.payload_text := Some text;
                     ParallelQdrant.payload_meta := [("title", "Lease")] |})
               ["clause one"; "clause two!"])]
      (Some (imap (fun i _ => ("doc-1"%string,
                               ParallelQdrantProvider.uuidv4 PersistenceCases.steady i))
                  ["clause one"; "clause two!"]%string)).
Proof.
  apply (addDocumentToNamespace_faithful_when_every_text_embeds
           PersistenceCases.steady PersistenceCases.lease false EmbeddingCases.measure
           "clause one clause two!" ["clause one"; "clause two!"]
           {| ParallelQdrantProvider.completed := true;
              ParallelQdrantProvider.stringified := "{status:completed}" |}).
  - reflexivity.
  - discriminate.
  - right. reflexivity.
  - reflexivity.
  - discriminate.
  - intros s. apply default_run_wf, constructor_wf. discriminate.
  - intros batchIndex texts. left. exists 2.
    split; [unfold ParallelGeminiEmbedder.maxRetries; lia|].
    split; [reflexivity|].
    intros earlier He. exists "503"%string.
    destruct earlier as [|[|earlier]]; [lia|reflexivity|lia].
  - reflexivity.
  - reflexivity.
  - reflexivity.
  - reflexivity.
  - reflexivity.
  - reflexivity.
Defined.




(** X21.  Cached vectors.  When [connect] succeeds, the cache is not
    empty, the collection exists, every upsert completes and
    [DocumentVectors.bulkInsert] succeeds, [processCachedVectors]
    resolves with [{ vectorized: true, error: null }] after one upsert
    per cached group.  The upsert of a group holds exactly the entries
    whose payload has an [id] key, in their order, each with its vector,
    with its payload without the [id] (every other key and value kept)
    and with the id generated at its position, counted over all entries
    of the cache; entries without an [id] in the payload are dropped
    without an error.  The ids written are the ones passed, with the
    document id, to [DocumentVectors.bulkInsert]. *)
Theorem processCachedVectors_keeps_entries_with_payload_id
    (w : ParallelQdrantProvider.World) (docId : string)
    (chunks : list (list ParallelQdrantProvider.CachedPoint)) :
  ParallelQdrantProvider.connect w = ParallelGeminiEmbedder.Resolved tt ->
  chunks <> [] ->
  ParallelQdrantProvider.getOrCreateCollection w = ParallelGeminiEmbedder.Resolved true ->
  (forall g, g < length chunks ->
     exists additionResult,
       ParallelQdrantProvider.upsert w g = ParallelGeminiEmbedder.Resolved additionResult /\
       ParallelQdrantProvider.completed additionResult = true) ->
  ParallelQdrantProvider.bulkInsert w = ParallelGeminiEmbedder.Resolved tt ->
  exists issued,
    ParallelQdrantProvider.processCachedVectors w docId chunks
    = ParallelQdrantProvider.resolves
        {| ParallelQdrantProvider.vectorized := true;
           ParallelQdrantProvider.error := None |}
        (map ParallelQdrantProvider.Cached issued)
        (Some (map (fun r => (docId, ParallelQdrantProvider.cr_id r)) (concat issued))) /\
    length issued = length chunks /\
    (forall g group, chunks !! g = Some group ->
       issued !! g
       = Some (ParallelQdrantProvider.expectedSubmission w
                 (length (concat (take g chunks))) group)) /\
    (forall payload k v,
       (k, v) ∈ ParallelQdrantProvider.withoutId payload
       <-> (k, v) ∈ payload /\ k <> "id"%string).
Proof.
  intros Hconn Hne Hcoll Hdone Hbulk. unfold ParallelQdrantProvider.processCachedVectors.
  rewrite Hconn. destruct chunks as [|group0 rest] eqn:Ec; [done|]. rewrite <- Ec in *.
  rewrite Hcoll.
  destruct (upsertCached_completed w 0 0 chunks) as (issued & -> & Hl & Hk).
  { intros k Hlt. by apply Hdone. }
  rewrite Hbulk. exists issued. split; [|split; [done|split]].
  - unfold ParallelQdrantProvider.resolves. do 2 f_equal.
    by rewrite <- list_fmap_compose.
  - intros g group Hg. rewrite (Hk g group Hg). f_equal.
    unfold ParallelQdrantProvider.expectedSubmission.
    rewrite Nat.add_0_l.
    rewrite <- (Nat.add_0_r (length (concat (take g chunks)))) at 1.
    by rewrite submissionOf_closed.
  - apply withoutId_spec.
Qed.

(** A cache whose second entry has no [id] in its payload. *)
Lemma processCachedVectors_keeps_entries_with_payload_id_witness :
  exists issued,
    ParallelQdrantProvider.processCachedVectors PersistenceCases.steady "doc-1"
      PersistenceCases.cache
    = ParallelQdrantProvider.resolves
        {| ParallelQdrantProvider.vectorized := true;
           ParallelQdrantProvider.error := None |}
        (map ParallelQdrantProvider.Cached issued)
        (Some (map (fun r => ("doc-1"%string, ParallelQdrantProvider.cr_id r))
                   (concat issued))) /\
    length issued = 1 /\
    (forall g group, PersistenceCases.cache !! g = Some group ->
       issued !! g
       = Some (ParallelQdrantProvider.expectedSubmission PersistenceCases.steady
                 (length (concat (take g PersistenceCases.cache))) group)) /\
    (forall payload k v,
       (k, v) ∈ ParallelQdrantProvider.withoutId payload
       <-> (k, v) ∈ payload /\ k <> "id"%string).
Proof.
  apply (processCachedVectors_keeps_entries_with_payload_id PersistenceCases.steady
           "doc-1" PersistenceCases.cache).
  - reflexivity.
  - discriminate.
  - reflexivity.
  - intros g _. eexists. split; reflexivity.
  - reflexivity.
Defined.

(** ** Tokens *)

Section TokenizeMore.
Import BM25.

(** The pieces of [split(/\s+/)] hold no white space, and nothing that
    was not in the text or in the piece being read. *)
Lemma splitSpaces_pieces (P : ascii -> Prop) s cur inGap :
  (forall c, c ∈ s -> JS.isSpace c = false -> P c) -> Forall P cur ->
  Forall (Forall P) (splitSpaces s cur inGap).
Proof.
  revert cur inGap. induction s as [|c s IH]; intros cur inGap Hs Hcur; simpl.
  - by constructor.
  - assert (Hs' : forall c', c' ∈ s -> JS.isSpace c' = false -> P c').
    { intros c' Hin. apply Hs. by apply list_elem_of_further. }
    destruct (JS.isSpace c) eqn:E.
    + destruct inGap; [by apply IH|]. constructor; [done|]. by apply IH.
    + apply IH; [done|]. apply Forall_app. split; [done|].
      constructor; [|constructor]. apply Hs; [apply list_elem_of_here|done].
Qed.

Lemma blankSpecial_word c :
  JS.isSpace (blankSpecial c) = false -> JS.isWord (blankSpecial c) = true.
Proof.
  unfold blankSpecial.
  destruct (JS.isWord c) eqn:Ew; simpl; [done|].
  destruct (JS.isSpace c) eqn:Es; simpl; [by rewrite Es|].
  destruct (Ascii.eqb c "_") eqn:Eu; simpl.
  - apply Ascii.eqb_eq in Eu. subst c. done.
  - discriminate.
Qed.

Lemma toLowerCase_idempotent s : JS.toLowerCase (JS.toLowerCase s) = JS.toLowerCase s.
Proof.
  induction s as [|c s IH]; simpl; [done|]. rewrite IH. f_equal.
  unfold JS.lowerChar at 1. by rewrite lowerChar_not_upper.
Qed.

Lemma list_ascii_roundtrip l : list_ascii_of_string (string_of_list_ascii l) = l.
Proof. induction l as [|c l IH]; simpl; [done|]. by rewrite IH. Qed.
End TokenizeMore.

(** X22.  What a token looks like.  Every token returned by [tokenize]
    is non-empty, is made of word characters only ([\w]: letters, digits
    and the underscore; no white space, no punctuation), is not a stop
    word, and has more than two characters unless it is a legal
    abbreviation. *)
Theorem tokenize_tokens_wellformed (text token : string) :
  token ∈ BM25.tokenize text ->
  token <> EmptyString /\
  Forall (fun c => JS.isWord c = true) (list_ascii_of_string token) /\
  BM25.isStopWord token = false /\
  (String.length token <= 2 -> BM25.isLegalAbbreviation token = true).
Proof.
  unfold BM25.tokenize. destruct text as [|c0 text0]; [by intros H%elem_of_nil|].
  set (cleaned := map BM25.blankSpecial _).
  intros Hin. apply list_elem_of_In, List.filter_In in Hin as [Hin Hkeep].
  apply list_elem_of_In, list_elem_of_fmap in Hin as (piece & -> & Hpiece).
  assert (Hword : Forall (fun c => JS.isWord c = true) piece).
  { assert (Hall : Forall (Forall (fun c => JS.isWord c = true))
                           (BM25.splitSpaces cleaned [] false)).
    { apply splitSpaces_pieces; [|constructor].
      intros c Hc Hns. unfold cleaned in Hc.
      apply list_elem_of_fmap in Hc as (c' & -> & _). by apply blankSpecial_word. }
    exact (proj1 (Forall_forall _ _) Hall piece Hpiece). }
  unfold BM25.keepTerm in Hkeep.
  split; [|split; [|split]].
  - intros Heq. rewrite Heq in Hkeep. discriminate.
  - by rewrite list_ascii_roundtrip.
  - destruct (_ && _); [discriminate|]. by apply negb_true_iff in Hkeep.
  - intros Hlen. apply Nat.leb_le in Hlen. rewrite Hlen in Hkeep. simpl in Hkeep.
    destruct (BM25.isLegalAbbreviation _); [done|discriminate].
Qed.

(** A token of a short sentence. *)
Lemma tokenize_tokens_wellformed_witness :
  "bail"%string <> EmptyString /\
  Forall (fun c => JS.isWord c = true) (list_ascii_of_string "bail") /\
  BM25.isStopWord "bail" = false /\
  (String.length "bail" <= 2 -> BM25.isLegalAbbreviation "bail" = true).
Proof.
  apply (tokenize_tokens_wellformed "The bail, of J. Doe!" "bail").
  vm_compute. apply list_elem_of_here.
Defined.

(** X23.  Letter case.  [tokenize] reads its text after lower-casing
    only: two texts that differ in letter case alone give the same
    tokens, and so do a text and its lower-cased form. *)
Theorem tokenize_ignores_case (s t : string) :
  JS.toLowerCase s = JS.toLowerCase t ->
  BM25.tokenize s = BM25.tokenize t /\
  BM25.tokenize (JS.toLowerCase s) = BM25.tokenize s.
Proof.
  assert (H : forall a b, JS.toLowerCase a = JS.toLowerCase b ->
                          BM25.tokenize a = BM25.tokenize b).
  { intros a b Hab. unfold BM25.tokenize, BM25.preserveReferences.
    destruct a as [|ca a'], b as [|cb b']; try done; try discriminate.
    by rewrite Hab. }
  intros Hst. split; [by apply H|]. apply H, toLowerCase_idempotent.
Qed.

(** The same words in capitals and in mixed case. *)
Lemma tokenize_ignores_case_witness :
  BM25.tokenize "BAIL Appeal v State" = BM25.tokenize "Bail APPEAL V state" /\
  BM25.tokenize (JS.toLowerCase "BAIL Appeal v State") = BM25.tokenize "BAIL Appeal v State".
Proof.
  apply (tokenize_ignores_case "BAIL Appeal v State" "Bail APPEAL V state").
  reflexivity.
Defined.

(** ** The keyword index, continued *)

Section IndexContents.
Import BM25.

Lemma countTerms_from_lookup tokens (m : gmap string nat) t :
  foldl (fun termFreq token => increment token termFreq) m tokens !! t
  = if occurrences t tokens =? 0 then m !! t
    else Some (default 0 (m !! t) + occurrences t tokens).
Proof.
  revert m. induction tokens as [|x tokens IH]; intros m; [done|].
  cbn [foldl]. rewrite IH. unfold occurrences. cbn [List.filter].
  unfold increment at 1 2.
  destruct (String.eqb t x) eqn:E.
  - apply String.eqb_eq in E. subst x. rewrite !lookup_insert_eq. cbn [length default].
    destruct (length _ =? 0) eqn:E0.
    + apply Nat.eqb_eq in E0. rewrite E0. simpl. f_equal.
    + simpl. f_equal. unfold Datatypes.id. lia.
  - apply String.eqb_neq in E. by rewrite !lookup_insert_ne.
Qed.

Lemma countTerms_lookup tokens t :
  countTerms tokens !! t
  = if occurrences t tokens =? 0 then None else Some (occurrences t tokens).
Proof.
  unfold countTerms. rewrite countTerms_from_lookup, lookup_empty.
  by destruct (occurrences t tokens =? 0).
Qed.

Lemma holds_occurrences t d :
  holds t d = negb (occurrences t (docTokens d) =? 0).
Proof.
  unfold holds, occurrences. induction (docTokens d) as [|x l IH]; [done|].
  simpl. destruct (String.eqb t x); simpl; [done|exact IH].
Qed.

Lemma countDocument_lookup_Some termFreq tdf t :
  countDocument termFreq tdf !! t
  = match termFreq !! t with
    | Some _ => Some (default 0 (tdf !! t) + 1)
    | None => tdf !! t
    end.
Proof.
  unfold countDocument.
  apply (map_fold_weak_ind
           (fun r (m : gmap string nat) =>
              r !! t
              = match m !! t with
                | Some _ => Some (default 0 (tdf !! t) + 1)
                | None => tdf !! t
                end)).
  - by rewrite lookup_empty.
  - intros i x m r Hi IH. unfold increment.
    destruct (decide (i = t)) as [->|Hne].
    + rewrite !lookup_insert_eq. rewrite Hi in IH. by rewrite IH.
    + by rewrite !lookup_insert_ne.
Qed.

(** The first pass in closed form. *)
Lemma firstPass_closed docs tdf :
  exists tdf',
    firstPass docs tdf
    = (map (fun d => length (docTokens d)) docs,
       map (fun d => countTerms (docTokens d)) docs, tdf') /\
    forall t, tdf' !! t
              = if docFrequency t docs =? 0 then tdf !! t
                else Some (default 0 (tdf !! t) + docFrequency t docs).
Proof.
  revert tdf. induction docs as [|d docs IH]; intros tdf.
  - exists tdf. split; [done|]. intros t. done.
  - cbn [firstPass]. fold (docTokens d).
    destruct (IH (countDocument (countTerms (docTokens d)) tdf)) as (tdf' & -> & Ht).
    exists tdf'. split; [done|]. intros t. rewrite Ht, countDocument_lookup_Some.
    rewrite countTerms_lookup. unfold docFrequency. cbn [List.filter].
    rewrite holds_occurrences.
    destruct (occurrences t (docTokens d) =? 0); cbn [negb length].
    + done.
    + destruct (length (List.filter (holds t) docs) =? 0) eqn:E0; simpl.
      * apply Nat.eqb_eq in E0. rewrite E0. f_equal; lia.
      * f_equal; lia.
Qed.

Lemma overwrite_all {A} (array values : list A) :
  length array <= length values -> overwrite array values = values.
Proof. intros H. unfold overwrite. by rewrite drop_ge, app_nil_r. Qed.

Lemma docFrequency_app t docs1 docs2 :
  docFrequency t (docs1 ++ docs2) = docFrequency t docs1 + docFrequency t docs2.
Proof. unfold docFrequency. by rewrite List.filter_app, length_app. Qed.

Lemma docFrequency_member t docs i d :
  docs !! i = Some d -> holds t d = true -> 1 <= docFrequency t docs.
Proof.
  revert i. induction docs as [|d' docs IH]; intros i Hi Hh; [by rewrite lookup_nil in Hi|].
  unfold docFrequency. cbn [List.filter]. destruct i as [|i]; simpl in Hi.
  - injection Hi as ->. rewrite Hh. simpl. lia.
  - specialize (IH i Hi Hh). unfold docFrequency in IH.
    destruct (holds t d'); simpl; lia.
Qed.

Section WithLog.
Variable log : Q -> Q.

(** The index of a non-empty corpus, field by field. *)
Lemma constructor_closed docs options :
  docs <> [] ->
  exists tdf,
    constructor log docs options
    = {| k1 := JS.orQ (opt_k1 options) (3 # 2)%Q;
         b := JS.orQ (opt_b options) (3 # 4)%Q;
         documents := docs; documentCount := length docs;
         avgDocLength :=
           (ofNat (foldr Nat.add 0%nat (map (fun d => length (docTokens d)) docs))
            / ofNat (length docs))%Q;
         documentLengths := map (fun d => length (docTokens d)) docs;
         idf := idfOf log (length docs) <$> tdf;
         termFrequencies := map (fun d => countTerms (docTokens d)) docs |} /\
    forall t, tdf !! t
              = if docFrequency t docs =? 0 then None else Some (docFrequency t docs).
Proof.
  intros Hne. unfold constructor.
  assert ((0 <? length docs) = true) as ->.
  { apply Nat.ltb_lt. destruct docs; [done|simpl; lia]. }
  unfold buildIndex. destruct (firstPass_closed docs ∅) as (tdf & -> & Ht).
  exists tdf. split; [done|]. intros t. rewrite Ht, lookup_empty. done.
Qed.

Lemma constructor_idf_lookup docs options t :
  idf (constructor log docs options) !! t
  = if docFrequency t docs =? 0 then None
    else Some (idfOf log (length docs) (docFrequency t docs)).
Proof.
  destruct docs as [|d docs'] eqn:Ed.
  - unfold constructor. simpl. by rewrite lookup_empty.
  - rewrite <- Ed. destruct (constructor_closed docs options) as (tdf & -> & Ht);
      [by rewrite Ed|].
    cbn [idf]. rewrite lookup_fmap, Ht. by destruct (docFrequency t docs =? 0).
Qed.

Lemma constructor_document docs options i d :
  docs !! i = Some d ->
  documents (constructor log docs options) !! i = Some d /\
  documentLengths (constructor log docs options) !! i = Some (length (docTokens d)) /\
  termFrequencies (constructor log docs options) !! i = Some (countTerms (docTokens d)).
Proof.
  intros Hi. destruct (constructor_closed docs options) as (tdf & -> & _).
  { intros ->. by rewrite lookup_nil in Hi. }
  cbn [documents documentLengths termFrequencies].
  rewrite !list_lookup_fmap, Hi. done.
Qed.
End WithLog.
End IndexContents.

(** X24.  What the index holds.  For a non-empty corpus the constructor
    records, for every document, the number of its tokens and, for every
    term, how often the term occurs among them (no entry for a term that
    does not occur); [idf] has an entry exactly for the terms that occur
    in some document, computed from the number of documents holding the
    term; [avgDocLength] is the total number of tokens over the number
    of documents. *)
Theorem constructor_index_contents
    (log : Q -> Q) (docs : list BM25.Document) (options : BM25.Options) :
  docs <> [] ->
  let self := BM25.constructor log docs options in
  BM25.documentCount self = length docs /\
  BM25.documentLengths self = map (fun d => length (BM25.docTokens d)) docs /\
  (forall i d, docs !! i = Some d ->
     exists termFreq,
       BM25.termFrequencies self !! i = Some termFreq /\
       forall t, termFreq !! t
                 = if BM25.occurrences t (BM25.docTokens d) =? 0 then None
                   else Some (BM25.occurrences t (BM25.docTokens d))) /\
  (forall t, BM25.idf self !! t
             = if BM25.docFrequency t docs =? 0 then None
               else Some (BM25.idfOf log (length docs) (BM25.docFrequency t docs))) /\
  BM25.avgDocLength self
  = (BM25.ofNat (foldr Nat.add 0%nat (map (fun d => length (BM25.docTokens d)) docs))
     / BM25.ofNat (length docs))%Q.
Proof.
  intros Hne self.
  split; [|split; [|split; [|split]]].
  - unfold self. by destruct (constructor_closed log docs options Hne) as (tdf & -> & _).
  - unfold self. by destruct (constructor_closed log docs options Hne) as (tdf & -> & _).
  - intros i d Hi. exists (BM25.countTerms (BM25.docTokens d)).
    split; [by apply constructor_document|]. intros t. apply countTerms_lookup.
  - intros t. apply constructor_idf_lookup.
  - unfold self. by destruct (constructor_closed log docs options Hne) as (tdf & -> & _).
Qed.

(** The four-document corpus. *)
Lemma constructor_index_contents_witness :
  let self := BM25.constructor SearchScenarios.logLowerBound SearchScenarios.corpus
                {| BM25.opt_k1 := None; BM25.opt_b := None |} in
  BM25.documentCount self = 4 /\
  BM25.documentLengths self
  = map (fun d => length (BM25.docTokens d)) SearchScenarios.corpus /\
  (forall i d, SearchScenarios.corpus !! i = Some d ->
     exists termFreq,
       BM25.termFrequencies self !! i = Some termFreq /\
       forall t, termFreq !! t
                 = if BM25.occurrences t (BM25.docTokens d) =? 0 then None
                   else Some (BM25.occurrences t (BM25.docTokens d))) /\
  (forall t, BM25.idf self !! t
             = if BM25.docFrequency t SearchScenarios.corpus =? 0 then None
               else Some (BM25.idfOf SearchScenarios.logLowerBound 4
                            (BM25.docFrequency t SearchScenarios.corpus))) /\
  BM25.avgDocLength self
  = (BM25.ofNat (foldr Nat.add 0%nat
                   (map (fun d => length (BM25.docTokens d)) SearchScenarios.corpus))
     / BM25.ofNat 4)%Q.
Proof.
  apply (constructor_index_contents SearchScenarios.logLowerBound SearchScenarios.corpus
           {| BM25.opt_k1 := None; BM25.opt_b := None |}).
  discriminate.
Defined.

(** ** Scores and ranking *)

Section ScoreMore.
Import BM25.
Local Open Scope Q_scope.

(** A term that the document does not hold leaves the score alone. *)
Lemma addTerm_absent self docLength tokens score term :
  occurrences term tokens = 0%nat ->
  addTerm self docLength (countTerms tokens) score term = score.
Proof.
  intros H. unfold addTerm. rewrite countTerms_lookup, H. done.
Qed.

Lemma foldl_addTerm_filter self docLength tokens (keep : string -> bool) a q :
  (forall t, keep t = false -> occurrences t tokens = 0%nat) ->
  foldl (addTerm self docLength (countTerms tokens)) a q
  = foldl (addTerm self docLength (countTerms tokens)) a (List.filter keep q).
Proof.
  intros Hk. revert a. induction q as [|t q IH]; intros a; [done|].
  cbn [foldl List.filter]. destruct (keep t) eqn:E; cbn [foldl].
  - apply IH.
  - rewrite addTerm_absent by by apply Hk. apply IH.
Qed.

Lemma foldl_addTerm_nonneg self docLength termFreq a q :
  0 <= k1 self -> 0 <= b self <= 1 -> 0 <= avgDocLength self ->
  (forall t, 0 <= default 0 (idf self !! t)) ->
  0 <= a -> 0 <= foldl (addTerm self docLength termFreq) a q.
Proof.
  intros Hk Hb Havg Hidf. revert a. induction q as [|t q IH]; intros a Ha; [done|].
  cbn [foldl]. apply IH. unfold addTerm.
  destruct (default 0%nat (termFreq !! t) =? 0)%nat eqn:E; [done|].
  apply Nat.eqb_neq in E.
  pose proof (contribution_nonneg self Hk Hb Havg Hidf
                (default 0%nat (termFreq !! t)) docLength t ltac:(lia)).
  lra.
Qed.

(** *** The stable sort *)

Lemma descending_cons x l :
  Forall (fun y => score y <= score x) l -> descending l -> descending (x :: l).
Proof.
  intros Hx Hl i j hi hj Hij Hi Hj. destruct j as [|j]; [lia|]. simpl in Hj.
  destruct i as [|i]; simpl in Hi.
  - injection Hi as <-. rewrite Forall_forall in Hx. apply Hx.
    by eapply list_elem_of_lookup_2.
  - apply (Hl i j); [lia|done|done].
Qed.

Lemma descending_inv x l :
  descending (x :: l) -> Forall (fun y => score y <= score x) l /\ descending l.
Proof.
  intros H. split.
  - apply Forall_forall. intros y Hy. apply list_elem_of_lookup in Hy as [j Hj].
    apply (H 0%nat (S j)); [lia|done|done].
  - intros i j hi hj Hij Hi Hj. apply (H (S i) (S j)); [lia|done|done].
Qed.

Lemma insertHit_descending x sorted :
  descending sorted -> descending (insertHit x sorted).
Proof.
  induction sorted as [|y rest IH]; intros Hs; simpl.
  - apply descending_cons; [constructor|]. intros i j hi hj _ Hi. by rewrite lookup_nil in Hi.
  - destruct (descending_inv _ _ Hs) as [Hy Hrest].
    destruct (Qle_bool (score y - score x) 0) eqn:E.
    + apply Qle_bool_iff in E. apply descending_cons; [|done].
      constructor; [lra|]. eapply Forall_impl; [exact Hy|]. simpl. intros z Hz. lra.
    + assert (score x <= score y).
      { destruct (Qlt_le_dec 0 (score y - score x)) as [H|H]; [lra|].
        apply Qle_bool_iff in H. congruence. }
      apply descending_cons; [|by apply IH].
      by apply insertHit_Forall.
Qed.

Lemma sortHits_descending hits : descending (sortHits hits).
Proof.
  unfold sortHits. induction hits as [|h hits IH]; simpl.
  - intros i j hi hj _ Hi. by rewrite lookup_nil in Hi.
  - by apply insertHit_descending.
Qed.

Lemma take_descending k hits : descending hits -> descending (take k hits).
Proof.
  intros H i j hi hj Hij Hi Hj.
  apply lookup_take_Some in Hi as [Hi _]. apply lookup_take_Some in Hj as [Hj _].
  by apply (H i j).
Qed.

Lemma insertHit_Permutation x sorted : insertHit x sorted ≡ₚ x :: sorted.
Proof.
  induction sorted as [|y rest IH]; simpl; [done|].
  destruct (Qle_bool _ _); [done|]. rewrite IH. apply Permutation_swap.
Qed.

Lemma sortHits_Permutation hits : sortHits hits ≡ₚ hits.
Proof.
  unfold sortHits. induction hits as [|h hits IH]; simpl; [done|].
  by rewrite insertHit_Permutation, IH.
Qed.

Section WithLog.
Variable log : Q -> Q.

Lemma scoreDocument_indexed docs options i d q :
  docs !! i = Some d ->
  scoreDocument (constructor log docs options) i q
  = Some (foldl (addTerm (constructor log docs options) (length (docTokens d))
                         (countTerms (docTokens d))) 0 q).
Proof.
  intros Hi. unfold scoreDocument.
  destruct (constructor_document log docs options i d Hi) as (_ & -> & ->). done.
Qed.

(** The loop of [search] gives one hit per document, in index order. *)
Lemma scoreAll_indexed docs options q :
  exists all,
    scoreAll (constructor log docs options) q = Some all /\
    map index all = seq 0 (length docs) /\
    Forall (fun h => docs !! index h = Some (document h) /\
                     scoreDocument (constructor log docs options) (index h) q
                     = Some (score h) /\
                     hit_bm25Score h = None) all.
Proof.
  set (self := constructor log docs options).
  assert (HN : documentCount self = length docs).
  { unfold self, constructor. destruct (0 <? length docs)%nat eqn:E; simpl.
    - unfold buildIndex. by destruct (firstPass docs ∅) as [[? ?] ?].
    - apply Nat.ltb_ge in E. lia. }
  assert (Hdocs : documents self = docs).
  { unfold self, constructor. destruct (0 <? length docs)%nat eqn:E; simpl; [|done].
    unfold buildIndex. by destruct (firstPass docs ∅) as [[? ?] ?]. }
  unfold scoreAll. rewrite HN, Hdocs.
  set (f := fun i : nat => _).
  assert (Hsome : is_Some (mapM f (seq 0 (length docs)))).
  { apply mapM_is_Some_2, Forall_forall. intros i Hi.
    apply elem_of_seq in Hi. simpl.
    destruct (lookup_lt_is_Some_2 docs i ltac:(lia)) as [d Hd].
    unfold f, self. rewrite (scoreDocument_indexed docs options i d q Hd). simpl.
    rewrite Hd. simpl. eauto. }
  destruct Hsome as [all Hall]. exists all. split; [done|].
  pose proof (mapM_Some_1 _ _ _ Hall) as H2. split.
  - apply (mapM_fmap_Some_inv f index _ _ Hall). intros i h Hf. unfold f in Hf.
    destruct (scoreDocument self i q); simpl in Hf; [|discriminate].
    destruct (docs !! i); simpl in Hf; [|discriminate]. by injection Hf as <-.
  - clear Hall. induction H2 as [|i h l k Hf _ IH]; constructor; [|exact IH].
    unfold f in Hf.
    destruct (scoreDocument self i q) as [s|] eqn:Es; simpl in Hf; [|discriminate].
    destruct (docs !! i) as [d|] eqn:Ed; simpl in Hf; [|discriminate].
    injection Hf as <-. simpl. done.
Qed.
End WithLog.
End ScoreMore.

(** X25.  Scores are not negative.  In an index built by the
    constructor with [k1 >= 0] and [0 <= b <= 1], and with a logarithm
    that is non-negative from 1 on, [scoreDocument] returns a score of at
    least 0 for every indexed document and every query. *)
Theorem scoreDocument_nonnegative
    (log : Q -> Q) (docs : list BM25.Document) (options : BM25.Options)
    (docIndex : nat) (queryTokens : list string) :
  (forall x, 1 <= x -> 0 <= log x)%Q ->
  (0 <= BM25.k1 (BM25.constructor log docs options))%Q ->
  (0 <= BM25.b (BM25.constructor log docs options) <= 1)%Q ->
  docIndex < length docs ->
  exists s,
    BM25.scoreDocument (BM25.constructor log docs options) docIndex queryTokens = Some s /\
    (0 <= s)%Q.
Proof.
  intros Hlog Hk Hb Hi.
  destruct (lookup_lt_is_Some_2 docs docIndex Hi) as [d Hd].
  rewrite (scoreDocument_indexed log docs options docIndex d queryTokens Hd).
  eexists. split; [done|].
  apply foldl_addTerm_nonneg; try done.
  - apply constructor_avg_nonneg.
  - intros t. by apply constructor_idf_nonneg.
Qed.

(** The corpus of four documents, scored for two terms. *)
Lemma scoreDocument_nonnegative_witness :
  exists s,
    BM25.scoreDocument
      (BM25.constructor SearchScenarios.logLowerBound SearchScenarios.corpus
         {| BM25.opt_k1 := None; BM25.opt_b := None |})
      1 ["bail"; "appeal"]%string = Some s /\
    (0 <= s)%Q.
Proof.
  apply (scoreDocument_nonnegative SearchScenarios.logLowerBound SearchScenarios.corpus
           {| BM25.opt_k1 := None; BM25.opt_b := None |} 1 ["bail"; "appeal"]%string).
  - apply logLowerBound_nonneg.
  - vm_compute. discriminate.
  - split; vm_compute; discriminate.
  - simpl. lia.
Defined.

(** X26.  Only shared terms count.  The score of an indexed document
    depends on the query only through the query tokens that occur in the
    document: dropping the other tokens from the query does not change
    it, and a document that shares no token with the query scores 0. *)
Theorem scoreDocument_reads_shared_terms
    (log : Q -> Q) (docs : list BM25.Document) (options : BM25.Options)
    (docIndex : nat) (doc : BM25.Document) (queryTokens : list string) :
  docs !! docIndex = Some doc ->
  let self := BM25.constructor log docs options in
  BM25.scoreDocument self docIndex queryTokens
  = BM25.scoreDocument self docIndex
      (List.filter (fun t => BM25.holds t doc) queryTokens) /\
  (Forall (fun t => BM25.holds t doc = false) queryTokens ->
   BM25.scoreDocument self docIndex queryTokens = Some 0%Q).
Proof.
  intros Hd self. unfold self.
  rewrite !(scoreDocument_indexed log docs options docIndex doc _ Hd).
  assert (Hkeep : forall t, BM25.holds t doc = false ->
                            BM25.occurrences t (BM25.docTokens doc) = 0).
  { intros t Ht. rewrite holds_occurrences in Ht.
    apply negb_false_iff, Nat.eqb_eq in Ht. done. }
  split.
  - f_equal. by apply foldl_addTerm_filter.
  - intros Hnone. f_equal.
    rewrite (foldl_addTerm_filter _ _ _ (fun t => BM25.holds t doc)) by done.
    assert (List.filter (fun t => BM25.holds t doc) queryTokens = []) as ->; [|done].
    induction Hnone as [|t q Ht _ IH]; [done|]. simpl. by rewrite Ht.
Qed.

(** The bail document of the corpus and a query about appeals. *)
Lemma scoreDocument_reads_shared_terms_witness :
  let self := BM25.constructor SearchScenarios.logLowerBound SearchScenarios.corpus
                {| BM25.opt_k1 := None; BM25.opt_b := None |} in
  BM25.scoreDocument self 0 ["appeal"; "bail"]%string
  = BM25.scoreDocument self 0
      (List.filter (fun t => BM25.holds t (SearchScenarios.plain "bail"))
                   ["appeal"; "bail"]%string) /\
  (Forall (fun t => BM25.holds t (SearchScenarios.plain "bail") = false)
          ["appeal"; "bail"]%string ->
   BM25.scoreDocument self 0 ["appeal"; "bail"]%string = Some 0%Q).
Proof.
  apply (scoreDocument_reads_shared_terms SearchScenarios.logLowerBound
           SearchScenarios.corpus {| BM25.opt_k1 := None; BM25.opt_b := None |}
           0 (SearchScenarios.plain "bail") ["appeal"; "bail"]%string).
  reflexivity.
Defined.

(** X27.  Ranking.  On an index built by the constructor [search]
    returns [min(topK, N)] hits, in an order in which the scores never go
    up; no document appears twice, and every hit carries the document at
    its index together with that document's [scoreDocument] value. *)
Theorem search_ranks_by_score
    (log : Q -> Q) (docs : list BM25.Document) (options : BM25.Options)
    (query : string) (topK : nat) :
  let self := BM25.constructor log docs options in
  exists hits,
    BM25.search self query topK = Some hits /\
    length hits = Nat.min topK (length docs) /\
    BM25.descending hits /\
    NoDup (map BM25.index hits) /\
    Forall (fun h =>
              docs !! BM25.index h = Some (BM25.document h) /\
              BM25.scoreDocument self (BM25.index h) (BM25.tokenize query)
              = Some (BM25.score h)) hits.
Proof.
  intros self. unfold self, BM25.search.
  destruct (scoreAll_indexed log docs options (BM25.tokenize query))
    as (all & -> & Hidx & Hall).
  simpl. eexists. split; [done|].
  pose proof (sortHits_Permutation all) as Hperm.
  split; [|split; [|split]].
  - rewrite length_take, Hperm, <- (length_map BM25.index all), Hidx, length_seq. done.
  - apply take_descending, sortHits_descending.
  - apply (sublist_NoDup _ (map BM25.index (BM25.sortHits all))).
    + rewrite Hperm, Hidx. apply NoDup_seq.
    + apply (fmap_sublist BM25.index), sublist_take.
  - apply Forall_take, sortHits_Forall.
    eapply Forall_impl; [exact Hall|]. simpl. intros h (H1 & H2 & _). done.
Qed.

(** ** Documents outside and after the first build *)

Section IndexMore.
Import BM25.
Variable log : Q -> Q.

Lemma constructor_fields docs options :
  k1 (constructor log docs options) = JS.orQ (opt_k1 options) (3 # 2)%Q /\
  b (constructor log docs options) = JS.orQ (opt_b options) (3 # 4)%Q /\
  documents (constructor log docs options) = docs /\
  documentCount (constructor log docs options) = length docs.
Proof.
  unfold constructor. destruct (0 <? length docs) eqn:E; simpl.
  - unfold buildIndex. by destruct (firstPass docs ∅) as [[? ?] ?].
  - apply Nat.ltb_ge in E. split_and!; try done. lia.
Qed.

Lemma addTerm_onTheFly docs options d tokens docLength score term :
  (exists i, docs !! i = Some d) -> tokens = docTokens d ->
  addTerm (constructor log docs options) docLength (countTerms tokens) score term
  = addTermOnTheFly log (constructor log docs options) docLength (countTerms tokens)
      score term.
Proof.
  intros [i Hi] ->. unfold addTerm, addTermOnTheFly.
  rewrite countTerms_lookup.
  destruct (occurrences term (docTokens d) =? 0) eqn:E; [done|]. simpl.
  destruct (occurrences term (docTokens d)) as [|n] eqn:En; [done|]. simpl.
  rewrite constructor_idf_lookup.
  assert (Hh : holds term d = true) by (by rewrite holds_occurrences, En).
  pose proof (docFrequency_member term docs i d Hi Hh) as Hdf.
  destruct (docFrequency term docs) as [|df]; [lia|]. done.
Qed.
End IndexMore.

(** X28.  Scoring on the fly agrees with the index.  For a document that
    is part of the index, [scoreDocumentOnTheFly] gives the score that
    [scoreDocument] gives at the document's position: the fallback
    [Math.log(documentCount + 1)] is never used for it. *)
Theorem scoreDocumentOnTheFly_agrees_with_index
    (log : Q -> Q) (docs : list BM25.Document) (options : BM25.Options)
    (docIndex : nat) (doc : BM25.Document) (queryTokens : list string) :
  docs !! docIndex = Some doc ->
  BM25.scoreDocument (BM25.constructor log docs options) docIndex queryTokens
  = Some (BM25.scoreDocumentOnTheFly log (BM25.constructor log docs options)
            doc queryTokens).
Proof.
  intros Hd. rewrite (scoreDocument_indexed log docs options docIndex doc _ Hd).
  f_equal. unfold BM25.scoreDocumentOnTheFly. fold (BM25.docTokens doc).
  generalize 0%Q. induction queryTokens as [|t q IH]; intros a; [done|].
  cbn [foldl]. rewrite IH. f_equal.
  apply (addTerm_onTheFly log docs options doc); [by exists docIndex|done].
Qed.

(** The bail document of the corpus. *)
Lemma scoreDocumentOnTheFly_agrees_with_index_witness :
  BM25.scoreDocument
    (BM25.constructor SearchScenarios.logLowerBound SearchScenarios.corpus
       {| BM25.opt_k1 := None; BM25.opt_b := None |}) 0 ["bail"; "bond"]%string
  = Some (BM25.scoreDocumentOnTheFly SearchScenarios.logLowerBound
            (BM25.constructor SearchScenarios.logLowerBound SearchScenarios.corpus
               {| BM25.opt_k1 := None; BM25.opt_b := None |})
            (SearchScenarios.plain "bail") ["bail"; "bond"]%string).
Proof.
  apply (scoreDocumentOnTheFly_agrees_with_index SearchScenarios.logLowerBound
           SearchScenarios.corpus {| BM25.opt_k1 := None; BM25.opt_b := None |}
           0 (SearchScenarios.plain "bail") ["bail"; "bond"]%string).
  reflexivity.
Defined.

(** X29.  Adding documents rebuilds the index.  [addDocuments] with a
    non-empty list leaves the index in the state a fresh constructor
    call on the old documents followed by the new ones would give: the
    in-place rebuild keeps no stale length, term count or [idf] entry. *)
Theorem addDocuments_equals_fresh_index
    (log : Q -> Q) (docs newDocuments : list BM25.Document) (options : BM25.Options) :
  newDocuments <> [] ->
  BM25.addDocuments log (BM25.constructor log docs options) newDocuments
  = BM25.constructor log (docs ++ newDocuments) options.
Proof.
  intros Hne. unfold BM25.addDocuments.
  destruct newDocuments as [|d0 rest]; [done|]. clear Hne.
  set (newDocuments := d0 :: rest).
  assert (Hlen : 0 < length (docs ++ newDocuments)).
  { rewrite length_app. simpl. lia. }
  destruct (constructor_fields log docs options) as (Hk & Hb & Hdocs & _).
  destruct (constructor_lengths log docs options) as (Hl1 & Hl2).
  unfold BM25.rebuildIndex. cbn [BM25.documents BM25.documentCount BM25.k1 BM25.b
    BM25.documentLengths BM25.termFrequencies BM25.idf].
  rewrite Hdocs, Hk, Hb.
  unfold BM25.constructor at 4.
  apply Nat.ltb_lt in Hlen as ->. unfold BM25.buildIndex.
  destruct (firstPass_closed (docs ++ newDocuments) ∅) as (tdf & -> & Ht).
  f_equal.
  - apply overwrite_all. rewrite Hl1, length_map, length_app. lia.
  - apply map_eq. intros t. rewrite lookup_union, lookup_fmap, Ht, lookup_empty.
    rewrite constructor_idf_lookup, docFrequency_app.
    destruct (BM25.docFrequency t docs) as [|n]; simpl.
    + by destruct (BM25.docFrequency t newDocuments =? 0).
    + done.
  - apply overwrite_all. rewrite Hl2, length_map, length_app. lia.
Qed.

(** One more appeal added to the corpus of four. *)
Lemma addDocuments_equals_fresh_index_witness :
  BM25.addDocuments SearchScenarios.logLowerBound
    (BM25.constructor SearchScenarios.logLowerBound SearchScenarios.corpus
       {| BM25.opt_k1 := None; BM25.opt_b := None |})
    [SearchScenarios.plain "bail appeal"]
  = BM25.constructor SearchScenarios.logLowerBound
      (SearchScenarios.corpus ++ [SearchScenarios.plain "bail appeal"])
      {| BM25.opt_k1 := None; BM25.opt_b := None |}.
Proof.
  apply (addDocuments_equals_fresh_index SearchScenarios.logLowerBound
           SearchScenarios.corpus [SearchScenarios.plain "bail appeal"]
           {| BM25.opt_k1 := None; BM25.opt_b := None |}).
  discriminate.
Defined.

(** ** Deduplication, continued *)

Section DedupMore.
Import HybridSearchManager.

Lemma deduplicate_loop_first results seen :
  deduplicate_loop results seen `sublist_of` results /\
  (forall r, r ∈ results -> seen !! dedupKey r = None ->
             dedupKey r ∈ map dedupKey (deduplicate_loop results seen)) /\
  (forall r, r ∈ deduplicate_loop results seen ->
     exists i, results !! i = Some r /\ seen !! dedupKey r = None /\
               forall j r', j < i -> results !! j = Some r' -> dedupKey r' <> dedupKey r).
Proof.
  revert seen. induction results as [|r results IH]; intros seen; simpl.
  - split; [done|]. split; [by intros r H%elem_of_nil|by intros r H%elem_of_nil].
  - destruct (seen !! dedupKey r) as [v|] eqn:E.
    + destruct (IH seen) as (Hsub & Hcov & Hfirst). split; [by apply sublist_cons|]. split.
      * intros r0 Hin Hnone. apply elem_of_cons in Hin as [->|Hin]; [congruence|].
        by apply Hcov.
      * intros r0 Hin. destruct (Hfirst r0 Hin) as (i & Hi & Hnone & Hbefore).
        exists (S i). split; [done|]. split; [done|].
        intros [|j] r' Hj Hr'; simpl in Hr'.
        -- injection Hr' as <-. congruence.
        -- apply (Hbefore j); [lia|done].
    + destruct (IH (<[dedupKey r := true]> seen)) as (Hsub & Hcov & Hfirst).
      split; [by apply sublist_skip|]. split.
      * intros r0 Hin Hnone. simpl.
        destruct (decide (dedupKey r0 = dedupKey r)) as [->|Hne];
          [apply list_elem_of_here|].
        apply list_elem_of_further.
        apply elem_of_cons in Hin as [->|Hin]; [done|].
        apply Hcov; [done|]. by rewrite lookup_insert_ne.
      * intros r0 Hin. apply elem_of_cons in Hin as [->|Hin].
        -- exists 0. split; [done|]. split; [done|]. intros j r' Hj. lia.
        -- destruct (Hfirst r0 Hin) as (i & Hi & Hnone & Hbefore).
           assert (Hne : dedupKey r <> dedupKey r0).
           { intros Heq. rewrite Heq, lookup_insert_eq in Hnone. discriminate. }
           rewrite lookup_insert_ne in Hnone by done.
           exists (S i). split; [done|]. split; [done|].
           intros [|j] r' Hj Hr'; simpl in Hr'.
           ++ by injection Hr' as <-.
           ++ apply (Hbefore j); [lia|done].
Qed.
End DedupMore.

(** X30.  First occurrences.  [deduplicateResults] keeps, in their
    original order, exactly the results that are the first with their
    key: the output is a sublist of the input, its keys are pairwise
    different, every key of the input is still present, and no result
    before a kept one has the same key. *)
Theorem deduplicateResults_keeps_first_occurrences
    (results : list HybridSearchManager.Candidate) :
  let deduped := HybridSearchManager.deduplicateResults results in
  deduped `sublist_of` results /\
  NoDup (map HybridSearchManager.dedupKey deduped) /\
  (forall r, r ∈ results ->
     HybridSearchManager.dedupKey r ∈ map HybridSearchManager.dedupKey deduped) /\
  (forall r, r ∈ deduped ->
     exists i, results !! i = Some r /\
       forall j r', j < i -> results !! j = Some r' ->
         HybridSearchManager.dedupKey r' <> HybridSearchManager.dedupKey r).
Proof.
  intros deduped. unfold deduped, HybridSearchManager.deduplicateResults.
  destruct (deduplicate_loop_first results ∅) as (Hsub & Hcov & Hfirst).
  destruct (deduplicate_loop_keys results ∅) as [_ Hnd].
  split; [done|]. split; [done|]. split.
  - intros r Hin. apply Hcov; [done|]. apply lookup_empty.
  - intros r Hin. destruct (Hfirst r Hin) as (i & Hi & _ & Hbefore). by exists i.
Qed.
